(** * fixelcfestats: a shallow embedding of [cmd/fixelcfestats.cpp]

    The command computes fixel-fixel connectivity from a tractogram, smooths
    per-subject fixel data along it and runs connectivity-based fixel
    enhancement with permutation testing.

    Conventions of the embedding:
    - [value_type] (C++ [float]) is idealised as the exact rationals [Q];
      statements about stored values are therefore statements of exact
      arithmetic.  The transcendental functions of the C math library
      ([sqrt], [exp], [pow], [cos]) are a parameter, the record [Libm].
    - where the code divides by a number that can be zero (a track density,
      a sum of weights) the quotient and what is computed from it is a
      float [fp]: a rational, an infinity or a NaN, with the arithmetic of
      IEEE 754 on the infinities and the NaN.
    - fixed-width integers are [Z] with the wrap-around written out
      ([to_int32], [to_uint16]).
    - [std::vector] is [list] (index by [nat]); [std::map<int32_t,_>] is
      [gmap Z _].  An access outside a vector is undefined behaviour in C++;
      here it reads a default and writes nothing.
    - the voxels of the mask grid are named by their position in the scan
      order of [Image::LoopInOrder]. *)

From Stdlib Require Import ZArith QArith Qabs Qround Lia Lqa String.
From stdpp Require Import base decidable option list list_numbers sorting gmap fin_maps pretty strings.

Local Open Scope Z_scope.
Local Open Scope Q_scope.

(* ================================================================== *)
(** * Numeric types *)

Abbreviation value_type := Q.

(** [int32_t] and [uint16_t] conversions (two's complement wrap-around). *)
Definition to_int32 (z : Z) : Z := ((z + 2147483648) mod 4294967296 - 2147483648)%Z.
Definition to_uint16 (z : Z) : Z := (z mod 65536)%Z.
Definition to_uint32 (z : Z) : Z := (z mod 4294967296)%Z.

(** Comparisons of [value_type] as the code writes them. *)
Definition Qltb (x y : Q) : bool := (Qnum x * QDen y <? Qnum y * QDen x)%Z.

(** A float that need not be finite: a rational or one of the values that
    [std::isfinite] rejects. *)
Inductive fp : Type :=
  | Finite (q : Q)
  | PlusInfinity
  | MinusInfinity
  | NotANumber.

(** [a < b] on floats; a comparison with a NaN is false. *)
Definition fp_lt (a b : fp) : bool :=
  match a, b with
  | Finite x, Finite y => Qltb x y
  | Finite _, PlusInfinity => true
  | MinusInfinity, Finite _ => true
  | MinusInfinity, PlusInfinity => true
  | _, _ => false
  end.

Definition fp_is_zero (a : fp) : bool :=
  match a with
  | Finite x => Qeq_bool x 0
  | _ => false
  end.

(** The arithmetic of IEEE 754 on [fp]; it is exact on finite operands.  The
    rationals have one zero, which stands for [+0.0]: the divisors of this
    program that can be zero are a count converted to [float] and a sum
    that starts from [0.0]. *)
Definition fp_signed_infinity (negative : bool) : fp :=
  if negative then MinusInfinity else PlusInfinity.

Definition fp_add (a b : fp) : fp :=
  match a, b with
  | Finite x, Finite y => Finite (x + y)
  | NotANumber, _ | _, NotANumber => NotANumber
  | PlusInfinity, MinusInfinity | MinusInfinity, PlusInfinity => NotANumber
  | PlusInfinity, _ | _, PlusInfinity => PlusInfinity
  | MinusInfinity, _ | _, MinusInfinity => MinusInfinity
  end.

Definition fp_mul (a b : fp) : fp :=
  match a, b with
  | Finite x, Finite y => Finite (x * y)
  | NotANumber, _ | _, NotANumber => NotANumber
  | Finite x, PlusInfinity | PlusInfinity, Finite x =>
      if Qeq_bool x 0 then NotANumber else fp_signed_infinity (Qltb x 0)
  | Finite x, MinusInfinity | MinusInfinity, Finite x =>
      if Qeq_bool x 0 then NotANumber else fp_signed_infinity (negb (Qltb x 0))
  | PlusInfinity, PlusInfinity | MinusInfinity, MinusInfinity => PlusInfinity
  | PlusInfinity, MinusInfinity | MinusInfinity, PlusInfinity => MinusInfinity
  end.

Definition fp_div (a b : fp) : fp :=
  match a, b with
  | Finite x, Finite y =>
      if Qeq_bool y 0
      then (if Qeq_bool x 0 then NotANumber else fp_signed_infinity (Qltb x 0))
      else Finite (x / y)
  | NotANumber, _ | _, NotANumber => NotANumber
  | Finite _, PlusInfinity | Finite _, MinusInfinity => Finite 0
  | PlusInfinity, Finite y => fp_signed_infinity (Qltb y 0)
  | MinusInfinity, Finite y => fp_signed_infinity (negb (Qltb y 0))
  | _, _ => NotANumber
  end.

(** Two floats that hold the same value. *)
Definition fp_eq (a b : fp) : Prop :=
  match a, b with
  | Finite x, Finite y => x == y
  | PlusInfinity, PlusInfinity | MinusInfinity, MinusInfinity
  | NotANumber, NotANumber => True
  | _, _ => False
  end.

(** [v[i]] for a signed index [i]: a read outside the vector gives the
    default, a write outside it is dropped. *)
Definition vec_get {A : Type} (v : list A) (i : Z) (d : A) : A :=
  if (0 <=? i)%Z then nth (Z.to_nat i) v d else d.

Definition vec_alter {A : Type} (f : A → A) (i : Z) (v : list A) : list A :=
  if (0 <=? i)%Z then alter f (Z.to_nat i) v else v.

(** The C math library, outside the repository. *)
Record Libm : Type := {
  fsqrt : Q → Q;
  fexp : Q → Q;
  fpow : Q → Q → Q;
  fcos : Q → Q
}.

(** [M_PI], the decimal literal of <math.h>. *)
Definition M_PI : Q := 3.14159265358979323846.

(** [pow (x, y)] for a base that need not be finite and a finite exponent:
    the library on a finite base (the exponent of this program, [cfe_c], is
    not negative, so the power of a finite base is finite), and the special
    values of C99 (F.9.4.4) otherwise. *)
Definition is_odd_integer (y : Q) : bool :=
  (Qden (Qred y) =? 1)%positive && Z.odd (Qnum (Qred y)).

Definition fp_pow (lib : Libm) (a : fp) (y : Q) : fp :=
  match a with
  | Finite x => Finite (fpow lib x y)
  | PlusInfinity =>
      if Qeq_bool y 0 then Finite 1
      else if Qltb y 0 then Finite 0 else PlusInfinity
  | MinusInfinity =>
      if Qeq_bool y 0 then Finite 1
      else if Qltb y 0 then Finite 0
      else if is_odd_integer y then MinusInfinity else PlusInfinity
  | NotANumber => if Qeq_bool y 0 then Finite 1 else NotANumber
  end.

(* ================================================================== *)
(** * A rational math library

    An instance of [Libm] that computes: coarse rational approximations on
    a grid of 2^-64, exact where the function takes a rational value that the
    series or the integer square root reaches ([sqrt] of the square of a
    rational, [exp 0], [cos 0], [pow] with an integer exponent, [pow 1 y]).
    It serves to run the model on examples; the general properties below
    hold for every [Libm]. *)

Definition qsqrt (x : Q) : Q :=
  if Qltb 0 x
  then Qred (Z.sqrt (Qnum x * QDen x * 4 ^ 30) # (Qden x * 2 ^ 30))
  else 0.

(** Rounding to a multiple of 2^-64. *)
Definition qround (x : Q) : Q := Qred (Qfloor (x * inject_Z (2 ^ 64)) # 2 ^ 64).

(** [series step t k n]: the sum of [n] terms from [t], each term obtained
    from the previous by [step k] and rounded. *)
Fixpoint series (step : Z → Q → Q) (t : Q) (k : Z) (n : nat) : Q :=
  match n with
  | O => 0
  | S n' => Qred (t + series step (qround (step k t)) (k + 1)%Z n')
  end.

Definition qexp (x : Q) : Q := series (λ k t, t * qround x / inject_Z k) 1 1 24.

Definition qcos (x : Q) : Q :=
  series (λ k t, - t * qround (x * x) / inject_Z ((2 * k - 1) * (2 * k))) 1 1 16.

Definition qln (x : Q) : Q :=
  let z := qround ((x - 1) / (x + 1)) in
  2 * series (λ k t, t * qround (z * z) * inject_Z (2 * k - 1) / inject_Z (2 * k + 1)) z 1 40.

Definition qpow (x y : Q) : Q :=
  let y' := Qred y in
  if (Qden y' =? 1)%positive then Qred (x ^ Qnum y')
  else if Qltb 0 x then qexp (y * qln x) else 0.

Definition qlibm : Libm :=
  {| fsqrt := qsqrt; fexp := qexp; fpow := qpow; fcos := qcos |}.

(* ================================================================== *)
(** * Command line (lines 52-108 and 208-254 of [run]) *)

(** [get_options (name)] returns the occurrences of an option; a field is
    [Some v] (or [true]) when the option was given. *)
Record Options : Type := {
  opt_notest : bool;
  opt_nperms : option Z;
  opt_cfe_dh : option Q;
  opt_cfe_e : option Q;
  opt_cfe_h : option Q;
  opt_cfe_c : option Q;
  opt_angle : option Q;
  opt_connectivity : option Q;
  opt_smooth : option Q;
  opt_nonstationary : bool;
  opt_nperms_nonstationary : option Z
}.

Definition no_options : Options :=
  {| opt_notest := false; opt_nperms := None; opt_cfe_dh := None;
     opt_cfe_e := None; opt_cfe_h := None; opt_cfe_c := None;
     opt_angle := None; opt_connectivity := None; opt_smooth := None;
     opt_nonstationary := false; opt_nperms_nonstationary := None |}.

(** The options of a run given [nonstationary] alone, and
    [nperms_nonstationary 100] alone. *)
Definition only_nonstationary : Options :=
  {| opt_notest := false; opt_nperms := None; opt_cfe_dh := None;
     opt_cfe_e := None; opt_cfe_h := None; opt_cfe_c := None;
     opt_angle := None; opt_connectivity := None; opt_smooth := None;
     opt_nonstationary := true; opt_nperms_nonstationary := None |}.

Definition only_nperms_nonstationary (n : Z) : Options :=
  {| opt_notest := false; opt_nperms := None; opt_cfe_dh := None;
     opt_cfe_e := None; opt_cfe_h := None; opt_cfe_c := None;
     opt_angle := None; opt_connectivity := None; opt_smooth := None;
     opt_nonstationary := false; opt_nperms_nonstationary := Some n |}.

(** The options [notest] and [nperms_nonstationary 1]. *)
Definition notest_with_prepass : Options :=
  {| opt_notest := true; opt_nperms := None; opt_cfe_dh := None;
     opt_cfe_e := None; opt_cfe_h := None; opt_cfe_c := None;
     opt_angle := None; opt_connectivity := None; opt_smooth := None;
     opt_nonstationary := false; opt_nperms_nonstationary := Some 1%Z |}.

(** The defaults announced by [usage ()]: the second argument of
    [type_float]/[type_integer] and the help text. *)
Definition usage_default_cfe_e : Q := 2.0.
Definition usage_default_cfe_h : Q := 1.0.

(** The local variables of [run] once the options are read. *)
Record Config : Type := {
  cfe_dh : value_type;
  cfe_h : value_type;
  cfe_e : value_type;
  cfe_c : value_type;
  num_perms : Z;
  angular_threshold : value_type;
  connectivity_threshold : value_type;
  smooth_std_dev : value_type;
  do_nonstationary_adjustment : bool;
  nperms_nonstationary : Z
}.

Definition read_options (o : Options) : Config :=
  let cfe_dh := default 0.1 (opt_cfe_dh o) in
  let cfe_h := default 2.0 (opt_cfe_h o) in
  let cfe_e := default 1.0 (opt_cfe_e o) in
  let cfe_c := default 0.1 (opt_cfe_c o) in
  let num_perms := default 5000%Z (opt_nperms o) in
  let angular_threshold := default 30.0 (opt_angle o) in
  let connectivity_threshold := default 0.01 (opt_connectivity o) in
  let smooth_std_dev :=
    match opt_smooth o with
    | Some fwhm => fwhm / 2.3548
    | None => 10.0 / 2.3548
    end in
  (* bool do_nonstationary_adjustment = get_options ("nperms_nonstationary").size(); *)
  let do_nonstationary_adjustment := bool_decide (is_Some (opt_nperms_nonstationary o)) in
  (* opt = get_options ("nperms"); int nperms_nonstationary = 5000;
     if (opt.size()) num_perms = opt[0][0]; *)
  let nperms_nonstationary := 5000%Z in
  let num_perms := default num_perms (opt_nperms o) in
  {| cfe_dh := cfe_dh; cfe_h := cfe_h; cfe_e := cfe_e; cfe_c := cfe_c;
     num_perms := num_perms; angular_threshold := angular_threshold;
     connectivity_threshold := connectivity_threshold;
     smooth_std_dev := smooth_std_dev;
     do_nonstationary_adjustment := do_nonstationary_adjustment;
     nperms_nonstationary := nperms_nonstationary |}.

(** Modelled from the spec: the constructor of [Stats::TFCE::Connectivity]
    (stats/tfce.h is not among the sources) takes, after the matrix, the
    parameters [dh], [e] and [h] of the enhancement in this order.  [run]
    calls it as [cfe_integrator (connectivity_matrix, cfe_dh, cfe_e, cfe_h)]. *)
Record Enhancer : Type := { enh_dh : value_type; enh_E : value_type; enh_H : value_type }.

Definition cfe_integrator (c : Config) : Enhancer :=
  {| enh_dh := cfe_dh c; enh_E := cfe_e c; enh_H := cfe_h c |}.

(** The number of permutations of the empirical pre-pass
    ([precompute_empirical_stat]), [None] when the pre-pass is skipped. *)
Definition empirical_prepass (c : Config) : option Z :=
  if do_nonstationary_adjustment c then Some (nperms_nonstationary c) else None.

(** The number of permutations of the test proper ([Stats::TFCE::run]),
    [None] under [notest]. *)
Definition test_permutations (o : Options) (c : Config) : option Z :=
  if opt_notest o then None else Some (num_perms c).

(* ================================================================== *)
(** * Output files (lines 454-520 of [run])

    The files written by a run that reaches its end, in the order of the
    calls to [write_fixel_output] and [save]. *)

Definition beta_outputs (output_prefix : string) (contrast_columns : nat) : list string :=
  (λ i : nat, output_prefix +:+ "_beta" +:+ pretty i +:+ ".msf") <$> seq 0 contrast_columns.

Definition population_outputs (output_prefix : string) (contrast_columns : nat) : list string :=
  beta_outputs output_prefix contrast_columns ++
  [ output_prefix +:+ "_abs_effect.msf";
    output_prefix +:+ "_std_effect.msf";
    output_prefix +:+ "_std_dev.msf" ].

Definition empirical_outputs (output_prefix : string) (c : Config) : list string :=
  if do_nonstationary_adjustment c
  then [ output_prefix +:+ "_cfe_empirical.msf" ]
  else [].

Definition test_outputs (output_prefix : string) (o : Options) : list string :=
  if opt_notest o then []
  else [ output_prefix +:+ "_perm_dist_pos.txt";
         output_prefix +:+ "_cfe_pos.msf";
         output_prefix +:+ "_tvalue.msf";
         output_prefix +:+ "_pvalue_pos.msf" ].

Definition run_outputs (o : Options) (output_prefix : string) (contrast_columns : nat)
  : list string :=
  let c := read_options o in
  population_outputs output_prefix contrast_columns ++
  empirical_outputs output_prefix c ++
  test_outputs output_prefix o.

(** The seven files the negative and positive tails would make. *)
Definition seven_test_files (output_prefix : string) : list string :=
  (λ s, output_prefix +:+ s) <$>
  [ "_cfe_pos.msf"; "_cfe_neg.msf"; "_tvalue.msf"; "_pvalue_pos.msf";
    "_pvalue_neg.msf"; "_perm_dist_pos.txt"; "_perm_dist_neg.txt" ]%string.

(** The suffixes of the files of a run: every name is the prefix followed by
    one of them. *)
Definition suffixes_of (contrast_columns : nat) (o : Options) : list string :=
  ((λ i : nat, "_beta" +:+ pretty i +:+ ".msf") <$> seq 0 contrast_columns) ++
  [ "_abs_effect.msf"; "_std_effect.msf"; "_std_dev.msf" ]%string ++
  (if do_nonstationary_adjustment (read_options o) then [ "_cfe_empirical.msf"%string ] else []) ++
  (if opt_notest o then []
   else [ "_perm_dist_pos.txt"; "_cfe_pos.msf"; "_tvalue.msf"; "_pvalue_pos.msf" ]%string).

(** [has_infix s t]: [s] occurs in [t]. *)
Fixpoint has_infix (s t : string) : bool :=
  String.prefix s t ||
  match t with
  | EmptyString => false
  | String _ t' => has_infix s t'
  end.

(* ================================================================== *)
(** * Points and fixels *)

(** Modelled from the spec: [Point<value_type>] (lib/point.h is not among the
    sources), a 3-vector with its dot product and normalisation. *)
Definition Point : Type := (Q * Q * Q)%type.

Definition px (p : Point) : Q := p.1.1.
Definition py (p : Point) : Q := p.1.2.
Definition pz (p : Point) : Q := p.2.

Definition dot (p q : Point) : Q := px p * px q + py p * py q + pz p * pz q.

Definition normalise (lib : Libm) (p : Point) : Point :=
  let n := fsqrt lib (dot p p) in (px p / n, py p / n, pz p / n).

Definition pow2 (x : Q) : Q := x * x.

(** Modelled from the spec: [Image::Sparse::FixelMetric]
    (image/sparse/fixel_metric.h is not among the sources), the record
    [{ direction, value, size }] of the data model. *)
Record FixelMetric : Type := {
  fixel_dir : Point;
  fixel_size : value_type;
  fixel_value : value_type
}.

(** Modelled from the spec: [Stats::TFCE::connectivity] (stats/tfce.h is not
    among the sources), one cell of the connectivity matrix: a count during
    accumulation, a weight afterwards; a fresh cell holds 0.  The record here
    is the cell that holds a count; the weights are floats, see [Weights]. *)
Record connectivity : Type := { value : value_type }.

Definition connectivity_default : connectivity := {| value := 0 |}.

(* ================================================================== *)
(** * Fixel index (lines 288-317 of [run])

    [fixel_indexer] is the 4-D scratch image of shape (X,Y,Z,2); a voxel
    holds the pair (plane 0, plane 1). *)

Abbreviation IndexImage := (list (Z * Z)).

Definition plane0 (idx : IndexImage) (v : nat) : Z := (idx !!! v).1.
Definition plane1 (idx : IndexImage) (v : nat) : Z := (idx !!! v).2.
Definition set_plane0 (v : nat) (x : Z) (idx : IndexImage) : IndexImage :=
  alter (λ c, (x, c.2)) v idx.
Definition set_plane1 (v : nat) (x : Z) (idx : IndexImage) : IndexImage :=
  alter (λ c, (c.1, x)) v idx.

Record FixelIndex : Type := {
  fixel_indexer : IndexImage;
  directions : list Point;
  positions : list Point
}.

(** The body of the loop over the mask voxels, for voxel [v] holding
    [fixels].  [voxel2scanner] is the mask's voxel-to-scanner transform. *)
Definition index_voxel (voxel2scanner : nat → Point) (st : FixelIndex) (v : nat)
    (fixels : list FixelMetric) : FixelIndex :=
  (* indexer_vox[3] = 0; indexer_vox.value() = directions.size(); *)
  let idx := set_plane0 v (to_int32 (Z.of_nat (length (directions st)))) (fixel_indexer st) in
  (* for (f = 0; f != size; ++f, ++fixel_count) { push_back; push_back } *)
  let '(dirs, poss, fixel_count) :=
    fold_left (λ '(dirs, poss, fixel_count) f,
                 (dirs ++ [fixel_dir f], poss ++ [voxel2scanner v],
                  to_int32 (fixel_count + 1)))
              fixels (directions st, positions st, 0%Z) in
  (* indexer_vox[3] = 1; indexer_vox.value() = fixel_count; *)
  {| fixel_indexer := set_plane1 v fixel_count idx;
     directions := dirs; positions := poss |}.

Fixpoint index_loop (voxel2scanner : nat → Point) (v : nat)
    (mask : list (list FixelMetric)) (st : FixelIndex) : FixelIndex :=
  match mask with
  | [] => st
  | fixels :: rest =>
      index_loop voxel2scanner (S v) rest (index_voxel voxel2scanner st v fixels)
  end.

(** [loop4D] first stores -1 in every cell of both planes. *)
Definition build_fixel_index (voxel2scanner : nat → Point)
    (mask : list (list FixelMetric)) : FixelIndex :=
  index_loop voxel2scanner 0 mask
    {| fixel_indexer := replicate (length mask) ((-1)%Z, (-1)%Z);
       directions := []; positions := [] |}.

Definition num_fixels (fi : FixelIndex) : Z := to_uint32 (Z.of_nat (length (directions fi))).

(** A fixel of direction [d], and a mask of three voxels of which the
    first and the last hold no fixel. *)
Definition unit_fixel (d : Point) : FixelMetric :=
  {| fixel_dir := d; fixel_size := 1; fixel_value := 0 |}.

Definition mask_with_empty_voxels : list (list FixelMetric) :=
  [ []; [ unit_fixel (1, 0, 0) ]; [] ].

(** The number of fixels in the voxels before [v]. *)
Definition fixels_before (mask : list (list FixelMetric)) (v : nat) : nat :=
  length (concat (take v mask)).

(* ================================================================== *)
(** * Track processor (lines 114-180) *)

Record TrackProcessor : Type := {
  tp_fixel_indexer : IndexImage;
  tp_fixel_directions : list Point;
  angular_threshold_dp : value_type
}.

(** The constructor: [angular_threshold_dp = cos (angular_threshold * (M_PI/180.0))]. *)
Definition TrackProcessor_new (lib : Libm) (idx : IndexImage) (dirs : list Point)
    (angular_threshold : value_type) : TrackProcessor :=
  {| tp_fixel_indexer := idx; tp_fixel_directions := dirs;
     angular_threshold_dp := fcos lib (angular_threshold * (M_PI / 180.0)) |}.

(** An element of [SetVoxelDir]: a voxel and the streamline tangent in it.
    A streamline arrives as the elements of the set in iteration order. *)
Record VoxelDir : Type := { vd_voxel : nat; get_dir : Point }.

Abbreviation SetVoxelDir := (list VoxelDir).

Definition origin : Point := (0, 0, 0).

(** The scan of the fixels [first_index .. last_index) of a voxel for the
    one closest to [dir]; the state is [(largest_dp, closest_fixel_index)]. *)
Definition closest_fixel (dirs : list Point) (dir : Point) (first_index last_index : Z)
  : value_type * Z :=
  fold_left (λ '(largest_dp, closest_fixel_index) j,
               let dp := Qabs (dot dir (vec_get dirs j origin)) in
               if Qltb largest_dp dp then (dp, j) else (largest_dp, closest_fixel_index))
            (seqZ first_index (last_index - first_index)) (0, (-1)%Z).

(** [fixel_TDI[j]++] on a [uint16_t]. *)
Definition TDI_increment (j : Z) (fixel_TDI : list Z) : list Z :=
  vec_alter (λ n, to_uint16 (n + 1)) j fixel_TDI.

(** First loop of [operator()], one tangent: the fixel the tangent is
    assigned to, [None] when the voxel is not indexed or no fixel is within
    the angular threshold. *)
Definition tangent_fixel (lib : Libm) (tp : TrackProcessor) (i : VoxelDir) : option Z :=
  let first_index := plane0 (tp_fixel_indexer tp) (vd_voxel i) in
  if (0 <=? first_index)%Z then
    let last_index := to_int32 (first_index + plane1 (tp_fixel_indexer tp) (vd_voxel i)) in
    let dir := normalise lib (get_dir i) in
    let '(largest_dp, closest_fixel_index) :=
      closest_fixel (tp_fixel_directions tp) dir first_index last_index in
    if Qltb (angular_threshold_dp tp) largest_dp
    then Some closest_fixel_index
    else None
  else None.

(** The effect of the tangent on [(tract_fixel_indices, fixel_TDI)]:
    [push_back (closest_fixel_index); fixel_TDI[closest_fixel_index]++]. *)
Definition assign_tangent (lib : Libm) (tp : TrackProcessor)
    (st : list Z * list Z) (i : VoxelDir) : list Z * list Z :=
  match tangent_fixel lib tp i with
  | Some closest_fixel_index =>
      (st.1 ++ [closest_fixel_index], TDI_increment closest_fixel_index st.2)
  | None => st
  end.

Definition assign_tangents (lib : Libm) (tp : TrackProcessor) (inp : SetVoxelDir)
    (fixel_TDI : list Z) : list Z * list Z :=
  fold_left (assign_tangent lib tp) inp ([], fixel_TDI).

(** The connectivity matrix: one map per fixel. *)
Abbreviation Matrix := (list (gmap Z connectivity)).

Definition cell (M : Matrix) (i : nat) (j : Z) : option connectivity :=
  M !! i ≫= (.!! j).

(** [connectivity_matrix[a][b].value++]: [operator[]] of the map creates the
    cell when it is absent. *)
Definition increment_cell (a b : Z) (M : Matrix) : Matrix :=
  vec_alter
    (λ row, <[ b := {| value := value (default connectivity_default (row !! b)) + 1 |} ]> row)
    a M.

(** Second loop of [operator()]: every pair of positions [i < j] of
    [tract_fixel_indices]. *)
Fixpoint accumulate (tract_fixel_indices : list Z) (M : Matrix) : Matrix :=
  match tract_fixel_indices with
  | [] => M
  | a :: rest => accumulate rest (fold_left (λ M b, increment_cell a b M) rest M)
  end.

(** [TrackProcessor::operator()] on the shared state [(fixel_TDI,
    connectivity_matrix)]. *)
Definition process_track (lib : Libm) (tp : TrackProcessor)
    (st : list Z * Matrix) (inp : SetVoxelDir) : list Z * Matrix :=
  let '(tract_fixel_indices, fixel_TDI) := assign_tangents lib tp inp st.1 in
  (fixel_TDI, accumulate tract_fixel_indices st.2).

(** The streamlines processed one after the other, from
    [fixel_TDI (num_fixels, 0)] and [connectivity_matrix (num_fixels)]. *)
Definition process_tracks (lib : Libm) (tp : TrackProcessor) (n : nat)
    (tracks : list SetVoxelDir) : list Z * Matrix :=
  fold_left (process_track lib tp) tracks (replicate n 0%Z, replicate n ∅).

(** The fixels accepted for a streamline (its [tract_fixel_indices]), and
    over a tractogram. *)
Definition accepted (lib : Libm) (tp : TrackProcessor) (inp : SetVoxelDir) : list Z :=
  (assign_tangents lib tp inp []).1.

Definition all_accepted (lib : Libm) (tp : TrackProcessor) (tracks : list SetVoxelDir) : list Z :=
  concat (accepted lib tp <$> tracks).

(** The number of accepted matches of fixel [j] in a list of accepted fixels. *)
Definition matches (j : nat) (L : list Z) : Z :=
  Z.of_nat (length (filter (λ k, k = Z.of_nat j) L)).

(** The number of pairs of positions [i < j] of [L] with [L[i] = a] and
    [L[j] = b]. *)
Fixpoint pair_count (L : list Z) (a b : Z) : nat :=
  match L with
  | [] => 0
  | x :: rest =>
      ((if decide (x = a) then length (filter (λ k, k = b) rest) else 0)
       + pair_count rest a b)%nat
  end.

(** The count held by a cell, 0 when the cell is absent. *)
Definition cell_value (M : Matrix) (i : nat) (j : Z) : value_type :=
  value (default connectivity_default (cell M i j)).

(** [bumped n old new]: the cell [new] is the cell [old] after [n]
    increments; without increment the cell is left as it is, absent or not. *)
Definition bumped (n : nat) (old new : option connectivity) : Prop :=
  (n = 0%nat → new = old)
  ∧ (n ≠ 0%nat →
     ∃ v, new = Some v
          ∧ value v == value (default connectivity_default old) + inject_Z (Z.of_nat n)).

(** Examples.  A mask of one voxel with one fixel along x, crossed by 65536
    streamlines along x. *)
Definition one_fixel_index : FixelIndex :=
  build_fixel_index (λ _, origin) [ [ unit_fixel (1, 0, 0) ] ].

Definition one_fixel_tp : TrackProcessor :=
  TrackProcessor_new qlibm (fixel_indexer one_fixel_index) (directions one_fixel_index) 30.

Definition along_x (v : nat) : VoxelDir := {| vd_voxel := v; get_dir := (1, 0, 0) |}.
Definition along_y (v : nat) : VoxelDir := {| vd_voxel := v; get_dir := (0, 1, 0) |}.

Definition tracks_65536 : list SetVoxelDir := replicate (Z.to_nat 65536) [ along_x 0 ].

(** A mask of two voxels, the first with a fixel along x and the second
    with a fixel along y, and a streamline whose set of voxels lists the
    second voxel before the first. *)
Definition two_fixel_index : FixelIndex :=
  build_fixel_index (λ _, origin) [ [ unit_fixel (1, 0, 0) ]; [ unit_fixel (0, 1, 0) ] ].

Definition two_fixel_tp : TrackProcessor :=
  TrackProcessor_new qlibm (fixel_indexer two_fixel_index) (directions two_fixel_index) 30.


(* ================================================================== *)
(** * Connectivity finaliser (lines 349-407 of [run]) *)

(** [connectivity_matrix[k][fixel] = v]. *)
Definition set_cell (k fixel : Z) (v : connectivity) (M : Matrix) : Matrix :=
  vec_alter (λ row, <[ fixel := v ]> row) k M.

(** The [while] loop over row [fixel]: each entry [(k, v)] of the row is
    written to [M[k][fixel]].  The writes of one pass go to distinct rows,
    so the order in which the entries are visited does not matter. *)
Definition symmetrise_row (M : Matrix) (fixel : nat) : Matrix :=
  map_fold (λ k v M', set_cell k (Z.of_nat fixel) v M') M (M !!! fixel).

Definition symmetrise (M : Matrix) : Matrix :=
  fold_left symmetrise_row (seq 0 (length M)) M.

(** What symmetrisation leaves in cell [(r, c)]: the diagonal as it was;
    elsewhere the entry of the upper triangle, or else the entry of the
    lower triangle. *)
Definition symmetrised_cell (M : Matrix) (r c : nat) : option connectivity :=
  if decide (r = c) then cell M r (Z.of_nat c)
  else if (r <? c)%nat
       then match cell M r (Z.of_nat c) with
            | Some v => Some v
            | None => cell M c (Z.of_nat r)
            end
       else match cell M c (Z.of_nat r) with
            | Some v => Some v
            | None => cell M r (Z.of_nat c)
            end.

Definition do_smoothing (c : Config) : bool := Qltb 0.0 (smooth_std_dev c).

Definition gaussian_const2 (c : Config) : value_type :=
  2.0 * smooth_std_dev c * smooth_std_dev c.

Definition gaussian_const1 (lib : Libm) (c : Config) : value_type :=
  if do_smoothing c
  then 1.0 / (smooth_std_dev c * fsqrt lib (2.0 * M_PI))
  else 1.0.

(** From the division of line 373 on, the value of a cell is a float that
    need not be finite: the connectivity matrix and the smoothing weights
    after the loop map a fixel to an [fp]. *)
Abbreviation Weights := (list (gmap Z fp)).

Definition weight (W : Weights) (i : nat) (j : Z) : option fp :=
  W !! i ≫= (.!! j).

(** The rational a finite float holds. *)
Definition finite_part (w : fp) : option Q :=
  match w with
  | Finite q => Some q
  | _ => None
  end.

(** [it->second.value / value_type (fixel_TDI[fixel])], a division of
    floats: by a track density of 0 a positive count gives [+inf]. *)
Definition row_connectivity (fixel_TDI : list Z) (fixel : nat) (v : connectivity) : fp :=
  fp_div (Finite (value v)) (Finite (inject_Z (nth fixel fixel_TDI 0%Z))).

(** The fate of one entry of row [fixel]: erased, or replaced by its power. *)
Definition threshold_entry (lib : Libm) (c : Config) (fixel_TDI : list Z) (fixel : nat)
    (v : connectivity) : option fp :=
  let connectivity := row_connectivity fixel_TDI fixel v in
  if fp_lt connectivity (Finite (connectivity_threshold c)) then None
  else Some (fp_pow lib connectivity (cfe_c c)).

(** What the loop leaves in row [fixel] of the connectivity matrix. *)
Definition threshold_row (lib : Libm) (c : Config) (fixel_TDI : list Z) (fixel : nat)
    (row : gmap Z connectivity) : gmap Z fp :=
  omap (threshold_entry lib c fixel_TDI fixel) row.

Definition distance (lib : Libm) (p q : Point) : value_type :=
  fsqrt lib (pow2 (px p - px q) + pow2 (py p - py q) + pow2 (pz p - pz q)).

(** What the loop inserts in [smoothing_weights[fixel]]. *)
Definition smoothing_row (lib : Libm) (c : Config) (fixel_TDI : list Z)
    (positions : list Point) (fixel : nat) (row : gmap Z connectivity) : gmap Z fp :=
  if do_smoothing c then
    map_imap (λ k v,
                let connectivity := row_connectivity fixel_TDI fixel v in
                if fp_lt connectivity (Finite (connectivity_threshold c)) then None
                else
                  let d := distance lib (nth fixel positions origin)
                                        (vec_get positions k origin) in
                  let smoothing_weight :=
                    fp_mul (fp_mul connectivity (Finite (gaussian_const1 lib c)))
                           (Finite (fexp lib (- pow2 d / gaussian_const2 c))) in
                  if fp_lt (Finite (connectivity_threshold c)) smoothing_weight
                  then Some smoothing_weight else None) row
  else ∅.

(** [std::map::insert]: the map is unchanged when the key is present. *)
Definition insert_new {A : Type} (k : Z) (v : A) (m : gmap Z A) : gmap Z A :=
  match m !! k with
  | Some _ => m
  | None => <[ k := v ]> m
  end.

(** The loop over the fixels.  The pass for [fixel] reads and writes row
    [fixel] of the two structures only, so the rows are given one by one. *)
Definition finalise_connectivity (lib : Libm) (c : Config) (fixel_TDI : list Z)
    (M : Matrix) : Weights :=
  imap (λ fixel row,
          insert_new (Z.of_nat fixel) (Finite 1.0)
                     (threshold_row lib c fixel_TDI fixel row)) M.

Definition raw_smoothing_weights (lib : Libm) (c : Config) (fixel_TDI : list Z)
    (positions : list Point) (M : Matrix) : Weights :=
  imap (λ fixel row,
          insert_new (Z.of_nat fixel) (Finite (gaussian_const1 lib c))
                     (smoothing_row lib c fixel_TDI positions fixel row)) M.

(** Normalisation of the smoothing weights.  The sum is exact on finite
    weights and the addition of [fp] is commutative and associative
    ([fp_add_comm], [fp_add_assoc]), so the order in which the map is
    visited does not matter. *)
Definition row_sum (row : gmap Z fp) : fp :=
  map_fold (λ _ w sum, fp_add sum w) (Finite 0.0) row.

Definition normalise_row (row : gmap Z fp) : gmap Z fp :=
  let norm_factor := fp_div (Finite 1.0) (row_sum row) in
  (λ w, fp_mul w norm_factor) <$> row.

(** Lines 349-407 as a whole, from the raw matrix of the track processor. *)
Definition finalised_matrix (lib : Libm) (c : Config) (fixel_TDI : list Z)
    (raw : Matrix) : Weights :=
  finalise_connectivity lib c fixel_TDI (symmetrise raw).

Definition smoothing_weights (lib : Libm) (c : Config) (fixel_TDI : list Z)
    (positions : list Point) (raw : Matrix) : Weights :=
  normalise_row <$> raw_smoothing_weights lib c fixel_TDI positions (symmetrise raw).

(* ================================================================== *)
(** * Subject loader and smoother (lines 409-452 of [run]) *)

(** The scan of a subject voxel for the fixel closest to template fixel
    [i]; the state is [(largest_dp, index_of_closest_fixel)]. *)
Definition closest_subject_fixel (direction : Point) (subject_voxel : list FixelMetric)
  : value_type * Z :=
  fold_left (λ '(largest_dp, index_of_closest_fixel) '(f, fx),
               let dp := Qabs (dot direction (fixel_dir fx)) in
               if Qltb largest_dp dp then (dp, Z.of_nat f)
               else (largest_dp, index_of_closest_fixel))
            (imap pair subject_voxel) (0.0, (-1)%Z).

Definition match_fixel (dirs : list Point) (threshold_dp : value_type)
    (subject_voxel : list FixelMetric) (temp_fixel_data : list value_type) (i : Z)
  : list value_type :=
  let '(largest_dp, index_of_closest_fixel) :=
    closest_subject_fixel (vec_get dirs i origin) subject_voxel in
  if Qltb threshold_dp largest_dp then
    vec_alter
      (λ _, fixel_value (vec_get subject_voxel index_of_closest_fixel
                                 {| fixel_dir := origin; fixel_size := 0; fixel_value := 0 |}))
      i temp_fixel_data
  else temp_fixel_data.

Fixpoint match_voxels (fi : FixelIndex) (threshold_dp : value_type) (v : nat)
    (subject : list (list FixelMetric)) (temp_fixel_data : list value_type)
  : list value_type :=
  match subject with
  | [] => temp_fixel_data
  | subject_voxel :: rest =>
      let index := plane0 (fixel_indexer fi) v in
      let number_fixels := plane1 (fixel_indexer fi) v in
      match_voxels fi threshold_dp (S v) rest
        (fold_left (match_fixel (directions fi) threshold_dp subject_voxel)
                   (seqZ index number_fixels) temp_fixel_data)
  end.

(** [temp_fixel_data] of one subject. *)
Definition load_subject (lib : Libm) (c : Config) (fi : FixelIndex)
    (subject : list (list FixelMetric)) : list value_type :=
  let angular_threshold_dp := fcos lib (angular_threshold c * (M_PI / 180.0)) in
  match_voxels fi angular_threshold_dp 0 subject
    (replicate (length (directions fi)) 0.0).

(** The smoothing loop: the value of [data (fixel, subject)]. *)
Definition smooth_fixel (temp_fixel_data : list value_type) (row : gmap Z fp) : fp :=
  map_fold (λ k w value, fp_add value (fp_mul (Finite (vec_get temp_fixel_data k 0)) w))
           (Finite 0.0) row.

(** One column of [data]. *)
Definition smooth_subject (weights : Weights) (temp_fixel_data : list value_type)
  : list fp :=
  smooth_fixel temp_fixel_data <$> weights.

(** [data (fixel, subject)] for a subject image. *)
Definition data (lib : Libm) (c : Config) (fi : FixelIndex)
    (weights : Weights) (subject : list (list FixelMetric)) (fixel : nat) : fp :=
  nth fixel (smooth_subject weights (load_subject lib c fi subject)) (Finite 0).

(** Examples.  Three voxels with one fixel each, along x, y and z; 100
    streamlines through the first two and one through the first and the last;
    a connectivity threshold of 0.05. *)
Definition three_fixel_index : FixelIndex :=
  build_fixel_index (λ v, (inject_Z (Z.of_nat v), 0, 0))
    [ [ unit_fixel (1, 0, 0) ]; [ unit_fixel (0, 1, 0) ]; [ unit_fixel (0, 0, 1) ] ].

Definition three_fixel_tp : TrackProcessor :=
  TrackProcessor_new qlibm (fixel_indexer three_fixel_index) (directions three_fixel_index) 30.

Definition along_z (v : nat) : VoxelDir := {| vd_voxel := v; get_dir := (0, 0, 1) |}.

Definition tracks_101 : list SetVoxelDir :=
  replicate 100 [ along_x 0; along_y 1 ] ++ [ [ along_x 0; along_z 2 ] ].

Definition tracks_101_TDI : list Z := [ 101; 100; 1 ]%Z.

Definition tracks_101_raw : Matrix :=
  [ {[ 1%Z := {| value := 100 |}; 2%Z := {| value := 1 |} ]}; ∅; ∅ ].


Definition tracks_wrapped_TDI : list Z := [ 0; 0 ]%Z.

Definition tracks_wrapped_raw : Matrix := [ {[ 1%Z := {| value := 65536 |} ]}; ∅ ].

Definition threshold_005 : Options :=
  {| opt_notest := false; opt_nperms := None; opt_cfe_dh := None;
     opt_cfe_e := None; opt_cfe_h := None; opt_cfe_c := None;
     opt_angle := None; opt_connectivity := Some 0.05; opt_smooth := None;
     opt_nonstationary := false; opt_nperms_nonstationary := None |}.

Definition no_smoothing : Options :=
  {| opt_notest := false; opt_nperms := None; opt_cfe_dh := None;
     opt_cfe_e := None; opt_cfe_h := None; opt_cfe_c := None;
     opt_angle := None; opt_connectivity := None; opt_smooth := Some 0;
     opt_nonstationary := false; opt_nperms_nonstationary := None |}.


(* ================================================================== *)
(** * Fixel table, read back *)

(** The scanner positions of the fixels of a mask in scan order, from voxel
    [v] on: the position of a voxel once for each of its fixels. *)
Fixpoint scan_positions (voxel2scanner : nat → Point) (v : nat)
    (mask : list (list FixelMetric)) : list Point :=
  match mask with
  | [] => []
  | fixels :: rest =>
      replicate (length fixels) (voxel2scanner v) ++ scan_positions voxel2scanner (S v) rest
  end.

(** The track processor of [run] (line 338), on the index built from a mask. *)
Definition mask_processor (lib : Libm) (voxel2scanner : nat → Point)
    (mask : list (list FixelMetric)) (angular_threshold : value_type) : TrackProcessor :=
  let fi := build_fixel_index voxel2scanner mask in
  TrackProcessor_new lib (fixel_indexer fi) (directions fi) angular_threshold.

(** The mask of [one_fixel_index]. *)
Definition one_fixel_mask : list (list FixelMetric) := [ [ unit_fixel (1, 0, 0) ] ].

(** The pairs [(L[i], L[j])], [i < j], in the order the second loop of
    [operator()] visits them. *)
Fixpoint pairs_of (L : list Z) : list (Z * Z) :=
  match L with
  | [] => []
  | a :: rest => (pair a <$> rest) ++ pairs_of rest
  end.

(** Over a tractogram, the number of pairs of positions [i < j] of one
    streamline whose accepted fixels are [a] at [i] and [b] at [j]. *)
Definition total_pairs (lib : Libm) (tp : TrackProcessor) (tracks : list SetVoxelDir)
    (a b : Z) : nat :=
  sum_list_with (λ inp, pair_count (accepted lib tp inp) a b) tracks.

(** [|dir . fixel_directions[j]|], the quantity the scan of a voxel maximises. *)
Definition fixel_dp (dirs : list Point) (dir : Point) (j : Z) : value_type :=
  Qabs (dot dir (vec_get dirs j origin)).

(* ================================================================== *)
(** * Subject values, read back *)



(** [|direction . dir|] of a subject fixel. *)
Definition subject_dp (direction : Point) (fx : FixelMetric) : value_type :=
  Qabs (dot direction (fixel_dir fx)).

(* ================================================================== *)
(** * Output writer (lines 183-201) *)

(** The inner loop of [write_fixel_output]: the fixels of one voxel are
    copied from the mask and take their value from [data[index]],
    [index] being incremented with [f]. *)
Fixpoint write_fixels (data : list value_type) (index : Z) (fixels : list FixelMetric)
  : list FixelMetric :=
  match fixels with
  | [] => []
  | fx :: rest =>
      {| fixel_dir := fixel_dir fx; fixel_size := fixel_size fx;
         fixel_value := vec_get data index 0 |}
      :: write_fixels data (to_int32 (index + 1)) rest
  end.

(** The sparse image written for [data]: for every voxel of the mask,
    [index] starts at plane 0 of the index image. *)
Definition write_fixel_output (data : list value_type) (mask : list (list FixelMetric))
    (indexer : IndexImage) : list (list FixelMetric) :=
  imap (λ v fixels, write_fixels data (plane0 indexer v) fixels) mask.

(** The direction and size of a fixel. *)
Definition geometry (fx : FixelMetric) : Point * value_type := (fixel_dir fx, fixel_size fx).

(* ================================================================== *)
(** * The checks of [run] (lines 256-283, 328-332 and 417) *)

(** An exception thrown by [run] itself, with its message, or by
    [Image::check_dimensions], whose message is not among the sources. *)
Inductive Exception : Type :=
  | Exception_of (message : string)
  | Dimension_mismatch.

(** What [run] reads before it computes: the lines of the input file, each
    already joined to the folder, with whether the file exists; the shapes of
    the design and contrast matrices; the [count] property of the track file
    ([None] when it is empty); for each subject whether its image has the
    dimensions of the mask ([Image::check_dimensions]). *)
Record RunInput : Type := {
  input_lines : list (string * bool);
  design_rows : nat;
  design_columns : nat;
  contrast_file_columns : nat;
  track_count : option Z;
  subject_dimensions_match : list bool
}.

(** The loop over the lines of the input file. *)
Fixpoint read_filenames (lines : list (string * bool)) (filenames : list string)
  : Exception + list string :=
  match lines with
  | [] => inr filenames
  | (filename, file_exists) :: rest =>
      if file_exists then read_filenames rest (filenames ++ [ filename ])
      else inl (Exception_of ("input fixel image not found: " +:+ filename))
  end.

(** [properties["count"].empty() ? 0 : to<int> (properties["count"])], as a
    [size_t]. *)
Definition num_tracks (i : RunInput) : Z :=
  match track_count i with
  | None => 0%Z
  | Some n => (to_int32 n mod 18446744073709551616)%Z
  end.

(** The result of a run: the exception thrown, or the warnings issued and
    the files written.  All the checks come before the first file is
    written.  After [contrast.resize (contrast.rows(), design.columns())] the
    contrast matrix has the columns of the design matrix. *)
Definition run_checked (o : Options) (output_prefix : string) (i : RunInput)
  : Exception + (list string * list string) :=
  match read_filenames (input_lines i) [] with
  | inl e => inl e
  | inr filenames =>
      if negb (design_rows i =? length filenames)%nat then
        inl (Exception_of "number of subjects does not match number of rows in design matrix")
      else if (design_columns i <? contrast_file_columns i)%nat then
        inl (Exception_of "too many contrasts for design matrix")
      else if (num_tracks i =? 0)%Z then
        inl (Exception_of "no tracks found in input file")
      else if negb (forallb id (take (length filenames) (subject_dimensions_match i))) then
        inl Dimension_mismatch
      else
        inr ((if (num_tracks i <? 1000000)%Z
              then [ "more than 1 million tracks should be used to ensure robust fixel-fixel connectivity"%string ]
              else []),
             run_outputs o output_prefix (design_columns i))
  end.

(** The warning of line 332. *)
Definition few_tracks_warning : string :=
  "more than 1 million tracks should be used to ensure robust fixel-fixel connectivity".

(** A run whose inputs pass every check but for the third subject image,
    which is missing, and a design matrix of the wrong height. *)
Definition faulty_input : RunInput :=
  {| input_lines := [ ("a.msf", true); ("b.msf", true); ("c.msf", false); ("d.msf", false) ]%string;
     design_rows := 7; design_columns := 2; contrast_file_columns := 1;
     track_count := Some 2000000%Z; subject_dimensions_match := [ true; true; true; true ] |}.

(* ================================================================== *)
(** * Image statistics ([lib/stats.h])

    A sample is a [complex_type], a pair of floats [fp]. *)

#[local] Instance Qle_decision : RelDecision Qle :=
  λ x y, decide (Qnum x * QDen y ≤ Qnum y * QDen x)%Z.

(** One cell of a printed line. *)
Inductive Cell : Type :=
  | Cell_label (indices : list Z)
  | Cell_complex (c : Q * Q)
  | Cell_real (x : Q)
  | Cell_extreme (c : fp * fp)
  | Cell_count (n : Z)
  | Cell_NA.

Module Stats.

(** The members of the class.  [dump] and [hist] are [None] when no stream
    or histogram is attached, and otherwise hold what was sent to them. *)
Record t : Type := {
  mean : Q * Q;
  std : Q * Q;
  min : fp * fp;
  max : fp * fp;
  count : Z;
  hist : option (list Q);
  dump : option (list (Q * Q));
  is_complex : bool;
  ignore_zero : bool;
  values : list Q
}.

(** The constructor. *)
Definition new (is_complex ignorezero : bool) : t :=
  {| mean := (0.0, 0.0); std := (0.0, 0.0);
     min := (PlusInfinity, PlusInfinity); max := (MinusInfinity, MinusInfinity);
     count := 0; hist := None; dump := None;
     is_complex := is_complex; ignore_zero := ignorezero; values := [] |}.

Definition generate_histogram (s : t) : t :=
  {| mean := mean s; std := std s; min := min s; max := max s; count := count s;
     hist := Some []; dump := dump s; is_complex := is_complex s;
     ignore_zero := ignore_zero s; values := values s |}.

Definition dump_to (s : t) : t :=
  {| mean := mean s; std := std s; min := min s; max := max s; count := count s;
     hist := hist s; dump := Some []; is_complex := is_complex s;
     ignore_zero := ignore_zero s; values := values s |}.

(** The body of [operator()] for a finite sample [(re, im)]. *)
Definition accumulate (s : t) (re im : Q) : t :=
  let min1 := if fp_lt (Finite re) (min s).1 then (Finite re, (min s).2) else min s in
  let min2 := if fp_lt (Finite im) min1.2 then (min1.1, Finite im) else min1 in
  let max1 := if fp_lt (max s).1 (Finite re) then (Finite re, (max s).2) else max s in
  let max2 := if fp_lt max1.2 (Finite im) then (max1.1, Finite im) else max1 in
  {| mean := ((mean s).1 + re, (mean s).2 + im);
     std := ((std s).1 + re * re, (std s).2 + im * im);
     min := min2; max := max2;
     count := ((count s + 1) mod 18446744073709551616)%Z;
     hist := (λ h, h ++ [ re ]) <$> hist s;
     dump := (λ d, d ++ [ (re, im) ]) <$> dump s;
     is_complex := is_complex s; ignore_zero := ignore_zero s;
     values := if is_complex s then values s else values s ++ [ re ] |}.

(** The sample as [operator()] takes it: [Some (re, im)] when both parts are
    finite and the sample is not a zero to ignore. *)
Definition taken (ignorezero : bool) (val : fp * fp) : option (Q * Q) :=
  match val with
  | (Finite re, Finite im) =>
      if ignorezero && Qeq_bool re 0 && Qeq_bool im 0 then None else Some (re, im)
  | _ => None
  end.

(** [operator() (complex_type val)]. *)
Definition add (s : t) (val : fp * fp) : t :=
  match val with
  | (Finite re, Finite im) =>
      if negb (ignore_zero s && fp_is_zero (Finite re) && fp_is_zero (Finite im))
      then accumulate s re im
      else s
  | _ => s
  end.

(** The first lines of [print]: the sums become the mean and the standard
    deviation, and the values are sorted. *)
Definition finish (lib : Libm) (s : t) : t :=
  let mean' :=
    if (count s =? 0)%Z then mean s
    else ((mean s).1 / inject_Z (count s), (mean s).2 / inject_Z (count s)) in
  let std' :=
    if (count s =? 0)%Z then std s
    else (fsqrt lib ((std s).1 / inject_Z (count s) - mean'.1 * mean'.1),
          fsqrt lib ((std s).2 / inject_Z (count s) - mean'.2 * mean'.2)) in
  {| mean := mean'; std := std'; min := min s; max := max s; count := count s;
     hist := hist s; dump := dump s; is_complex := is_complex s;
     ignore_zero := ignore_zero s; values := merge_sort Qle (values s) |}.

(** The cell printed for one requested field, [None] for a name that is
    not one of the six. *)
Definition field_cell (median : list Q → Q) (s : t) (field : string) : option Cell :=
  if String.eqb field "mean" then Some (Cell_complex (mean s))
  else if String.eqb field "median" then Some (Cell_real (median (values s)))
  else if String.eqb field "std" then Some (Cell_complex (std s))
  else if String.eqb field "min" then Some (Cell_extreme (min s))
  else if String.eqb field "max" then Some (Cell_extreme (max s))
  else if String.eqb field "count" then Some (Cell_count (count s))
  else None.

(** The line of [print] without fields: label, mean, median (real data
    only), standard deviation, minimum, maximum, count. *)
Definition default_line (median : list Q → Q) (indices : list Z) (s : t) : list Cell :=
  [ Cell_label (if (3 <? length indices)%nat then drop 3 indices else [ 0%Z ]);
    (if (count s =? 0)%Z then Cell_NA else Cell_complex (mean s)) ]
  ++ (if is_complex s then []
      else [ if (count s =? 0)%Z then Cell_NA else Cell_real (median (values s)) ])
  ++ [ (if (1 <? count s)%Z then Cell_complex (std s) else Cell_NA);
       (if (count s =? 0)%Z then Cell_NA else Cell_extreme (min s));
       (if (count s =? 0)%Z then Cell_NA else Cell_extreme (max s));
       Cell_count (count s) ].

(** [print (ima, fields)]: the state it leaves and the line it writes,
    [None] when it writes nothing.  [indices] are the current indices of the
    image along all its axes; [median] is [Math::median], outside the
    sources. *)
Definition print (lib : Libm) (median : list Q → Q) (indices : list Z)
    (fields : list string) (s : t) : t * option (list Cell) :=
  let s' := finish lib s in
  match fields with
  | _ :: _ =>
      if (count s' =? 0)%Z then (s', None)
      else (s', Some (omap (field_cell median s') fields))
  | [] => (s', Some (default_line median indices s'))
  end.

(** The columns of [print_header]. *)
Definition print_header (is_complex : bool) : list string :=
  [ "volume"; "mean" ]%string
  ++ (if is_complex then [] else [ "median"%string ])
  ++ [ "std. dev."; "min"; "max"; "count" ]%string.

End Stats.

(** The samples a [Stats] takes out of a sequence. *)
Definition taken_samples (ignorezero : bool) (samples : list (fp * fp)) : list (Q * Q) :=
  omap (Stats.taken ignorezero) samples.

(** Sums of rationals. *)
Definition Qsum (l : list Q) : Q := foldr Qplus 0 l.

(** The updates of one part of [min] and of [max] by a finite value. *)
Definition lower (a : fp) (x : Q) : fp := if fp_lt (Finite x) a then Finite x else a.
Definition raise (a : fp) (x : Q) : fp := if fp_lt a (Finite x) then Finite x else a.

(** The six field names of [print]. *)
Definition field_names : list string :=
  [ "mean"; "median"; "std"; "min"; "max"; "count" ]%string.

(* ================================================================== *)
(* ================================================================== *)
(** * Properties *)

Lemma Qltb_lt x y : Qltb x y = true ↔ x < y.
Proof. unfold Qltb, Qlt. apply Z.ltb_lt. Qed.

Lemma Qltb_ge x y : Qltb x y = false ↔ y <= x.
Proof. unfold Qltb, Qle. rewrite Z.ltb_ge. reflexivity. Qed.

Lemma fp_add_comm (a b : fp) : fp_eq (fp_add a b) (fp_add b a).
Proof. destruct a, b; cbn; try done. ring. Qed.

Lemma fp_add_assoc (a b c : fp) : fp_eq (fp_add (fp_add a b) c) (fp_add a (fp_add b c)).
Proof. destruct a, b, c; cbn; try done. ring. Qed.

(* ------------------------------------------------------------------ *)
(** ** Options and output files *)

Section Outputs.
Variable output_prefix : string.
Variable contrast_columns : nat.

Lemma run_outputs_suffixes o :
  run_outputs o output_prefix contrast_columns
  = (λ s, output_prefix +:+ s) <$> suffixes_of contrast_columns o.
Proof.
  unfold run_outputs, suffixes_of, population_outputs, beta_outputs,
    empirical_outputs, test_outputs.
  rewrite !fmap_app, <- list_fmap_compose, <- !app_assoc.
  f_equal. f_equal.
  destruct (do_nonstationary_adjustment _), (opt_notest o); reflexivity.
Qed.

Lemma suffix_written o s :
  (output_prefix +:+ s) ∈ run_outputs o output_prefix contrast_columns
  ↔ s ∈ suffixes_of contrast_columns o.
Proof.
  rewrite run_outputs_suffixes. split.
  - intros [s' [Heq Hin]]%list_elem_of_fmap.
    apply (inj (String.app output_prefix)) in Heq. by subst.
  - intros Hin. by apply list_elem_of_fmap_2.
Qed.

Lemma suffix_cases o s :
  s ∈ suffixes_of contrast_columns o →
  String.prefix "_b" s = true
  ∨ s ∈ [ "_abs_effect.msf"; "_std_effect.msf"; "_std_dev.msf"; "_cfe_empirical.msf";
          "_perm_dist_pos.txt"; "_cfe_pos.msf"; "_tvalue.msf"; "_pvalue_pos.msf" ]%string.
Proof.
  unfold suffixes_of. rewrite !elem_of_app.
  intros [Hb | [Hp | [He | Ht]]].
  - apply list_elem_of_fmap in Hb as [i [-> _]]. left. reflexivity.
  - right. rewrite !elem_of_cons in Hp. rewrite !elem_of_cons. tauto.
  - right. destruct (do_nonstationary_adjustment _);
      rewrite ?elem_of_cons, ?elem_of_nil in He; rewrite !elem_of_cons; tauto.
  - right. destruct (opt_notest o);
      rewrite ?elem_of_cons, ?elem_of_nil in Ht; rewrite !elem_of_cons; tauto.
Qed.

Lemma negative_tail_suffix_absent o s :
  s ∈ [ "_cfe_neg.msf"; "_pvalue_neg.msf"; "_perm_dist_neg.txt" ]%string →
  (output_prefix +:+ s) ∉ run_outputs o output_prefix contrast_columns.
Proof.
  intros Hs Hin. apply suffix_written, suffix_cases in Hin.
  repeat (apply elem_of_cons in Hs as [-> | Hs]);
    try (by apply elem_of_nil in Hs);
    (destruct Hin as [Hb | Hin]; [ discriminate Hb | ]);
    repeat (apply elem_of_cons in Hin as [Heq | Hin]; [ discriminate Heq | ]);
    by apply elem_of_nil in Hin.
Qed.

(** Without [nperms_nonstationary], a [notest] run writes the population
    maps only. *)
Lemma notest_population_only o :
  opt_notest o = true → opt_nperms_nonstationary o = None →
  run_outputs o output_prefix contrast_columns
  = population_outputs output_prefix contrast_columns.
Proof.
  intros Hn Hp. unfold run_outputs, empirical_outputs, test_outputs.
  rewrite Hn. unfold read_options. rewrite Hp. simpl.
  by rewrite app_nil_r.
Qed.
End Outputs.

(** C1 (the code departs from the claim): whatever the options, the prefix
    and the number of contrast columns, none of the three negative-tail
    files [_cfe_neg.msf], [_pvalue_neg.msf], [_perm_dist_neg.txt] is among the
    files the run writes; with no option given, the four positive-tail and
    t-value files are the only test outputs. *)
Theorem negative_tail_never_written (o : Options) (output_prefix : string) (n : nat) :
  ((output_prefix +:+ "_cfe_neg.msf") ∉ run_outputs o output_prefix n)
  ∧ ((output_prefix +:+ "_pvalue_neg.msf") ∉ run_outputs o output_prefix n)
  ∧ ((output_prefix +:+ "_perm_dist_neg.txt") ∉ run_outputs o output_prefix n)
  ∧ filter (λ f, f ∈ run_outputs no_options "out" 1) (seven_test_files "out")
    = [ "out_cfe_pos.msf"; "out_tvalue.msf"; "out_pvalue_pos.msf";
        "out_perm_dist_pos.txt" ]%string.
Proof.
  split; [ | split; [ | split ] ];
    try (apply negative_tail_suffix_absent; rewrite !elem_of_cons; tauto).
  vm_compute. reflexivity.
Qed.

(** C3 (the code departs from the claim): the pre-pass is run exactly when
    the option [nperms_nonstationary] is given, whatever the flag
    [nonstationary], and then always with 5000 permutations; so the flag
    alone runs no pre-pass, and [nperms_nonstationary 100] runs 5000
    permutations.  The test itself runs [nperms] permutations (5000 by
    default). *)
Theorem prepass_ignores_flag_and_count (o : Options) :
  empirical_prepass (read_options o)
  = (if opt_nperms_nonstationary o is Some _ then Some 5000%Z else None)
  ∧ test_permutations o (read_options o)
    = (if opt_notest o then None else Some (default 5000%Z (opt_nperms o)))
  ∧ empirical_prepass (read_options only_nonstationary) = None
  ∧ empirical_prepass (read_options (only_nperms_nonstationary 100)) = Some 5000%Z.
Proof.
  split; [ | split; [ | split; reflexivity ] ].
  - unfold empirical_prepass, read_options; simpl.
    destruct (opt_nperms_nonstationary o); reflexivity.
  - unfold test_permutations, read_options; simpl.
    destruct (opt_notest o), (opt_nperms o); reflexivity.
Qed.

Lemma default_exponents (o : Options) :
  opt_cfe_e o = None → opt_cfe_h o = None →
  enh_E (cfe_integrator (read_options o)) = 1.0
  ∧ enh_H (cfe_integrator (read_options o)) = 2.0.
Proof. intros He Hh. unfold cfe_integrator, read_options; simpl. by rewrite He, Hh. Qed.

(** C4 (the code departs from the claim): with neither [cfe_e] nor [cfe_h]
    given, the variable [cfe_e] is 1 and the variable [cfe_h] is 2, and the
    enhancement receives the extent exponent 1 and the height exponent 2,
    while [usage ()] announces 2 and 1. *)
Theorem default_exponents_swapped :
  cfe_e (read_options no_options) == 1
  ∧ cfe_h (read_options no_options) == 2
  ∧ enh_E (cfe_integrator (read_options no_options)) == 1
  ∧ enh_H (cfe_integrator (read_options no_options)) == 2
  ∧ usage_default_cfe_e == 2
  ∧ usage_default_cfe_h == 1.
Proof.
  destruct (default_exponents no_options eq_refl eq_refl) as [-> ->].
  repeat split.
Qed.

(** C8 (the code departs from the claim): run with [notest] and
    [nperms_nonstationary], the command writes [_cfe_empirical.msf], a file
    matching [_cfe_*], after the four kinds of population maps. *)
Theorem notest_still_writes_empirical (output_prefix : string) (n : nat) :
  run_outputs notest_with_prepass output_prefix n
  = population_outputs output_prefix n ++ [ output_prefix +:+ "_cfe_empirical.msf" ]
  ∧ has_infix "_cfe_" "_cfe_empirical.msf" = true.
Proof.
  split; [ | reflexivity ].
  unfold run_outputs, empirical_outputs, test_outputs. simpl.
  reflexivity.
Qed.

(* ------------------------------------------------------------------ *)
(** ** Fixel index *)

Lemma to_int32_small z : (-2147483648 ≤ z < 2147483648)%Z → to_int32 z = z.
Proof. intros Hz. unfold to_int32. rewrite Z.mod_small; lia. Qed.

Section FixelIndex.
Variable voxel2scanner : nat → Point.

Lemma index_inner_loop v fixels dirs poss (c : Z) :
  (0 ≤ c)%Z → (c + Z.of_nat (length fixels) < 2147483648)%Z →
  fold_left (λ '(dirs, poss, fixel_count) f,
               (dirs ++ [fixel_dir f], poss ++ [voxel2scanner v],
                to_int32 (fixel_count + 1)))
            fixels (dirs, poss, c)
  = (dirs ++ (fixel_dir <$> fixels),
     poss ++ replicate (length fixels) (voxel2scanner v),
     (c + Z.of_nat (length fixels))%Z).
Proof.
  revert dirs poss c. induction fixels as [ | f fixels IH ]; intros dirs poss c Hc Hlt.
  - simpl. rewrite !app_nil_r. f_equal. lia.
  - cbn [fold_left]. cbn [length] in Hlt.
    rewrite to_int32_small by lia. rewrite IH by lia.
    cbn [fmap list_fmap replicate length]. rewrite <- !app_assoc. simpl.
    f_equal. lia.
Qed.

Lemma index_voxel_spec st v fixels :
  (Z.of_nat (length (directions st)) + Z.of_nat (length fixels) < 2147483648)%Z →
  index_voxel voxel2scanner st v fixels
  = {| fixel_indexer :=
         set_plane1 v (Z.of_nat (length fixels))
           (set_plane0 v (Z.of_nat (length (directions st))) (fixel_indexer st));
       directions := directions st ++ (fixel_dir <$> fixels);
       positions := positions st ++ replicate (length fixels) (voxel2scanner v) |}.
Proof.
  intros Hlt. unfold index_voxel.
  rewrite index_inner_loop by lia. rewrite to_int32_small by lia.
  reflexivity.
Qed.

Lemma set_planes_lookup v a b idx c :
  idx !! v = Some c → set_plane1 v b (set_plane0 v a idx) !! v = Some (a, b).
Proof.
  intros Hv. unfold set_plane1, set_plane0.
  rewrite !list_lookup_alter_eq, Hv. reflexivity.
Qed.

Lemma set_planes_lookup_ne v w a b idx :
  v ≠ w → set_plane1 v b (set_plane0 v a idx) !! w = idx !! w.
Proof.
  intros Hv. unfold set_plane1, set_plane0.
  rewrite !list_lookup_alter_ne by done. reflexivity.
Qed.

Lemma index_loop_spec mask : ∀ v0 st,
  (Z.of_nat (length (directions st)) + Z.of_nat (length (concat mask)) < 2147483648)%Z →
  (v0 + length mask ≤ length (fixel_indexer st))%nat →
  let fi := index_loop voxel2scanner v0 mask st in
  directions fi = directions st ++ (fixel_dir <$> concat mask)
  ∧ (∀ v, (v < v0)%nat → fixel_indexer fi !! v = fixel_indexer st !! v)
  ∧ (∀ k fixels, mask !! k = Some fixels →
       fixel_indexer fi !! (v0 + k)%nat
       = Some (Z.of_nat (length (directions st) + fixels_before mask k),
               Z.of_nat (length fixels))).
Proof.
  induction mask as [ | fixels mask IH ]; intros v0 st Hlt Hlen; cbn zeta.
  - simpl. rewrite app_nil_r.
    split; [ reflexivity | split; [ reflexivity | intros k fx Hk; by destruct k ] ].
  - cbn [index_loop]. cbn [concat length] in Hlt, Hlen.
    rewrite length_app in Hlt.
    rewrite index_voxel_spec by lia.
    set (st' := {| fixel_indexer := _ |}).
    destruct (IH (S v0) st') as (Hd & Hbelow & Hin).
    { subst st'. cbn [directions]. rewrite length_app, length_fmap. lia. }
    { subst st'. cbn [fixel_indexer]. unfold set_plane1, set_plane0.
      rewrite !length_alter. lia. }
    split; [ | split ].
    + rewrite Hd. subst st'. cbn [directions concat].
      rewrite fmap_app, <- app_assoc. reflexivity.
    + intros v Hv. rewrite Hbelow by lia. subst st'. cbn [fixel_indexer].
      apply set_planes_lookup_ne. lia.
    + intros [ | k ] fx Hk.
      * injection Hk as ->. rewrite Nat.add_0_r, Hbelow by lia.
        subst st'. cbn [fixel_indexer]. unfold fixels_before. simpl.
        rewrite Nat.add_0_r.
        destruct (lookup_lt_is_Some_2 (fixel_indexer st) v0) as [c Hc]; [ lia | ].
        by apply set_planes_lookup with c.
      * cbn [lookup list_lookup] in Hk.
        replace (v0 + S k)%nat with (S v0 + k)%nat by lia.
        rewrite (Hin k fx Hk). subst st'. cbn [directions].
        unfold fixels_before. cbn [take concat].
        rewrite !length_app, length_fmap. do 2 f_equal. lia.
Qed.

(** What the index holds for every voxel of the grid: plane 0 is the
    number of fixels of the voxels before it, plane 1 its own number of
    fixels, whether or not it holds any. *)
Lemma build_fixel_index_spec mask v fixels :
  (Z.of_nat (length (concat mask)) < 2147483648)%Z →
  mask !! v = Some fixels →
  let fi := build_fixel_index voxel2scanner mask in
  plane0 (fixel_indexer fi) v = Z.of_nat (fixels_before mask v)
  ∧ plane1 (fixel_indexer fi) v = Z.of_nat (length fixels)
  ∧ num_fixels fi = Z.of_nat (length (concat mask)).
Proof.
  intros Hlt Hv. cbn zeta. unfold build_fixel_index.
  set (st := {| fixel_indexer := _ |}).
  destruct (index_loop_spec mask 0 st) as (Hd & _ & Hin).
  { subst st. simpl. lia. }
  { subst st. cbn [fixel_indexer]. rewrite length_replicate. lia. }
  specialize (Hin v fixels Hv). simpl in Hin.
  unfold plane0, plane1, num_fixels.
  rewrite (list_lookup_total_correct _ _ _ Hin), Hd. subst st. simpl.
  rewrite length_fmap. unfold to_uint32. rewrite Z.mod_small by lia.
  repeat split.
Qed.

(** A populated voxel: the first fixel is a fixel index, the count is the
    number of fixels of the voxel. *)
Lemma populated_voxel_index mask v fixels :
  (Z.of_nat (length (concat mask)) < 2147483648)%Z →
  mask !! v = Some fixels → fixels ≠ [] →
  let fi := build_fixel_index voxel2scanner mask in
  (0 ≤ plane0 (fixel_indexer fi) v < num_fixels fi)%Z
  ∧ plane1 (fixel_indexer fi) v = Z.of_nat (length fixels).
Proof.
  intros Hlt Hv Hne. cbn zeta.
  destruct (build_fixel_index_spec mask v fixels Hlt Hv) as (-> & -> & ->).
  split; [ | reflexivity ].
  assert (length (concat mask)
          = (fixels_before mask v + length fixels
             + length (concat (drop (S v) mask)))%nat) as Hsplit.
  { unfold fixels_before.
    rewrite <- (take_drop v mask) at 1.
    rewrite (drop_S _ _ _ Hv), concat_app, length_app. cbn [concat].
    rewrite length_app. lia. }
  destruct fixels; [ done | ]. simpl in Hsplit. lia.
Qed.
End FixelIndex.

(** C7 (the code departs from the claim): in a grid of three voxels of which
    only the middle one holds a fixel, the two empty voxels end with plane 0
    equal to 0 and to 1, the number of fixels met so far, and not to the
    sentinel -1 that the initialisation stored; the second of them is even
    equal to [num_fixels].  The populated voxel is indexed as claimed. *)
Theorem empty_voxel_loses_sentinel (voxel2scanner : nat → Point) :
  let fi := build_fixel_index voxel2scanner mask_with_empty_voxels in
  fixel_indexer fi = [ (0, 0); (0, 1); (1, 0) ]%Z
  ∧ num_fixels fi = 1%Z
  ∧ plane0 (fixel_indexer fi) 0 ≠ (-1)%Z
  ∧ plane0 (fixel_indexer fi) 2 = num_fixels fi.
Proof.
  cbn zeta. split; [ reflexivity | ].
  split; [ reflexivity | ].
  split; [ | reflexivity ].
  intros H. discriminate H.
Qed.

(* ------------------------------------------------------------------ *)
(** ** Track processor: the track density *)

Lemma vec_alter_length {A} (f : A → A) i (v : list A) : length (vec_alter f i v) = length v.
Proof. unfold vec_alter. destruct (0 <=? i)%Z; [ apply length_alter | reflexivity ]. Qed.

Lemma vec_alter_lookup_eq {A} (f : A → A) (j : nat) (v : list A) :
  vec_alter f (Z.of_nat j) v !! j = f <$> v !! j.
Proof.
  unfold vec_alter. destruct (Z.leb_spec 0 (Z.of_nat j)); [ | lia ].
  rewrite Nat2Z.id. apply list_lookup_alter_eq.
Qed.

Lemma vec_alter_lookup_ne {A} (f : A → A) (i : Z) (j : nat) (v : list A) :
  i ≠ Z.of_nat j → vec_alter f i v !! j = v !! j.
Proof.
  intros Hne. unfold vec_alter. destruct (Z.leb_spec 0 i); [ | reflexivity ].
  apply list_lookup_alter_ne. lia.
Qed.

Section TrackDensity.
Variable lib : Libm.
Variable tp : TrackProcessor.

Lemma assign_tangents_fold inp : ∀ L fixel_TDI,
  fold_left (assign_tangent lib tp) inp (L, fixel_TDI)
  = (L ++ omap (tangent_fixel lib tp) inp,
     fold_left (λ t j, TDI_increment j t) (omap (tangent_fixel lib tp) inp) fixel_TDI).
Proof.
  induction inp as [ | i inp IH ]; intros L fixel_TDI.
  - simpl. by rewrite app_nil_r.
  - cbn [fold_left omap list_omap]. unfold assign_tangent at 2.
    destruct (tangent_fixel lib tp i) as [ j | ].
    + cbn [fst snd]. rewrite IH, <- app_assoc. reflexivity.
    + apply IH.
Qed.

Lemma accepted_omap inp : accepted lib tp inp = omap (tangent_fixel lib tp) inp.
Proof. unfold accepted, assign_tangents. by rewrite assign_tangents_fold. Qed.

Lemma assign_tangents_spec inp fixel_TDI :
  assign_tangents lib tp inp fixel_TDI
  = (accepted lib tp inp,
     fold_left (λ t j, TDI_increment j t) (accepted lib tp inp) fixel_TDI).
Proof. unfold assign_tangents. by rewrite assign_tangents_fold, accepted_omap. Qed.

Lemma process_track_spec st inp :
  process_track lib tp st inp
  = (fold_left (λ t j, TDI_increment j t) (accepted lib tp inp) st.1,
     accumulate (accepted lib tp inp) st.2).
Proof. unfold process_track. by rewrite assign_tangents_spec. Qed.

Lemma process_tracks_fold tracks : ∀ st,
  fold_left (process_track lib tp) tracks st
  = (fold_left (λ t j, TDI_increment j t) (all_accepted lib tp tracks) st.1,
     fold_left (λ M inp, accumulate (accepted lib tp inp) M) tracks st.2).
Proof.
  induction tracks as [ | inp tracks IH ]; intros st.
  - by destruct st.
  - cbn [fold_left]. rewrite IH, process_track_spec. cbn [fst snd].
    unfold all_accepted. cbn [fmap list_fmap concat].
    by rewrite fold_left_app.
Qed.

Lemma all_accepted_replicate n inp :
  all_accepted lib tp (replicate n inp) = concat (replicate n (accepted lib tp inp)).
Proof. unfold all_accepted. by rewrite fmap_replicate. Qed.
End TrackDensity.

Lemma to_uint16_add_l x y : to_uint16 (to_uint16 x + y) = to_uint16 (x + y).
Proof. unfold to_uint16. apply Zplus_mod_idemp_l. Qed.

Lemma matches_cons_eq (j : nat) L : matches j (Z.of_nat j :: L) = (1 + matches j L)%Z.
Proof. unfold matches. rewrite filter_cons_True by done. cbn [length]. lia. Qed.

Lemma matches_cons_ne (j : nat) k L : k ≠ Z.of_nat j → matches j (k :: L) = matches j L.
Proof. intros Hne. unfold matches. by rewrite filter_cons_False. Qed.

(** The counter of fixel [j] after the increments of a list of accepted
    fixels. *)
Lemma TDI_fold (j : nat) L : ∀ fixel_TDI x,
  fixel_TDI !! j = Some x →
  fold_left (λ t k, TDI_increment k t) L fixel_TDI !! j
  = Some (if decide (matches j L = 0%Z) then x else to_uint16 (x + matches j L)).
Proof.
  induction L as [ | k L IH ]; intros fixel_TDI x Hx.
  - simpl. exact Hx.
  - cbn [fold_left]. destruct (decide (k = Z.of_nat j)) as [ -> | Hne ].
    + rewrite (IH _ (to_uint16 (x + 1))).
      2:{ unfold TDI_increment. by rewrite vec_alter_lookup_eq, Hx. }
      rewrite matches_cons_eq. f_equal.
      assert (0 ≤ matches j L)%Z by (unfold matches; lia).
      destruct (decide (matches j L = 0%Z)) as [ H0 | H0 ];
        destruct (decide ((1 + matches j L)%Z = 0%Z)); try lia.
      * rewrite H0. reflexivity.
      * rewrite to_uint16_add_l.
        by replace (x + 1 + matches j L)%Z with (x + (1 + matches j L))%Z by lia.
    + rewrite (IH _ x).
      2:{ unfold TDI_increment. by rewrite vec_alter_lookup_ne. }
      by rewrite matches_cons_ne.
Qed.

(** C6, as the code has it: the counters are [uint16_t].  After the
    streamlines are processed one after the other, the counter of every fixel
    [j] is the number of accepted matches of [j] modulo 2^16; it is that
    number itself whenever the number is below 2^16. *)
Theorem TDI_counts_modulo_65536 (lib : Libm) (tp : TrackProcessor) (n : nat)
    (tracks : list SetVoxelDir) (j : nat) :
  (j < n)%nat →
  let fixel_TDI := (process_tracks lib tp n tracks).1 in
  let total := matches j (all_accepted lib tp tracks) in
  fixel_TDI !! j = Some (total mod 65536)%Z
  ∧ ((total < 65536)%Z → fixel_TDI !! j = Some total).
Proof.
  intros Hj. cbn zeta. unfold process_tracks.
  rewrite process_tracks_fold. cbn [fst].
  rewrite (TDI_fold j _ _ 0%Z) by (by apply lookup_replicate_2).
  set (total := matches j _).
  assert (0 ≤ total)%Z by (unfold total, matches; lia).
  assert (Some (if decide (total = 0%Z) then 0%Z else to_uint16 (0 + total))
          = Some (total mod 65536)%Z) as ->.
  { case_decide as H0; [ by rewrite H0 | reflexivity ]. }
  split; [ reflexivity | ].
  intros Hlt. by rewrite Z.mod_small by lia.
Qed.

Lemma accepted_along_x : accepted qlibm one_fixel_tp [ along_x 0 ] = [ 0%Z ].
Proof. vm_compute. reflexivity. Qed.

(** The witness of C6: one streamline through the one-fixel mask. *)
Lemma TDI_counts_modulo_65536_witness :
  (0 < 1)%nat
  ∧ (process_tracks qlibm one_fixel_tp 1 [ [ along_x 0 ] ]).1 !! 0%nat
    = Some (matches 0 (all_accepted qlibm one_fixel_tp [ [ along_x 0 ] ]) mod 65536)%Z.
Proof.
  split; [ exact (le_n 1) | ].
  exact (proj1 (TDI_counts_modulo_65536 qlibm one_fixel_tp 1 [ [ along_x 0 ] ] 0 (le_n 1))).
Defined.

(** C6, counterexample: 65536 streamlines, each matched to the only fixel of
    the mask.  The fixel has 65536 accepted matches, a total below 2^32, and
    its counter is back to 0. *)
Lemma TDI_wraps_at_65536 :
  matches 0 (all_accepted qlibm one_fixel_tp tracks_65536) = 65536%Z
  ∧ (65536 < 2 ^ 32)%Z
  ∧ (process_tracks qlibm one_fixel_tp 1 tracks_65536).1 = [ 0%Z ].
Proof.
  assert (all_accepted qlibm one_fixel_tp tracks_65536
          = concat (replicate (Z.to_nat 65536) [ 0%Z ])) as Hall.
  { unfold tracks_65536. rewrite all_accepted_replicate, accepted_along_x. reflexivity. }
  split; [ | split ].
  - rewrite Hall. vm_compute. reflexivity.
  - reflexivity.
  - unfold process_tracks. rewrite process_tracks_fold. cbn [fst].
    rewrite Hall. vm_compute. reflexivity.
Qed.

(** Two runs of the model on the two-voxel mask: a streamline along both
    fixels counts once in [M[0][1]]; a streamline at more than 30 degrees
    from the fixel of its voxel is not counted at all. *)
Example two_fixels_one_track :
  let r := process_tracks qlibm two_fixel_tp 2 [ [ along_x 0; along_y 1 ] ] in
  r.1 = [ 1; 1 ]%Z ∧ cell r.2 0 1%Z = Some {| value := 1 |} ∧ cell r.2 1 0%Z = None.
Proof. cbn zeta. repeat split; vm_compute; reflexivity. Qed.

Example angular_rejection :
  let r := process_tracks qlibm two_fixel_tp 2
             [ [ {| vd_voxel := 0; get_dir := (1, 2, 0) |} ] ] in
  r.1 = [ 0; 0 ]%Z ∧ r.2 = [ ∅; ∅ ].
Proof. cbn zeta. split; vm_compute; reflexivity. Qed.

(* ------------------------------------------------------------------ *)
(** ** Track processor: the accumulation of pairs *)

Lemma bumped_zero old : bumped 0 old old.
Proof. split; [ reflexivity | intros H; by destruct H ]. Qed.

Lemma bumped_trans n m a b c : bumped n a b → bumped m b c → bumped (n + m) a c.
Proof.
  intros [Hn0 Hn] [Hm0 Hm]. split.
  - intros H0. rewrite Hm0, Hn0 by lia. reflexivity.
  - intros Hne. destruct m as [ | m ].
    + rewrite Hm0 by reflexivity. rewrite Nat.add_0_r in *. by apply Hn.
    + destruct (Hm ltac:(lia)) as (v & -> & Hv). exists v. split; [ reflexivity | ].
      rewrite Hv. destruct n as [ | n ].
      * rewrite Hn0 by reflexivity. reflexivity.
      * destruct (Hn ltac:(lia)) as (w & -> & Hw). cbn [default]. rewrite Hw.
        rewrite !Nat2Z.inj_add, !inject_Z_plus. ring.
  Qed.

Lemma increment_cell_length a b (M : Matrix) : length (increment_cell a b M) = length M.
Proof. apply vec_alter_length. Qed.

Lemma cell_increment_cell_eq (M : Matrix) (r : nat) (b : Z) :
  (r < length M)%nat → bumped 1 (cell M r b) (cell (increment_cell (Z.of_nat r) b M) r b).
Proof.
  intros Hr. destruct (lookup_lt_is_Some_2 M r Hr) as [row Hrow].
  split; [ discriminate | intros _ ].
  unfold cell, increment_cell. rewrite vec_alter_lookup_eq, Hrow. cbn.
  rewrite lookup_insert_eq. eexists. split; [ reflexivity | ]. reflexivity.
Qed.

Lemma cell_increment_cell_ne (M : Matrix) (a b : Z) (r : nat) (c : Z) :
  a ≠ Z.of_nat r ∨ b ≠ c → cell (increment_cell a b M) r c = cell M r c.
Proof.
  intros Hne. unfold cell, increment_cell.
  destruct (decide (a = Z.of_nat r)) as [ -> | Ha ].
  - destruct Hne as [ ? | Hb ]; [ done | ].
    rewrite vec_alter_lookup_eq. destruct (M !! r) as [ row | ]; [ | reflexivity ].
    cbn. by rewrite lookup_insert_ne.
  - by rewrite vec_alter_lookup_ne.
Qed.

(** The inner loop for a fixed row [a]. *)
Lemma inner_loop_length a rest : ∀ M : Matrix,
  length (fold_left (λ M b, increment_cell a b M) rest M) = length M.
Proof.
  induction rest as [ | b rest IH ]; intros M; [ reflexivity | ].
  cbn [fold_left]. by rewrite IH, increment_cell_length.
Qed.

Lemma inner_loop_other_row a rest (r : nat) c : ∀ M : Matrix,
  a ≠ Z.of_nat r →
  cell (fold_left (λ M b, increment_cell a b M) rest M) r c = cell M r c.
Proof.
  induction rest as [ | b rest IH ]; intros M Ha; [ reflexivity | ].
  cbn [fold_left]. rewrite IH by done. apply cell_increment_cell_ne. by left.
Qed.

Lemma inner_loop_row (r : nat) rest c : ∀ M : Matrix,
  (r < length M)%nat →
  bumped (length (filter (λ k, k = c) rest))
         (cell M r c)
         (cell (fold_left (λ M b, increment_cell (Z.of_nat r) b M) rest M) r c).
Proof.
  induction rest as [ | b rest IH ]; intros M Hr.
  - apply bumped_zero.
  - cbn [fold_left]. destruct (decide (b = c)) as [ -> | Hb ].
    + rewrite filter_cons_True by done. cbn [length].
      apply (bumped_trans 1 _ _ (cell (increment_cell (Z.of_nat r) c M) r c)).
      * by apply cell_increment_cell_eq.
      * apply IH. by rewrite increment_cell_length.
    + rewrite filter_cons_False by done.
      rewrite <- (cell_increment_cell_ne M (Z.of_nat r) b r c) by (by right).
      apply IH. by rewrite increment_cell_length.
Qed.

Lemma accumulate_length L : ∀ M : Matrix, length (accumulate L M) = length M.
Proof.
  induction L as [ | a rest IH ]; intros M; [ reflexivity | ].
  cbn [accumulate]. by rewrite IH, inner_loop_length.
Qed.

(** The cells after a streamline: cell [(r, c)] is incremented once for
    every pair of positions [i < j] with [L[i] = r] and [L[j] = c]. *)
Lemma accumulate_spec L (r : nat) c : ∀ M : Matrix,
  (r < length M)%nat →
  bumped (pair_count L (Z.of_nat r) c) (cell M r c) (cell (accumulate L M) r c).
Proof.
  induction L as [ | a rest IH ]; intros M Hr.
  - apply bumped_zero.
  - cbn [accumulate pair_count].
    set (M' := fold_left _ rest M).
    assert (length M' = length M) as Hlen by apply inner_loop_length.
    apply (bumped_trans _ _ _ (cell M' r c)); [ | apply IH; lia ].
    destruct (decide (a = Z.of_nat r)) as [ -> | Ha ].
    + by apply inner_loop_row.
    + subst M'. rewrite inner_loop_other_row by done. apply bumped_zero.
Qed.







(* ------------------------------------------------------------------ *)
(** ** Symmetrisation *)

Lemma cell_lookup_total (M : Matrix) (f : nat) (k : Z) : (M !!! f) !! k = cell M f k.
Proof.
  unfold cell. rewrite list_lookup_total_alt.
  destruct (M !! f); reflexivity.
Qed.

Lemma set_cell_length k f v (M : Matrix) : length (set_cell k f v M) = length M.
Proof. apply vec_alter_length. Qed.

Lemma cell_set_cell_eq (M : Matrix) (r : nat) (f : Z) v :
  (r < length M)%nat → cell (set_cell (Z.of_nat r) f v M) r f = Some v.
Proof.
  intros Hr. destruct (lookup_lt_is_Some_2 M r Hr) as [row Hrow].
  unfold cell, set_cell. rewrite vec_alter_lookup_eq, Hrow. cbn.
  apply lookup_insert_eq.
Qed.

Lemma cell_set_cell_ne (M : Matrix) (k f : Z) v (r : nat) (c : Z) :
  k ≠ Z.of_nat r ∨ f ≠ c → cell (set_cell k f v M) r c = cell M r c.
Proof.
  intros Hne. unfold cell, set_cell.
  destruct (decide (k = Z.of_nat r)) as [ -> | Hk ].
  - destruct Hne as [ ? | Hf ]; [ done | ].
    rewrite vec_alter_lookup_eq. destruct (M !! r) as [ row | ]; [ | reflexivity ].
    cbn. by rewrite lookup_insert_ne.
  - by rewrite vec_alter_lookup_ne.
Qed.

(** One pass of the loop: column [fixel] receives row [fixel]. *)
Lemma symmetrise_row_spec (M : Matrix) (fixel : nat) :
  length (symmetrise_row M fixel) = length M
  ∧ ∀ (r : nat) (c : Z), (r < length M)%nat →
      cell (symmetrise_row M fixel) r c
      = if decide (c = Z.of_nat fixel)
        then match cell M fixel (Z.of_nat r) with
             | Some v => Some v
             | None => cell M r c
             end
        else cell M r c.
Proof.
  unfold symmetrise_row.
  assert (∀ row : gmap Z connectivity,
    let M' := map_fold (λ k v M', set_cell k (Z.of_nat fixel) v M') M row in
    length M' = length M
    ∧ ∀ (r : nat) (c : Z), (r < length M)%nat →
        cell M' r c
        = if decide (c = Z.of_nat fixel)
          then match row !! Z.of_nat r with
               | Some v => Some v
               | None => cell M r c
               end
          else cell M r c) as Hfold.
  { intros row. cbn zeta.
    apply (map_fold_weak_ind
             (λ (M' : list (gmap Z connectivity)) (row : gmap Z connectivity),
                length M' = length M
                ∧ ∀ (r : nat) (c : Z), (r < length M)%nat →
                    cell M' r c
                    = if decide (c = Z.of_nat fixel)
                      then match row !! Z.of_nat r with
                           | Some v => Some v
                           | None => cell M r c
                           end
                      else cell M r c)).
    - split; [ reflexivity | ]. intros r c _. rewrite lookup_empty.
      by destruct (decide _).
    - intros k v row' M' Hfresh [Hlen IH]. split.
      + by rewrite set_cell_length.
      + intros r c Hr.
        destruct (decide (k = Z.of_nat r)) as [ -> | Hk ].
        * rewrite lookup_insert_eq.
          destruct (decide (c = Z.of_nat fixel)) as [ -> | Hc ].
          -- apply cell_set_cell_eq. lia.
          -- rewrite cell_set_cell_ne by (right; congruence).
             rewrite IH by done. by rewrite decide_False.
        * rewrite lookup_insert_ne by done.
          rewrite cell_set_cell_ne by (by left). by apply IH. }
  destruct (Hfold (M !!! fixel)) as [Hlen Hcells].
  split; [ exact Hlen | ].
  intros r c Hr. rewrite Hcells by done. by rewrite cell_lookup_total.
Qed.

(** The matrix after the passes for the fixels below [p]: the columns below
    [p] are final, the others are still raw. *)
Lemma symmetrise_prefix (M : Matrix) (p : nat) :
  (p ≤ length M)%nat →
  let Mp := fold_left symmetrise_row (seq 0 p) M in
  length Mp = length M
  ∧ ∀ (r : nat) (c : Z), (r < length M)%nat →
      cell Mp r c
      = if decide (0 ≤ c < Z.of_nat p)%Z
        then symmetrised_cell M r (Z.to_nat c)
        else cell M r c.
Proof.
  induction p as [ | p IH ]; intros Hp; cbn zeta.
  - split; [ reflexivity | ]. intros r c _. rewrite decide_False by lia. reflexivity.
  - rewrite seq_S, fold_left_app. cbn [fold_left Nat.add].
    destruct IH as [Hlen IH]; [ lia | ].
    set (Mp := fold_left symmetrise_row (seq 0 p) M) in *.
    destruct (symmetrise_row_spec Mp p) as [Hlen' Hrow].
    split; [ congruence | ].
    intros r c Hr. rewrite Hrow by lia.
    destruct (decide (c = Z.of_nat p)) as [ -> | Hc ].
    + rewrite decide_True by lia. rewrite Nat2Z.id.
      rewrite !IH by lia. rewrite (decide_False (P := (0 ≤ Z.of_nat p < Z.of_nat p)%Z)) by lia.
      unfold symmetrised_cell.
      destruct (decide (0 ≤ Z.of_nat r < Z.of_nat p)%Z) as [ Hlt | Hge ].
      * rewrite Nat2Z.id. unfold symmetrised_cell.
        rewrite !decide_False by lia.
        destruct (Nat.ltb_spec p r); [ lia | ].
        destruct (Nat.ltb_spec r p); [ | lia ].
        destruct (cell M r (Z.of_nat p)) as [ v | ]; [ reflexivity | ].
        by destruct (cell M p (Z.of_nat r)).
      * destruct (decide (r = p)) as [ -> | Hne ].
        -- by destruct (cell M p (Z.of_nat p)).
        -- destruct (Nat.ltb_spec r p); [ lia | ]. reflexivity.
    + rewrite IH by lia.
      destruct (decide (0 ≤ c < Z.of_nat p)%Z), (decide (0 ≤ c < Z.of_nat (S p))%Z);
        try lia; reflexivity.
Qed.

(** The matrix after symmetrisation. *)
Lemma symmetrise_spec (M : Matrix) (r c : nat) :
  (r < length M)%nat → (c < length M)%nat →
  cell (symmetrise M) r (Z.of_nat c) = symmetrised_cell M r c.
Proof.
  intros Hr Hc. unfold symmetrise.
  destruct (symmetrise_prefix M (length M) (le_n _)) as [_ Hcells].
  rewrite Hcells by done. rewrite decide_True by lia. by rewrite Nat2Z.id.
Qed.

Lemma symmetrise_length (M : Matrix) : length (symmetrise M) = length M.
Proof. apply (symmetrise_prefix M (length M) (le_n _)). Qed.

Lemma symmetrised_cell_sym (M : Matrix) (r c : nat) :
  r ≠ c → symmetrised_cell M r c = symmetrised_cell M c r.
Proof.
  intros Hne. unfold symmetrised_cell. rewrite !decide_False by lia.
  destruct (Nat.ltb_spec r c), (Nat.ltb_spec c r); try lia; reflexivity.
Qed.

Lemma symmetrise_symmetric (M : Matrix) (i j : nat) :
  (i < length M)%nat → (j < length M)%nat → i ≠ j →
  cell (symmetrise M) i (Z.of_nat j) = cell (symmetrise M) j (Z.of_nat i).
Proof.
  intros Hi Hj Hne. rewrite !symmetrise_spec by done. by apply symmetrised_cell_sym.
Qed.

(* ------------------------------------------------------------------ *)
(** ** Thresholding and exponentiation *)

Lemma insert_new_lookup {A} (k : Z) (v : A) (m : gmap Z A) (j : Z) :
  insert_new k v m !! j = if decide (j = k) then Some (default v (m !! k)) else m !! j.
Proof.
  unfold insert_new. destruct (m !! k) as [ w | ] eqn:Hk.
  - destruct (decide (j = k)) as [ -> | ]; [ by rewrite Hk | reflexivity ].
  - destruct (decide (j = k)) as [ -> | ].
    + by rewrite lookup_insert_eq.
    + by rewrite lookup_insert_ne.
Qed.

Section Finaliser.
Variable lib : Libm.
Variable c : Config.
Variable fixel_TDI : list Z.

Lemma finalise_connectivity_length (M : Matrix) :
  length (finalise_connectivity lib c fixel_TDI M) = length M.
Proof. apply length_imap. Qed.

(** Off the diagonal, a cell of the finalised matrix is the fate of the
    cell before; the diagonal holds 1 unless the loop left something there. *)
Lemma finalise_connectivity_cell (M : Matrix) (i : nat) (k : Z) :
  weight (finalise_connectivity lib c fixel_TDI M) i k
  = if decide (k = Z.of_nat i)
    then (λ _, default (Finite 1.0)
                       (cell M i k ≫= threshold_entry lib c fixel_TDI i)) <$> M !! i
    else cell M i k ≫= threshold_entry lib c fixel_TDI i.
Proof.
  unfold weight, finalise_connectivity. rewrite list_lookup_imap.
  unfold cell. destruct (M !! i) as [ row | ]; cbn.
  - rewrite insert_new_lookup. unfold threshold_row. rewrite !lookup_omap.
    destruct (decide (k = Z.of_nat i)) as [ -> | ]; reflexivity.
  - by destruct (decide _).
Qed.

Lemma finalised_matrix_cell (raw : Matrix) (i j : nat) :
  (i < length raw)%nat → (j < length raw)%nat → i ≠ j →
  weight (finalised_matrix lib c fixel_TDI raw) i (Z.of_nat j)
  = symmetrised_cell raw i j ≫= threshold_entry lib c fixel_TDI i.
Proof.
  intros Hi Hj Hne. unfold finalised_matrix.
  rewrite finalise_connectivity_cell, decide_False by lia.
  by rewrite symmetrise_spec.
Qed.

Lemma threshold_entry_same_TDI (i j : nat) v :
  nth i fixel_TDI 0%Z = nth j fixel_TDI 0%Z →
  threshold_entry lib c fixel_TDI i v = threshold_entry lib c fixel_TDI j v.
Proof. intros H. unfold threshold_entry, row_connectivity. by rewrite H. Qed.

(** The quotient by a track density that is not zero is the quotient of
    rationals. *)
Lemma row_connectivity_finite (i : nat) v :
  nth i fixel_TDI 0%Z ≠ 0%Z →
  row_connectivity fixel_TDI i v = Finite (value v / inject_Z (nth i fixel_TDI 0%Z)).
Proof.
  intros HTDI. unfold row_connectivity, fp_div.
  destruct (Qeq_bool (inject_Z (nth i fixel_TDI 0%Z)) 0) eqn:Hz; [ | reflexivity ].
  apply Qeq_bool_iff in Hz. unfold Qeq in Hz. cbn in Hz. lia.
Qed.

(** The quotient of a positive count by a track density of zero is [+inf]. *)
Lemma row_connectivity_infinite (i : nat) v :
  nth i fixel_TDI 0%Z = 0%Z → 0 < value v →
  row_connectivity fixel_TDI i v = PlusInfinity.
Proof.
  intros HTDI Hv. unfold row_connectivity, fp_div. rewrite HTDI.
  change (Qeq_bool (inject_Z 0) 0) with true. cbn match.
  destruct (Qeq_bool (value v) 0) eqn:Hz.
  - apply Qeq_bool_iff in Hz. rewrite Hz in Hv. by apply Qlt_irrefl in Hv.
  - destruct (Qltb (value v) 0) eqn:Hneg; [ | reflexivity ].
    apply Qltb_lt in Hneg. exfalso. apply (Qlt_irrefl 0). by eapply Qlt_trans.
Qed.

Lemma threshold_entry_finite (i : nat) v :
  nth i fixel_TDI 0%Z ≠ 0%Z →
  threshold_entry lib c fixel_TDI i v
  = if Qltb (value v / inject_Z (nth i fixel_TDI 0%Z)) (connectivity_threshold c)
    then None
    else Some (Finite (fpow lib (value v / inject_Z (nth i fixel_TDI 0%Z)) (cfe_c c))).
Proof.
  intros HTDI. unfold threshold_entry. by rewrite row_connectivity_finite.
Qed.

Lemma threshold_entry_infinite (i : nat) v :
  nth i fixel_TDI 0%Z = 0%Z → 0 < value v →
  threshold_entry lib c fixel_TDI i v = Some (fp_pow lib PlusInfinity (cfe_c c)).
Proof.
  intros HTDI Hv. unfold threshold_entry. by rewrite row_connectivity_infinite.
Qed.
End Finaliser.

(** C2, as the code has it: symmetrisation makes the matrix of counts
    symmetric, for all fixels [i ≠ j]: [j] is a key of row [i] exactly when
    [i] is a key of row [j], with the same count.  Finalisation then treats
    each row with the row's own TDI: the finalised cell [(i, j)] is absent
    when the cell was absent or the float quotient [count / TDI[i]] is below
    the threshold, and holds that quotient to the power [cfe_c] otherwise.
    For a TDI that is not zero the quotient is the rational one; for a TDI of
    zero (a 16-bit counter that wrapped) the quotient of a positive count is
    [+inf], which is not below the threshold: the cell is kept, with the
    power of [+inf].  The finalised cells [(i, j)] and [(j, i)] agree
    whenever [TDI[i] = TDI[j]]. *)
Theorem symmetric_until_thresholding (lib : Libm) (c : Config) (fixel_TDI : list Z)
    (raw : Matrix) (i j : nat) :
  (i < length raw)%nat → (j < length raw)%nat → i ≠ j →
  cell (symmetrise raw) i (Z.of_nat j) = cell (symmetrise raw) j (Z.of_nat i)
  ∧ weight (finalised_matrix lib c fixel_TDI raw) i (Z.of_nat j)
    = cell (symmetrise raw) i (Z.of_nat j) ≫= threshold_entry lib c fixel_TDI i
  ∧ (nth i fixel_TDI 0%Z = nth j fixel_TDI 0%Z →
     weight (finalised_matrix lib c fixel_TDI raw) i (Z.of_nat j)
     = weight (finalised_matrix lib c fixel_TDI raw) j (Z.of_nat i))
  ∧ (∀ v, cell (symmetrise raw) i (Z.of_nat j) = Some v →
          nth i fixel_TDI 0%Z ≠ 0%Z →
          weight (finalised_matrix lib c fixel_TDI raw) i (Z.of_nat j)
          = if Qltb (value v / inject_Z (nth i fixel_TDI 0%Z)) (connectivity_threshold c)
            then None
            else Some (Finite (fpow lib (value v / inject_Z (nth i fixel_TDI 0%Z))
                                    (cfe_c c))))
  ∧ (∀ v, cell (symmetrise raw) i (Z.of_nat j) = Some v →
          nth i fixel_TDI 0%Z = 0%Z → 0 < value v →
          weight (finalised_matrix lib c fixel_TDI raw) i (Z.of_nat j)
          = Some (fp_pow lib PlusInfinity (cfe_c c))).
Proof.
  intros Hi Hj Hne.
  assert (weight (finalised_matrix lib c fixel_TDI raw) i (Z.of_nat j)
          = cell (symmetrise raw) i (Z.of_nat j) ≫= threshold_entry lib c fixel_TDI i)
    as Hcell by (rewrite finalised_matrix_cell, symmetrise_spec by done; reflexivity).
  split; [ by apply symmetrise_symmetric | split; [ exact Hcell | split; [ | split ] ] ].
  - intros HTDI. rewrite !finalised_matrix_cell by (done || lia).
    rewrite (symmetrised_cell_sym raw i j) by done.
    destruct (symmetrised_cell raw j i) as [ v | ]; [ | reflexivity ].
    cbn. by apply threshold_entry_same_TDI.
  - intros v Hv HTDI. rewrite Hcell, Hv. cbn. by apply threshold_entry_finite.
  - intros v Hv HTDI Hpos. rewrite Hcell, Hv. cbn. by apply threshold_entry_infinite.
Qed.

(** The witness of C2: fixels 0 and 1 of the three-fixel example. *)
Lemma symmetric_until_thresholding_witness :
  (0 < length tracks_101_raw)%nat ∧ (1 < length tracks_101_raw)%nat ∧ 0%nat ≠ 1%nat
  ∧ cell (symmetrise tracks_101_raw) 0 (Z.of_nat 1)
    = cell (symmetrise tracks_101_raw) 1 (Z.of_nat 0).
Proof.
  assert (0 < length tracks_101_raw)%nat as H0 by (cbn; apply Nat.lt_0_succ).
  assert (1 < length tracks_101_raw)%nat as H1 by (cbn; apply -> Nat.succ_lt_mono; apply Nat.lt_0_succ).
  assert (0%nat ≠ 1%nat) as Hne by discriminate.
  split; [ exact H0 | split; [ exact H1 | split; [ exact Hne | ] ] ].
  exact (proj1 (symmetric_until_thresholding qlibm (read_options threshold_005)
                  tracks_101_TDI tracks_101_raw 0 1 H0 H1 Hne)).
Defined.

Lemma tracks_101_processed :
  process_tracks qlibm three_fixel_tp 3 tracks_101 = (tracks_101_TDI, tracks_101_raw).
Proof. vm_compute. reflexivity. Qed.

(** Whatever the math library, thresholding breaks the symmetry of the
    three-fixel example. *)
Lemma tracks_101_asymmetric (lib : Libm) :
  is_Some (weight (finalised_matrix lib (read_options threshold_005)
                     tracks_101_TDI tracks_101_raw) 2 0%Z)
  ∧ weight (finalised_matrix lib (read_options threshold_005)
              tracks_101_TDI tracks_101_raw) 0 2%Z = None.
Proof.
  change 0%Z with (Z.of_nat 0). change 2%Z with (Z.of_nat 2).
  rewrite !finalised_matrix_cell by (cbn; lia).
  split; [ eexists | ]; vm_compute; reflexivity.
Qed.

(** C2, counterexample: three fixels, 100 streamlines joining fixels 0 and 1
    and one streamline joining fixels 0 and 2, threshold 0.05.  The track
    processor gives TDI = [101; 100; 1] and the counts M[0][1] = 100,
    M[0][2] = 1.  After finalisation 0 is a key of row 2 (1/1 ≥ 0.05) and 2 is
    not a key of row 0 (1/101 < 0.05). *)
Lemma finalised_matrix_asymmetric :
  process_tracks qlibm three_fixel_tp 3 tracks_101 = (tracks_101_TDI, tracks_101_raw)
  ∧ is_Some (weight (finalised_matrix qlibm (read_options threshold_005)
                       tracks_101_TDI tracks_101_raw) 2 0%Z)
  ∧ weight (finalised_matrix qlibm (read_options threshold_005)
              tracks_101_TDI tracks_101_raw) 0 2%Z = None.
Proof.
  split; [ exact tracks_101_processed | ].
  apply tracks_101_asymmetric.
Qed.

(** With the two track densities wrapped to 0, the two edges of the
    two-voxel example are kept whatever the threshold, with the weight
    [+inf]. *)
Example wrapped_density_keeps_edge :
  weight (finalised_matrix qlibm (read_options no_options) tracks_wrapped_TDI
            tracks_wrapped_raw) 0 1%Z = Some PlusInfinity
  ∧ weight (finalised_matrix qlibm (read_options no_options) tracks_wrapped_TDI
              tracks_wrapped_raw) 1 0%Z = Some PlusInfinity.
Proof. split; vm_compute; reflexivity. Qed.

(* ------------------------------------------------------------------ *)
(** ** Smoothing weights *)

Lemma Qsum_Permutation (l l' : list Q) : l ≡ₚ l' → Qsum l == Qsum l'.
Proof.
  unfold Qsum. induction 1 as [ | x l l' _ IH | x y l | l l' l'' _ IH _ IH' ]; cbn [foldr].
  - reflexivity.
  - by rewrite IH.
  - ring.
  - by rewrite IH.
Qed.

Lemma Qsum_positive (l : list Q) : Forall (λ w, 0 < w) l → l ≠ [] → 0 < Qsum l.
Proof.
  unfold Qsum. intros Hpos.
  assert (0 <= foldr Qplus 0 l ∧ (l ≠ [] → 0 < foldr Qplus 0 l)) as [_ H]; [ | exact H ].
  induction Hpos as [ | w l Hw _ [IH _] ]; cbn [foldr].
  - split; [ discriminate | done ].
  - split; [ | intros _ ]; lra.
Qed.

Lemma Qsum_scale (l : list Q) (factor : Q) :
  Qsum ((λ w, w * factor) <$> l) == Qsum l * factor.
Proof.
  unfold Qsum. induction l as [ | w l IH ]; cbn [fmap list_fmap foldr].
  - ring.
  - rewrite IH. ring.
Qed.

(** The sum of a row of finite weights is the sum of rationals. *)
Lemma row_sum_finite (ws : gmap Z Q) :
  ∃ q, row_sum (Finite <$> ws) = Finite q ∧ q == Qsum ((map_to_list ws).*2).
Proof.
  unfold row_sum. rewrite map_fold_fmap, map_fold_foldr.
  generalize (map_to_list ws). intros l. unfold Qsum.
  induction l as [ | [k w] l (q & Hq & Hsum) ]; cbn [foldr fmap list_fmap snd].
  - exists 0.0. split; reflexivity.
  - exists (q + w). split.
    + cbn [uncurry compose] in *. rewrite Hq. reflexivity.
    + rewrite Hsum. ring.
Qed.

(** A row whose weights are all finite is the image of a row of rationals. *)
Lemma finite_row (row : gmap Z fp) :
  (∀ k w, row !! k = Some w → ∃ q, w = Finite q) →
  row = Finite <$> omap finite_part row.
Proof.
  intros Hfin. apply map_eq. intros k. rewrite lookup_fmap, lookup_omap.
  destruct (row !! k) as [ w | ] eqn:Hw; [ | reflexivity ].
  destruct (Hfin k w Hw) as [q ->]. reflexivity.
Qed.

(** Normalisation of a row of positive finite weights divides each weight
    by their sum. *)
Lemma normalise_finite_row (ws : gmap Z Q) :
  (∀ k w, ws !! k = Some w → 0 < w) → ws ≠ ∅ →
  ∃ q, 0 < q ∧ q == Qsum ((map_to_list ws).*2)
       ∧ normalise_row (Finite <$> ws) = Finite <$> ((λ w, w * (1.0 / q)) <$> ws).
Proof.
  intros Hpos Hne. destruct (row_sum_finite ws) as (q & Hq & Hsum).
  assert (0 < q) as Hq0.
  { rewrite Hsum. apply Qsum_positive.
    - apply Forall_forall. intros w Hw. apply list_elem_of_fmap in Hw as ([k w'] & -> & Hkw).
      apply elem_of_map_to_list in Hkw. by eapply Hpos.
    - intros Hnil. apply fmap_nil_inv, map_to_list_empty_iff in Hnil. done. }
  exists q. split; [ exact Hq0 | split; [ exact Hsum | ] ].
  unfold normalise_row. rewrite Hq. cbn [fp_div].
  destruct (Qeq_bool q 0) eqn:Hz.
  { apply Qeq_bool_iff in Hz. rewrite Hz in Hq0. by apply Qlt_irrefl in Hq0. }
  rewrite <- !map_fmap_compose. reflexivity.
Qed.

Section SmoothingWeights.
Variable lib : Libm.
Variable c : Config.
Variable fixel_TDI : list Z.
Variable positions : list Point.
Hypothesis threshold_nonneg : 0 <= connectivity_threshold c.
Hypothesis sqrt_2pi_positive : 0 < fsqrt lib (2.0 * M_PI).

Lemma gaussian_const1_positive : 0 < gaussian_const1 lib c.
Proof.
  unfold gaussian_const1, do_smoothing.
  destruct (Qltb 0.0 (smooth_std_dev c)) eqn:Hs; [ | reflexivity ].
  apply Qltb_lt in Hs.
  apply Qlt_shift_div_l.
  - apply Qmult_lt_0_compat; [ | exact sqrt_2pi_positive ].
    eapply Qle_lt_trans; [ | exact Hs ]. discriminate.
  - rewrite Qmult_0_l.
    reflexivity.
Qed.

(** Where the track density of the row is not zero, a weight the loop
    inserts is finite and positive. *)
Lemma smoothing_row_positive fixel row k w :
  nth fixel fixel_TDI 0%Z ≠ 0%Z →
  smoothing_row lib c fixel_TDI positions fixel row !! k = Some w →
  ∃ q, w = Finite q ∧ 0 < q.
Proof.
  intros HTDI. unfold smoothing_row. destruct (do_smoothing c); [ | by rewrite lookup_empty ].
  rewrite map_lookup_imap. destruct (row !! k) as [ v | ]; [ | discriminate ].
  cbn [mbind option_bind]. cbn zeta.
  rewrite row_connectivity_finite by exact HTDI. cbn [fp_lt fp_mul].
  destruct (Qltb _ (connectivity_threshold c)); [ discriminate | ].
  match goal with |- context [ Qltb ?a ?b ] => destruct (Qltb a b) eqn:Hw end;
    [ | discriminate ].
  intros [= <-]. eexists. split; [ reflexivity | ]. apply Qltb_lt in Hw.
  eapply Qle_lt_trans; [ exact threshold_nonneg | exact Hw ].
Qed.

(** A row before normalisation: finite positive entries, the diagonal among
    them. *)
Lemma raw_row_positive (M : Matrix) (fixel : nat) row :
  (∀ k, is_Some (cell M fixel k) → nth fixel fixel_TDI 0%Z ≠ 0%Z) →
  raw_smoothing_weights lib c fixel_TDI positions M !! fixel = Some row →
  (∃ w, row !! Z.of_nat fixel = Some w)
  ∧ (∀ k w, row !! k = Some w → ∃ q, w = Finite q ∧ 0 < q).
Proof.
  intros HTDI. unfold raw_smoothing_weights. rewrite list_lookup_imap.
  destruct (M !! fixel) as [ r | ] eqn:Hr; [ cbn | discriminate ].
  assert (∀ k w, smoothing_row lib c fixel_TDI positions fixel r !! k = Some w →
                 ∃ q, w = Finite q ∧ 0 < q) as Hpos.
  { intros k w Hw. apply (smoothing_row_positive fixel r k w); [ | exact Hw ].
    apply (HTDI k). unfold cell. rewrite Hr. cbn.
    unfold smoothing_row in Hw. destruct (do_smoothing c); [ | by rewrite lookup_empty in Hw ].
    rewrite map_lookup_imap in Hw. destruct (r !! k); [ by eexists | discriminate ]. }
  intros [= <-]. split.
  - rewrite insert_new_lookup, decide_True by done. eauto.
  - intros k w. rewrite insert_new_lookup.
    destruct (decide (k = Z.of_nat fixel)) as [ -> | ]; [ | apply Hpos ].
    intros [= <-].
    destruct (smoothing_row _ _ _ _ _ _ !! _) as [ w | ] eqn:Hw; cbn.
    + by apply Hpos in Hw.
    + eexists. split; [ reflexivity | apply gaussian_const1_positive ].
Qed.

Lemma normalised_row_stochastic (raw : Matrix) (i : nat) :
  (i < length raw)%nat →
  (∀ k, is_Some (cell (symmetrise raw) i k) → nth i fixel_TDI 0%Z ≠ 0%Z) →
  ∃ ws : gmap Z Q,
    smoothing_weights lib c fixel_TDI positions raw !! i = Some (Finite <$> ws)
    ∧ (∃ w, ws !! Z.of_nat i = Some w ∧ 0 < w)
    ∧ (∀ k w, ws !! k = Some w → 0 <= w)
    ∧ Qsum ((map_to_list ws).*2) == 1.
Proof.
  intros Hi HTDI. unfold smoothing_weights. rewrite list_lookup_fmap.
  destruct (raw_smoothing_weights lib c fixel_TDI positions (symmetrise raw) !! i)
    as [ row | ] eqn:Hrow.
  2:{ apply lookup_ge_None in Hrow. unfold raw_smoothing_weights in Hrow.
      rewrite length_imap, symmetrise_length in Hrow. lia. }
  destruct (raw_row_positive _ _ _ HTDI Hrow) as [[wd Hdiag] Hfin].
  set (ws := omap finite_part row).
  assert (row = Finite <$> ws) as Hws.
  { apply finite_row. intros k w Hw. destruct (Hfin k w Hw) as (q & -> & _). by exists q. }
  assert (∀ k w, ws !! k = Some w → 0 < w) as Hpos.
  { intros k w. unfold ws. rewrite lookup_omap.
    destruct (row !! k) as [ w' | ] eqn:Hw'; [ cbn | discriminate ].
    destruct (Hfin k w' Hw') as (q & -> & Hq). by intros [= <-]. }
  assert (∃ q, ws !! Z.of_nat i = Some q) as [qd Hqd].
  { unfold ws. rewrite lookup_omap, Hdiag. cbn.
    destruct (Hfin _ _ Hdiag) as (q & -> & _). by exists q. }
  assert (ws ≠ ∅) as Hne by (intros H0; by rewrite H0, lookup_empty in Hqd).
  destruct (normalise_finite_row ws Hpos Hne) as (q & Hq0 & Hsum & Hnorm).
  assert (0 < 1.0 / q) as Hfactor.
  { apply Qlt_shift_div_l; [ exact Hq0 | ]. rewrite Qmult_0_l. reflexivity. }
  exists ((λ w, w * (1.0 / q)) <$> ws). cbn [fmap option_fmap option_map].
  split; [ by rewrite Hws, Hnorm | split; [ | split ] ].
  - exists (qd * (1.0 / q)). split; [ by rewrite lookup_fmap, Hqd | ].
    apply Qmult_lt_0_compat; [ by apply (Hpos (Z.of_nat i)) | exact Hfactor ].
  - intros k w. rewrite lookup_fmap.
    destruct (ws !! k) as [ w0 | ] eqn:Hw0; [ cbn | discriminate ].
    intros [= <-]. apply Qlt_le_weak.
    apply Qmult_lt_0_compat; [ by apply (Hpos k) | exact Hfactor ].
  - rewrite (Qsum_Permutation _ ((λ w, w * (1.0 / q)) <$> (map_to_list ws).*2)).
    + rewrite Qsum_scale, <- Hsum. field. intros H0. rewrite H0 in Hq0.
      by apply Qlt_irrefl in Hq0.
    + rewrite map_to_list_fmap, <- !list_fmap_compose. reflexivity.
Qed.
End SmoothingWeights.







(* ------------------------------------------------------------------ *)
(** ** Smoothing disabled *)

Lemma vec_get_of_nat {A} (v : list A) (i : nat) (d : A) : vec_get v (Z.of_nat i) d = nth i v d.
Proof.
  unfold vec_get. destruct (Z.leb_spec 0 (Z.of_nat i)); [ | lia ]. by rewrite Nat2Z.id.
Qed.

Section NoSmoothing.
Variable lib : Libm.
Variable o : Options.
Hypothesis fwhm_zero : ∃ fwhm, opt_smooth o = Some fwhm ∧ fwhm == 0.

Lemma do_smoothing_off : do_smoothing (read_options o) = false.
Proof.
  destruct fwhm_zero as (fwhm & Hopt & Hzero).
  unfold do_smoothing, read_options; cbn. rewrite Hopt.
  apply Qltb_ge. rewrite Hzero. discriminate.
Qed.

(** Before normalisation every row is the diagonal entry alone. *)
Lemma raw_row_singleton fixel_TDI positions (M : Matrix) (i : nat) :
  (i < length M)%nat →
  raw_smoothing_weights lib (read_options o) fixel_TDI positions M !! i
  = Some {[ Z.of_nat i := Finite 1.0 ]}.
Proof.
  intros Hi. unfold raw_smoothing_weights. rewrite list_lookup_imap.
  destruct (lookup_lt_is_Some_2 M i Hi) as [row ->]. cbn.
  unfold smoothing_row, gaussian_const1. rewrite do_smoothing_off.
  unfold insert_new. rewrite lookup_empty. by rewrite insert_empty.
Qed.

Lemma normalised_row_singleton fixel_TDI positions (raw : Matrix) (i : nat) :
  (i < length raw)%nat →
  ∃ w, smoothing_weights lib (read_options o) fixel_TDI positions raw !! i
       = Some {[ Z.of_nat i := Finite w ]}
       ∧ w == 1.
Proof.
  intros Hi. unfold smoothing_weights. rewrite list_lookup_fmap.
  rewrite raw_row_singleton by (by rewrite symmetrise_length). cbn.
  unfold normalise_row. rewrite map_fmap_singleton.
  unfold row_sum. rewrite map_fold_singleton.
  eexists. split; [ reflexivity | reflexivity ].
Qed.

Lemma smooth_singleton temp_fixel_data (i : nat) w :
  w == 1 →
  ∃ x, smooth_fixel temp_fixel_data {[ Z.of_nat i := Finite w ]} = Finite x
       ∧ x == nth i temp_fixel_data 0.
Proof.
  intros Hw. unfold smooth_fixel. rewrite map_fold_singleton, vec_get_of_nat.
  eexists. split; [ reflexivity | ]. rewrite Hw. ring.
Qed.
End NoSmoothing.

(** C10: with the option [smooth] given the value 0, every row [i] of the
    normalised smoothing weights is the single entry [i] with the finite
    weight 1, and the smoothing leaves the subject's matched values as they
    are: [data (i, s)] is the finite value [temp_fixel_data[i]]. *)
Theorem no_smoothing_is_identity (lib : Libm) (o : Options) (fixel_TDI : list Z)
    (raw : Matrix) (fi : FixelIndex) (subject : list (list FixelMetric)) (i : nat) :
  (∃ fwhm, opt_smooth o = Some fwhm ∧ fwhm == 0) →
  (i < length raw)%nat →
  let c := read_options o in
  let weights := smoothing_weights lib c fixel_TDI (positions fi) raw in
  (∃ w, weights !! i = Some {[ Z.of_nat i := Finite w ]} ∧ w == 1)
  ∧ (∃ x, data lib c fi weights subject i = Finite x
          ∧ x == nth i (load_subject lib c fi subject) 0).
Proof.
  intros Hzero Hi. cbn zeta.
  destruct (normalised_row_singleton lib o Hzero fixel_TDI (positions fi) raw i Hi)
    as (w & Hrow & Hw).
  split; [ by exists w | ].
  unfold data, smooth_subject.
  rewrite (nth_lookup_Some _ _ _ (smooth_fixel (load_subject lib (read_options o) fi subject)
                                               {[ Z.of_nat i := Finite w ]})).
  - by apply smooth_singleton.
  - by rewrite list_lookup_fmap, Hrow.
Qed.

(** The witness of C10: the three-fixel example with [smooth 0]; the
    subject is the mask itself. *)
Lemma no_smoothing_is_identity_witness :
  (∃ fwhm, opt_smooth no_smoothing = Some fwhm ∧ fwhm == 0)
  ∧ (1 < length tracks_101_raw)%nat
  ∧ ∃ w, smoothing_weights qlibm (read_options no_smoothing) tracks_101_TDI
           (positions three_fixel_index) tracks_101_raw !! 1%nat
         = Some {[ Z.of_nat 1 := Finite w ]}
         ∧ w == 1.
Proof.
  assert (∃ fwhm, opt_smooth no_smoothing = Some fwhm ∧ fwhm == 0) as Hzero
    by (exists 0; split; reflexivity).
  assert (1 < length tracks_101_raw)%nat as Hi
    by (cbn; apply -> Nat.succ_lt_mono; apply Nat.lt_0_succ).
  split; [ exact Hzero | split; [ exact Hi | ] ].
  exact (proj1 (no_smoothing_is_identity qlibm no_smoothing tracks_101_TDI tracks_101_raw
                  three_fixel_index
                  [ [ unit_fixel (1, 0, 0) ]; [ unit_fixel (0, 1, 0) ]; [ unit_fixel (0, 0, 1) ] ]
                  1 Hzero Hi)).
Defined.


(* ================================================================== *)
(** * Further properties *)

(* ------------------------------------------------------------------ *)
(** ** The fixel table *)

Lemma scan_positions_length voxel2scanner mask : ∀ v,
  length (scan_positions voxel2scanner v mask) = length (concat mask).
Proof.
  induction mask as [ | fixels mask IH ]; intros v; [ reflexivity | ].
  cbn [scan_positions concat]. by rewrite !length_app, length_replicate, IH.
Qed.

Lemma scan_positions_app voxel2scanner l1 l2 : ∀ v,
  scan_positions voxel2scanner v (l1 ++ l2)
  = scan_positions voxel2scanner v l1
    ++ scan_positions voxel2scanner (v + length l1) l2.
Proof.
  induction l1 as [ | fixels l1 IH ]; intros v.
  - cbn. by rewrite Nat.add_0_r.
  - cbn [app scan_positions length]. rewrite IH, <- app_assoc.
    by replace (S v + length l1)%nat with (v + S (length l1))%nat by lia.
Qed.

Lemma index_loop_positions voxel2scanner mask : ∀ v0 st,
  (Z.of_nat (length (directions st)) + Z.of_nat (length (concat mask)) < 2147483648)%Z →
  positions (index_loop voxel2scanner v0 mask st)
  = positions st ++ scan_positions voxel2scanner v0 mask.
Proof.
  induction mask as [ | fixels mask IH ]; intros v0 st Hlt.
  - cbn. by rewrite app_nil_r.
  - cbn [index_loop scan_positions]. cbn [concat] in Hlt. rewrite length_app in Hlt.
    rewrite index_voxel_spec by lia. rewrite IH.
    + cbn [positions]. by rewrite <- app_assoc.
    + cbn [directions]. rewrite length_app, length_fmap. lia.
Qed.

Lemma build_fixel_index_tables (voxel2scanner : nat → Point)
    (mask : list (list FixelMetric)) :
  (Z.of_nat (length (concat mask)) < 2147483648)%Z →
  let fi := build_fixel_index voxel2scanner mask in
  directions fi = fixel_dir <$> concat mask
  ∧ positions fi = scan_positions voxel2scanner 0 mask
  ∧ num_fixels fi = Z.of_nat (length (positions fi))
  ∧ length (fixel_indexer fi) = length mask.
Proof.
  intros Hlt. cbn zeta. unfold build_fixel_index.
  set (st := {| fixel_indexer := _ |}).
  destruct (index_loop_spec voxel2scanner mask 0 st) as (Hd & _ & _).
  { subst st. cbn. lia. }
  { subst st. cbn [fixel_indexer]. rewrite length_replicate. lia. }
  assert (positions (index_loop voxel2scanner 0 mask st)
          = scan_positions voxel2scanner 0 mask) as Hp.
  { rewrite index_loop_positions by (subst st; cbn; lia). reflexivity. }
  split; [ exact Hd | split; [ exact Hp | split ] ].
  - unfold num_fixels. rewrite Hd, Hp, length_app, length_fmap, scan_positions_length.
    subst st. cbn [directions length Nat.add].
    unfold to_uint32. apply Z.mod_small. lia.
  - clear Hd Hp. assert (∀ m v s, length (fixel_indexer (index_loop voxel2scanner v m s))
                                   = length (fixel_indexer s)) as Hlen.
    { clear. induction m as [ | fx m IH ]; intros v s; [ reflexivity | ].
      cbn [index_loop]. rewrite IH. unfold index_voxel.
      destruct (fold_left _ fx _) as [[d p] n]. cbn [fixel_indexer].
      unfold set_plane1, set_plane0. by rewrite !length_alter. }
    rewrite Hlen. subst st. cbn [fixel_indexer]. apply length_replicate.
Qed.

(** X1: the fixel table lists the fixels of the mask in scan order: the
    directions are the directions of the fixels of the first voxel, then of
    the second, and so on, and the positions are the scanner position of each
    voxel, once per fixel of the voxel; the two tables have [num_fixels]
    entries. *)
Theorem fixel_table_in_scan_order (voxel2scanner : nat → Point)
    (mask : list (list FixelMetric)) :
  (Z.of_nat (length (concat mask)) < 2147483648)%Z →
  let fi := build_fixel_index voxel2scanner mask in
  directions fi = fixel_dir <$> concat mask
  ∧ positions fi = scan_positions voxel2scanner 0 mask
  ∧ num_fixels fi = Z.of_nat (length (positions fi))
  ∧ length (fixel_indexer fi) = length mask.
Proof. exact (build_fixel_index_tables voxel2scanner mask). Qed.

Lemma fixel_table_in_scan_order_witness :
  (Z.of_nat (length (concat mask_with_empty_voxels)) < 2147483648)%Z
  ∧ directions (build_fixel_index (λ _, origin) mask_with_empty_voxels)
    = fixel_dir <$> concat mask_with_empty_voxels.
Proof.
  assert (Z.of_nat (length (concat mask_with_empty_voxels)) < 2147483648)%Z as H
    by reflexivity.
  split; [ exact H | ].
  exact (proj1 (fixel_table_in_scan_order (λ _, origin) mask_with_empty_voxels H)).
Defined.

Lemma mask_split (mask : list (list FixelMetric)) v fixels :
  mask !! v = Some fixels →
  concat mask = concat (take v mask) ++ fixels ++ concat (drop (S v) mask).
Proof.
  intros Hv. rewrite <- (take_drop v mask) at 1.
  rewrite (drop_S _ _ _ Hv), concat_app. reflexivity.
Qed.

Lemma build_fixel_index_slice (voxel2scanner : nat → Point)
    (mask : list (list FixelMetric)) (v k : nat) (fixels : list FixelMetric)
    (fx : FixelMetric) :
  (Z.of_nat (length (concat mask)) < 2147483648)%Z →
  mask !! v = Some fixels → fixels !! k = Some fx →
  let fi := build_fixel_index voxel2scanner mask in
  let first := plane0 (fixel_indexer fi) v in
  vec_get (directions fi) (first + Z.of_nat k) origin = fixel_dir fx
  ∧ positions fi !! Z.to_nat (first + Z.of_nat k) = Some (voxel2scanner v)
  ∧ (0 ≤ first)%Z
  ∧ (first + plane1 (fixel_indexer fi) v ≤ num_fixels fi)%Z.
Proof.
  intros Hlt Hv Hk. cbn zeta.
  destruct (build_fixel_index_spec voxel2scanner mask v fixels Hlt Hv) as (H0 & H1 & Hn).
  destruct (build_fixel_index_tables voxel2scanner mask Hlt) as (Hd & Hp & _).
  rewrite H0, H1, Hn, Hd, Hp. clear H0 H1 Hn Hd Hp.
  assert (k < length fixels)%nat as Hklt by (by eapply lookup_lt_Some).
  pose proof (mask_split mask v fixels Hv) as Hsplit.
  unfold fixels_before.
  replace (Z.of_nat (length (concat (take v mask))) + Z.of_nat k)%Z
    with (Z.of_nat (length (concat (take v mask)) + k)) by lia.
  split; [ | split; [ | split ] ].
  - rewrite vec_get_of_nat. apply nth_lookup_Some.
    rewrite list_lookup_fmap, Hsplit.
    rewrite lookup_app_r by lia.
    replace (length (concat (take v mask)) + k - length (concat (take v mask)))%nat
      with k by lia.
    rewrite lookup_app_l by lia.
    by rewrite Hk.
  - rewrite Nat2Z.id.
    rewrite <- (take_drop v mask) at 2. rewrite (drop_S _ _ _ Hv).
    rewrite scan_positions_app. cbn [scan_positions].
    rewrite lookup_app_r by (rewrite scan_positions_length; lia).
    rewrite scan_positions_length.
    replace (length (concat (take v mask)) + k - length (concat (take v mask)))%nat
      with k by lia.
    rewrite lookup_app_l by (rewrite length_replicate; lia).
    rewrite lookup_replicate_2 by lia.
    rewrite length_take_le by (apply Nat.lt_le_incl; by eapply lookup_lt_Some).
    reflexivity.
  - lia.
  - rewrite Hsplit, !length_app. lia.
Qed.

(** X2: the index image locates every fixel.  For a voxel [v] of the mask
    and its [k]-th fixel [fx], entry [first_fixel (v) + k] of the direction
    table is the direction of [fx] and the same entry of the position table
    is the scanner position of [v]; the slice of a voxel ends within the
    table. *)
Theorem voxel_slice_of_table (voxel2scanner : nat → Point)
    (mask : list (list FixelMetric)) (v k : nat) (fixels : list FixelMetric)
    (fx : FixelMetric) :
  (Z.of_nat (length (concat mask)) < 2147483648)%Z →
  mask !! v = Some fixels → fixels !! k = Some fx →
  let fi := build_fixel_index voxel2scanner mask in
  let first := plane0 (fixel_indexer fi) v in
  vec_get (directions fi) (first + Z.of_nat k) origin = fixel_dir fx
  ∧ positions fi !! Z.to_nat (first + Z.of_nat k) = Some (voxel2scanner v)
  ∧ (0 ≤ first)%Z
  ∧ (first + plane1 (fixel_indexer fi) v ≤ num_fixels fi)%Z.
Proof. exact (build_fixel_index_slice voxel2scanner mask v k fixels fx). Qed.

Lemma voxel_slice_of_table_witness :
  (Z.of_nat (length (concat mask_with_empty_voxels)) < 2147483648)%Z
  ∧ mask_with_empty_voxels !! 1%nat = Some [ unit_fixel (1, 0, 0) ]
  ∧ [ unit_fixel (1, 0, 0) ] !! 0%nat = Some (unit_fixel (1, 0, 0))
  ∧ vec_get (directions (build_fixel_index (λ _, origin) mask_with_empty_voxels))
            (plane0 (fixel_indexer (build_fixel_index (λ _, origin) mask_with_empty_voxels)) 1
             + Z.of_nat 0) origin
    = fixel_dir (unit_fixel (1, 0, 0)).
Proof.
  assert (Z.of_nat (length (concat mask_with_empty_voxels)) < 2147483648)%Z as H
    by reflexivity.
  split; [ exact H | split; [ reflexivity | split; [ reflexivity | ] ] ].
  exact (proj1 (voxel_slice_of_table (λ _, origin) mask_with_empty_voxels 1 0
                  [ unit_fixel (1, 0, 0) ] (unit_fixel (1, 0, 0)) H eq_refl eq_refl)).
Defined.

(* ------------------------------------------------------------------ *)
(** ** The scan of a voxel for the closest fixel *)

Section ClosestFixel.
Variable dirs : list Point.
Variable dir : Point.
Variable first_index : Z.

Lemma fixel_dp_nonneg j : 0 <= fixel_dp dirs dir j.
Proof. apply Qabs_nonneg. Qed.

Lemma closest_fixel_prefix (n : nat) (largest_dp : Q) (closest_fixel_index : Z) :
  closest_fixel dirs dir first_index (first_index + Z.of_nat n)
  = (largest_dp, closest_fixel_index) →
  (closest_fixel_index = (-1)%Z ∧ largest_dp = 0
   ∧ ∀ j, (first_index ≤ j < first_index + Z.of_nat n)%Z → fixel_dp dirs dir j == 0)
  ∨ ((first_index ≤ closest_fixel_index < first_index + Z.of_nat n)%Z
     ∧ largest_dp = fixel_dp dirs dir closest_fixel_index
     ∧ 0 < largest_dp
     ∧ (∀ j, (first_index ≤ j < first_index + Z.of_nat n)%Z →
             fixel_dp dirs dir j <= largest_dp)
     ∧ (∀ j, (first_index ≤ j < closest_fixel_index)%Z →
             fixel_dp dirs dir j < largest_dp)).
Proof.
  unfold closest_fixel.
  replace (first_index + Z.of_nat n - first_index)%Z with (Z.of_nat n) by lia.
  revert largest_dp closest_fixel_index.
  induction n as [ | n IH ]; intros l c.
  - cbn. intros [= <- <-]. left. split; [ reflexivity | split; [ reflexivity | ] ].
    intros j Hj. lia.
  - rewrite seqZ_S, fold_left_app. cbn [fold_left].
    destruct (fold_left _ (seqZ first_index (Z.of_nat n)) _) as [l0 c0] eqn:Hfold.
    specialize (IH l0 c0 eq_refl).
    fold (fixel_dp dirs dir (first_index + Z.of_nat n)).
    destruct (Qltb l0 (fixel_dp dirs dir (first_index + Z.of_nat n))) eqn:Hlt.
    + apply Qltb_lt in Hlt. intros [= <- <-]. right.
      split; [ lia | split; [ reflexivity | ] ].
      destruct IH as [ (-> & -> & Hzero) | (Hc0 & -> & Hpos & Hmax & Hfirst) ].
      * split; [ exact Hlt | split ].
        -- intros j Hj. destruct (decide (j = first_index + Z.of_nat n)%Z) as [ -> | ].
           ++ apply Qle_refl.
           ++ rewrite Hzero by lia. by apply Qlt_le_weak.
        -- intros j Hj. rewrite Hzero by lia. exact Hlt.
      * split; [ by eapply Qlt_trans | split ].
        -- intros j Hj. destruct (decide (j = first_index + Z.of_nat n)%Z) as [ -> | ].
           ++ apply Qle_refl.
           ++ apply Qlt_le_weak. eapply Qle_lt_trans; [ apply Hmax; lia | exact Hlt ].
        -- intros j Hj. eapply Qle_lt_trans; [ apply Hmax; lia | exact Hlt ].
    + apply Qltb_ge in Hlt. intros [= <- <-].
      destruct IH as [ (-> & -> & Hzero) | (Hc0 & -> & Hpos & Hmax & Hfirst) ].
      * left. split; [ reflexivity | split; [ reflexivity | ] ].
        intros j Hj. destruct (decide (j = first_index + Z.of_nat n)%Z) as [ -> | ].
        -- apply Qle_antisym; [ exact Hlt | apply fixel_dp_nonneg ].
        -- apply Hzero. lia.
      * right. split; [ lia | split; [ reflexivity | split; [ exact Hpos | split ] ] ].
        -- intros j Hj. destruct (decide (j = first_index + Z.of_nat n)%Z) as [ -> | ].
           ++ exact Hlt.
           ++ apply Hmax. lia.
        -- exact Hfirst.
Qed.
End ClosestFixel.

Lemma closest_fixel_empty dirs dir first_index last_index :
  (last_index ≤ first_index)%Z →
  closest_fixel dirs dir first_index last_index = (0, (-1)%Z).
Proof. intros Hle. unfold closest_fixel. by rewrite seqZ_nil by lia. Qed.

Lemma closest_fixel_spec (dirs : list Point) (dir : Point)
    (first_index last_index : Z) :
  let '(largest_dp, closest_fixel_index) :=
    closest_fixel dirs dir first_index last_index in
  (closest_fixel_index = (-1)%Z ∧ largest_dp = 0
   ∧ ∀ j, (first_index ≤ j < last_index)%Z → fixel_dp dirs dir j == 0)
  ∨ ((first_index ≤ closest_fixel_index < last_index)%Z
     ∧ largest_dp = fixel_dp dirs dir closest_fixel_index
     ∧ 0 < largest_dp
     ∧ (∀ j, (first_index ≤ j < last_index)%Z → fixel_dp dirs dir j <= largest_dp)
     ∧ (∀ j, (first_index ≤ j < closest_fixel_index)%Z →
             fixel_dp dirs dir j < largest_dp)).
Proof.
  destruct (closest_fixel dirs dir first_index last_index) as [l c] eqn:Hscan.
  destruct (Z.le_gt_cases last_index first_index) as [ Hle | Hgt ].
  - rewrite closest_fixel_empty in Hscan by done. injection Hscan as <- <-.
    left. split; [ reflexivity | split; [ reflexivity | ] ]. intros j Hj. lia.
  - replace last_index with (first_index + Z.of_nat (Z.to_nat (last_index - first_index)))%Z
      in Hscan |- * by lia.
    by apply closest_fixel_prefix.
Qed.

(** X3: the scan of the fixels [first_index .. last_index) of a voxel
    returns the first fixel of largest [|dir . direction|]: its product is
    positive, no fixel of the voxel has a larger one and every earlier fixel
    has a smaller one.  When no fixel has a positive product (an empty voxel
    among others) it returns -1 with the product 0. *)
Theorem closest_fixel_is_first_maximum (dirs : list Point) (dir : Point)
    (first_index last_index : Z) :
  let '(largest_dp, closest_fixel_index) :=
    closest_fixel dirs dir first_index last_index in
  (closest_fixel_index = (-1)%Z ∧ largest_dp = 0
   ∧ ∀ j, (first_index ≤ j < last_index)%Z → fixel_dp dirs dir j == 0)
  ∨ ((first_index ≤ closest_fixel_index < last_index)%Z
     ∧ largest_dp = fixel_dp dirs dir closest_fixel_index
     ∧ 0 < largest_dp
     ∧ (∀ j, (first_index ≤ j < last_index)%Z → fixel_dp dirs dir j <= largest_dp)
     ∧ (∀ j, (first_index ≤ j < closest_fixel_index)%Z →
             fixel_dp dirs dir j < largest_dp)).
Proof. exact (closest_fixel_spec dirs dir first_index last_index). Qed.

(* ------------------------------------------------------------------ *)
(** ** The assignment of tangents to fixels *)

Lemma tangent_fixel_spec (lib : Libm) (tp : TrackProcessor) (i : VoxelDir) (j : Z) :
  0 <= angular_threshold_dp tp →
  tangent_fixel lib tp i = Some j →
  let first_index := plane0 (tp_fixel_indexer tp) (vd_voxel i) in
  let last_index := to_int32 (first_index + plane1 (tp_fixel_indexer tp) (vd_voxel i)) in
  let dp := fixel_dp (tp_fixel_directions tp) (normalise lib (get_dir i)) in
  (0 ≤ first_index ≤ j)%Z ∧ (j < last_index)%Z
  ∧ angular_threshold_dp tp < dp j
  ∧ ∀ j', (first_index ≤ j' < last_index)%Z → dp j' <= dp j.
Proof.
  intros Hthr. unfold tangent_fixel. cbn zeta.
  destruct (Z.leb_spec 0 (plane0 (tp_fixel_indexer tp) (vd_voxel i))) as [ Hfirst | ];
    [ | discriminate ].
  pose proof (closest_fixel_spec (tp_fixel_directions tp)
                (normalise lib (get_dir i))
                (plane0 (tp_fixel_indexer tp) (vd_voxel i))
                (to_int32 (plane0 (tp_fixel_indexer tp) (vd_voxel i)
                           + plane1 (tp_fixel_indexer tp) (vd_voxel i)))) as Hscan.
  destruct (closest_fixel _ _ _ _) as [l c].
  destruct (Qltb (angular_threshold_dp tp) l) eqn:Hacc; [ | discriminate ].
  apply Qltb_lt in Hacc. intros [= <-].
  destruct Hscan as [ (_ & -> & _) | (Hc & -> & _ & Hmax & _) ].
  - exfalso. apply (Qlt_irrefl 0). by eapply Qle_lt_trans.
  - split; [ lia | split; [ lia | split; [ exact Hacc | exact Hmax ] ] ].
Qed.

(** X4: a tangent is assigned to a fixel only if the index of its voxel is
    not negative, and, the threshold being nonnegative, the fixel then lies
    in the slice [first_index .. last_index) of the voxel, its product with
    the normalised tangent exceeds the threshold, and no fixel of the slice
    has a larger product. *)
Theorem accepted_fixel_in_slice (lib : Libm) (tp : TrackProcessor) (i : VoxelDir) (j : Z) :
  0 <= angular_threshold_dp tp →
  tangent_fixel lib tp i = Some j →
  let first_index := plane0 (tp_fixel_indexer tp) (vd_voxel i) in
  let last_index := to_int32 (first_index + plane1 (tp_fixel_indexer tp) (vd_voxel i)) in
  let dp := fixel_dp (tp_fixel_directions tp) (normalise lib (get_dir i)) in
  (0 ≤ first_index ≤ j)%Z ∧ (j < last_index)%Z
  ∧ angular_threshold_dp tp < dp j
  ∧ ∀ j', (first_index ≤ j' < last_index)%Z → dp j' <= dp j.
Proof. exact (tangent_fixel_spec lib tp i j). Qed.

Lemma accepted_fixel_in_slice_witness :
  0 <= angular_threshold_dp one_fixel_tp
  ∧ tangent_fixel qlibm one_fixel_tp (along_x 0) = Some 0%Z
  ∧ (0 ≤ plane0 (tp_fixel_indexer one_fixel_tp) (vd_voxel (along_x 0)) ≤ 0)%Z.
Proof.
  assert (0 <= angular_threshold_dp one_fixel_tp) as Hthr by (vm_compute; discriminate).
  assert (tangent_fixel qlibm one_fixel_tp (along_x 0) = Some 0%Z) as Hacc
    by (vm_compute; reflexivity).
  split; [ exact Hthr | split; [ exact Hacc | ] ].
  exact (proj1 (accepted_fixel_in_slice qlibm one_fixel_tp (along_x 0) 0 Hthr Hacc)).
Defined.

Lemma mask_processor_planes lib voxel2scanner mask angle v fixels :
  (Z.of_nat (length (concat mask)) < 2147483648)%Z →
  mask !! v = Some fixels →
  let tp := mask_processor lib voxel2scanner mask angle in
  plane0 (tp_fixel_indexer tp) v = Z.of_nat (fixels_before mask v)
  ∧ to_int32 (plane0 (tp_fixel_indexer tp) v + plane1 (tp_fixel_indexer tp) v)
    = Z.of_nat (fixels_before mask v + length fixels)
  ∧ (fixels_before mask v + length fixels ≤ length (concat mask))%nat.
Proof.
  intros Hlt Hv. cbn zeta. unfold mask_processor, TrackProcessor_new. cbn [tp_fixel_indexer].
  destruct (build_fixel_index_spec voxel2scanner mask v fixels Hlt Hv) as (-> & -> & _).
  pose proof (mask_split mask v fixels Hv) as Hsplit.
  apply (f_equal length) in Hsplit. rewrite !length_app in Hsplit.
  unfold fixels_before in *.
  split; [ reflexivity | split; [ | lia ] ].
  rewrite to_int32_small by lia. lia.
Qed.

Lemma mask_tangent_fixel (lib : Libm) (voxel2scanner : nat → Point)
    (mask : list (list FixelMetric)) (angle : value_type) (i : VoxelDir)
    (fixels : list FixelMetric) (j : Z) :
  (Z.of_nat (length (concat mask)) < 2147483648)%Z →
  mask !! vd_voxel i = Some fixels →
  let tp := mask_processor lib voxel2scanner mask angle in
  0 <= angular_threshold_dp tp →
  tangent_fixel lib tp i = Some j →
  (∃ k : nat, (k < length fixels)%nat
              ∧ j = Z.of_nat (fixels_before mask (vd_voxel i) + k))
  ∧ (0 ≤ j < num_fixels (build_fixel_index voxel2scanner mask))%Z.
Proof.
  intros Hlt Hv tp Hthr Hacc.
  destruct (tangent_fixel_spec lib tp i j Hthr Hacc) as (Hfirst & Hlast & _).
  destruct (mask_processor_planes lib voxel2scanner mask angle (vd_voxel i) fixels Hlt Hv)
    as (H0 & H1 & Hle).
  fold tp in H0, H1. rewrite H0 in Hfirst. rewrite H1 in Hlast.
  destruct (build_fixel_index_spec voxel2scanner mask _ fixels Hlt Hv) as (_ & _ & ->).
  split; [ | lia ].
  exists (Z.to_nat (j - Z.of_nat (fixels_before mask (vd_voxel i)))). lia.
Qed.

(** X5: with the index built from the mask, a tangent in voxel [v] of the
    grid is only ever assigned to one of the fixels of [v]: the accepted
    index is [first_fixel (v) + k] for some [k] below the number of fixels of
    [v], hence a valid fixel index. *)
Theorem accepted_fixel_belongs_to_voxel (lib : Libm) (voxel2scanner : nat → Point)
    (mask : list (list FixelMetric)) (angle : value_type) (i : VoxelDir)
    (fixels : list FixelMetric) (j : Z) :
  (Z.of_nat (length (concat mask)) < 2147483648)%Z →
  mask !! vd_voxel i = Some fixels →
  let tp := mask_processor lib voxel2scanner mask angle in
  0 <= angular_threshold_dp tp →
  tangent_fixel lib tp i = Some j →
  (∃ k : nat, (k < length fixels)%nat
              ∧ j = Z.of_nat (fixels_before mask (vd_voxel i) + k))
  ∧ (0 ≤ j < num_fixels (build_fixel_index voxel2scanner mask))%Z.
Proof. exact (mask_tangent_fixel lib voxel2scanner mask angle i fixels j). Qed.

Lemma accepted_fixel_belongs_to_voxel_witness :
  (Z.of_nat (length (concat one_fixel_mask)) < 2147483648)%Z
  ∧ one_fixel_mask !! vd_voxel (along_x 0) = Some [ unit_fixel (1, 0, 0) ]
  ∧ 0 <= angular_threshold_dp (mask_processor qlibm (λ _, origin) one_fixel_mask 30)
  ∧ tangent_fixel qlibm (mask_processor qlibm (λ _, origin) one_fixel_mask 30)
      (along_x 0) = Some 0%Z
  ∧ (0 ≤ 0 < num_fixels (build_fixel_index (λ _, origin) one_fixel_mask))%Z.
Proof.
  assert (Z.of_nat (length (concat one_fixel_mask)) < 2147483648)%Z as Hlt
    by reflexivity.
  assert (0 <= angular_threshold_dp
                 (mask_processor qlibm (λ _, origin) one_fixel_mask 30)) as Hthr
    by (vm_compute; discriminate).
  assert (tangent_fixel qlibm (mask_processor qlibm (λ _, origin) one_fixel_mask 30)
            (along_x 0) = Some 0%Z) as Hacc by (vm_compute; reflexivity).
  split; [ exact Hlt | split; [ reflexivity | split; [ exact Hthr | split; [ exact Hacc | ] ] ] ].
  exact (proj2 (accepted_fixel_belongs_to_voxel qlibm (λ _, origin) one_fixel_mask
                  30 (along_x 0) [ unit_fixel (1, 0, 0) ] 0 Hlt eq_refl Hthr Hacc)).
Defined.

(** X6: a streamline that only crosses voxels of the grid holding no fixel
    changes neither the track densities nor the connectivity matrix. *)
Theorem track_through_empty_voxels (lib : Libm) (voxel2scanner : nat → Point)
    (mask : list (list FixelMetric)) (angle : value_type) (inp : SetVoxelDir)
    (st : list Z * Matrix) :
  (Z.of_nat (length (concat mask)) < 2147483648)%Z →
  let tp := mask_processor lib voxel2scanner mask angle in
  0 <= angular_threshold_dp tp →
  (∀ i, i ∈ inp → mask !! vd_voxel i = Some []) →
  accepted lib tp inp = [] ∧ process_track lib tp st inp = st.
Proof.
  intros Hlt tp Hthr Hempty.
  assert (accepted lib tp inp = []) as Hacc.
  { rewrite accepted_omap. induction inp as [ | i inp IH ]; [ reflexivity | ].
    cbn [omap list_omap].
    destruct (tangent_fixel lib tp i) as [ j | ] eqn:Hj.
    - exfalso.
      destruct (mask_tangent_fixel lib voxel2scanner mask angle i [] j Hlt
                  (Hempty i ltac:(left)) Hthr Hj) as [(k & Hk & _) _].
      cbn in Hk. lia.
    - apply IH. intros i' Hi'. apply Hempty. by right. }
  split; [ exact Hacc | ].
  rewrite process_track_spec, Hacc. by destruct st.
Qed.

Lemma track_through_empty_voxels_witness :
  (Z.of_nat (length (concat mask_with_empty_voxels)) < 2147483648)%Z
  ∧ 0 <= angular_threshold_dp (mask_processor qlibm (λ _, origin) mask_with_empty_voxels 30)
  ∧ (∀ i, i ∈ [ along_x 0; along_y 2 ] → mask_with_empty_voxels !! vd_voxel i = Some [])
  ∧ accepted qlibm (mask_processor qlibm (λ _, origin) mask_with_empty_voxels 30)
      [ along_x 0; along_y 2 ] = [].
Proof.
  assert (Z.of_nat (length (concat mask_with_empty_voxels)) < 2147483648)%Z as Hlt
    by reflexivity.
  assert (0 <= angular_threshold_dp
                 (mask_processor qlibm (λ _, origin) mask_with_empty_voxels 30)) as Hthr
    by (vm_compute; discriminate).
  assert (∀ i, i ∈ [ along_x 0; along_y 2 ]
               → mask_with_empty_voxels !! vd_voxel i = Some []) as Hempty.
  { intros i Hi. apply elem_of_cons in Hi as [ -> | Hi ]; [ reflexivity | ].
    apply elem_of_cons in Hi as [ -> | Hi ]; [ reflexivity | ].
    by apply elem_of_nil in Hi. }
  split; [ exact Hlt | split; [ exact Hthr | split; [ exact Hempty | ] ] ].
  exact (proj1 (track_through_empty_voxels qlibm (λ _, origin) mask_with_empty_voxels 30
                  [ along_x 0; along_y 2 ] ([], []) Hlt Hthr Hempty)).
Defined.

(* ------------------------------------------------------------------ *)
(** ** The raw connectivity matrix of a tractogram *)

Lemma raw_matrix_bumped lib tp tracks (r : nat) c : ∀ M : Matrix,
  (r < length M)%nat →
  let M' := fold_left (λ M inp, accumulate (accepted lib tp inp) M) tracks M in
  length M' = length M
  ∧ bumped (total_pairs lib tp tracks (Z.of_nat r) c) (cell M r c) (cell M' r c).
Proof.
  induction tracks as [ | inp tracks IH ]; intros M Hr; cbn zeta.
  - split; [ reflexivity | apply bumped_zero ].
  - cbn [fold_left]. unfold total_pairs. cbn [sum_list_with].
    destruct (IH (accumulate (accepted lib tp inp) M)) as [Hlen Hb].
    { by rewrite accumulate_length. }
    split; [ by rewrite Hlen, accumulate_length | ].
    eapply bumped_trans; [ by apply accumulate_spec | exact Hb ].
Qed.

(** X7: from an empty matrix, after a whole tractogram the cell [(r, c)]
    holds the number of pairs of positions [i < j] of a streamline with
    accepted fixels [r] at [i] and [c] at [j]; the cell is absent when there
    is no such pair, so that every stored count is at least 1. *)
Theorem raw_matrix_counts_pairs (lib : Libm) (tp : TrackProcessor) (n : nat)
    (tracks : list SetVoxelDir) (r : nat) (c : Z) :
  (r < n)%nat →
  let M := (process_tracks lib tp n tracks).2 in
  let total := total_pairs lib tp tracks (Z.of_nat r) c in
  length M = n
  ∧ (total = 0%nat → cell M r c = None)
  ∧ (total ≠ 0%nat → ∃ v, cell M r c = Some v ∧ value v == inject_Z (Z.of_nat total))
  ∧ (∀ v, cell M r c = Some v → 1 <= value v).
Proof.
  intros Hr. cbn zeta. unfold process_tracks. rewrite process_tracks_fold. cbn [snd].
  destruct (raw_matrix_bumped lib tp tracks r c (replicate n ∅)) as [Hlen [H0 Hpos]].
  { by rewrite length_replicate. }
  rewrite length_replicate in Hlen.
  assert (cell (replicate n (∅ : gmap Z connectivity)) r c = None) as Hempty.
  { unfold cell. rewrite lookup_replicate_2 by done. cbn. apply lookup_empty. }
  rewrite Hempty in H0, Hpos.
  split; [ exact Hlen | split; [ exact H0 | split ] ].
  - intros Hne. destruct (Hpos Hne) as (v & Hv & Hval). exists v. split; [ exact Hv | ].
    rewrite Hval. cbn. ring.
  - intros v Hv.
    destruct (decide (total_pairs lib tp tracks (Z.of_nat r) c = 0%nat)) as [ Hz | Hne ].
    + rewrite (H0 Hz) in Hv. discriminate.
    + destruct (Hpos Hne) as (v' & Hv' & Hval). rewrite Hv in Hv'. injection Hv' as <-.
      rewrite Hval. cbn. rewrite Qplus_0_l.
      rewrite <- (inject_Z_plus 0 1) at 1. rewrite <- Zle_Qle. lia.
Qed.

Lemma raw_matrix_counts_pairs_witness :
  (0 < 3)%nat
  ∧ length (process_tracks qlibm three_fixel_tp 3 tracks_101).2 = 3%nat.
Proof.
  assert (0 < 3)%nat as H by (apply Nat.lt_0_succ).
  split; [ exact H | ].
  exact (proj1 (raw_matrix_counts_pairs qlibm three_fixel_tp 3 tracks_101 0 1%Z H)).
Defined.

(* ------------------------------------------------------------------ *)
(** ** Independence of the order of the streamlines *)

Lemma fold_left_permutation {S A : Type} (f : S → A → S) :
  (∀ s a b, f (f s a) b = f (f s b) a) →
  ∀ l1 l2, l1 ≡ₚ l2 → ∀ s, fold_left f l1 s = fold_left f l2 s.
Proof.
  intros Hcomm l1 l2 Hperm.
  induction Hperm as [ | x l1 l2 _ IH | x y l | l1 l2 l3 _ IH1 _ IH2 ]; intros s.
  - reflexivity.
  - cbn. apply IH.
  - cbn. by rewrite Hcomm.
  - by rewrite IH1.
Qed.

Lemma vec_alter_comm {A : Type} (f g : A → A) (i j : Z) (v : list A) :
  (i = j → ∀ x, f (g x) = g (f x)) →
  vec_alter f i (vec_alter g j v) = vec_alter g j (vec_alter f i v).
Proof.
  intros Hfg. unfold vec_alter.
  destruct (Z.leb_spec 0 i), (Z.leb_spec 0 j); try reflexivity.
  destruct (decide (Z.to_nat i = Z.to_nat j)) as [ Heq | Hne ].
  - rewrite Heq, !list_alter_alter_eq. apply list_alter_ext; [ | reflexivity ].
    intros x _. cbn. apply Hfg. lia.
  - by apply list_alter_alter_ne.
Qed.

Lemma TDI_increment_comm j k fixel_TDI :
  TDI_increment j (TDI_increment k fixel_TDI) = TDI_increment k (TDI_increment j fixel_TDI).
Proof. unfold TDI_increment. by apply vec_alter_comm. Qed.

Lemma increment_cell_comm a b a' b' (M : Matrix) :
  increment_cell a b (increment_cell a' b' M) = increment_cell a' b' (increment_cell a b M).
Proof.
  unfold increment_cell. apply vec_alter_comm. intros _ row.
  destruct (decide (b = b')) as [ -> | Hne ]; [ reflexivity | ].
  rewrite !lookup_insert_ne by done. by apply insert_insert_ne.
Qed.

Lemma inner_loop_pairs a rest : ∀ M : Matrix,
  fold_left (λ M b, increment_cell a b M) rest M
  = fold_left (λ M (p : Z * Z), increment_cell p.1 p.2 M) (pair a <$> rest) M.
Proof. induction rest as [ | b rest IH ]; intros M; [ reflexivity | ]. cbn. apply IH. Qed.

Lemma accumulate_pairs L : ∀ M : Matrix,
  accumulate L M = fold_left (λ M (p : Z * Z), increment_cell p.1 p.2 M) (pairs_of L) M.
Proof.
  induction L as [ | a rest IH ]; intros M; [ reflexivity | ].
  cbn [accumulate pairs_of]. by rewrite fold_left_app, IH, inner_loop_pairs.
Qed.

Lemma process_track_comm lib tp st inp1 inp2 :
  process_track lib tp (process_track lib tp st inp1) inp2
  = process_track lib tp (process_track lib tp st inp2) inp1.
Proof.
  rewrite !process_track_spec. cbn [fst snd]. f_equal.
  - rewrite <- !fold_left_app.
    apply fold_left_permutation; [ | apply Permutation_app_comm ].
    intros t j k. apply TDI_increment_comm.
  - rewrite !accumulate_pairs, <- !fold_left_app.
    apply fold_left_permutation; [ | apply Permutation_app_comm ].
    intros M p q. apply increment_cell_comm.
Qed.

(** X8: the track densities and the raw connectivity matrix do not depend
    on the order in which the streamlines are processed. *)
Theorem process_tracks_any_order (lib : Libm) (tp : TrackProcessor) (n : nat)
    (tracks tracks' : list SetVoxelDir) :
  tracks ≡ₚ tracks' →
  process_tracks lib tp n tracks = process_tracks lib tp n tracks'.
Proof.
  intros Hperm. unfold process_tracks.
  apply fold_left_permutation; [ | exact Hperm ].
  intros st inp1 inp2. apply process_track_comm.
Qed.

Lemma process_tracks_any_order_witness :
  [ [ along_x 0; along_y 1 ]; [ along_x 0; along_z 2 ] ]
  ≡ₚ [ [ along_x 0; along_z 2 ]; [ along_x 0; along_y 1 ] ]
  ∧ process_tracks qlibm three_fixel_tp 3 [ [ along_x 0; along_y 1 ]; [ along_x 0; along_z 2 ] ]
    = process_tracks qlibm three_fixel_tp 3 [ [ along_x 0; along_z 2 ]; [ along_x 0; along_y 1 ] ].
Proof.
  assert ([ [ along_x 0; along_y 1 ]; [ along_x 0; along_z 2 ] ]
          ≡ₚ [ [ along_x 0; along_z 2 ]; [ along_x 0; along_y 1 ] ]) as Hperm
    by apply perm_swap.
  split; [ exact Hperm | ].
  exact (process_tracks_any_order qlibm three_fixel_tp 3 _ _ Hperm).
Defined.

(* ------------------------------------------------------------------ *)
(** ** Symmetrisation, continued *)

Lemma symmetrise_cell_any (M : Matrix) (r : nat) (c : Z) :
  (r < length M)%nat →
  cell (symmetrise M) r c
  = if decide (0 ≤ c < Z.of_nat (length M))%Z
    then symmetrised_cell M r (Z.to_nat c)
    else cell M r c.
Proof.
  intros Hr. unfold symmetrise.
  destruct (symmetrise_prefix M (length M) (le_n _)) as [_ Hcells].
  by apply Hcells.
Qed.

(** X9: symmetrisation keeps every entry of the upper triangle and mirrors
    it below the diagonal, overwriting what was there; an entry of the lower
    triangle whose mirror is absent is kept and mirrored above; the diagonal
    is left as it is. *)
Theorem symmetrise_mirrors (M : Matrix) (i j : nat) :
  (i < j)%nat → (j < length M)%nat →
  (∀ v, cell M i (Z.of_nat j) = Some v →
        cell (symmetrise M) i (Z.of_nat j) = Some v
        ∧ cell (symmetrise M) j (Z.of_nat i) = Some v)
  ∧ (cell M i (Z.of_nat j) = None →
     cell (symmetrise M) i (Z.of_nat j) = cell M j (Z.of_nat i)
     ∧ cell (symmetrise M) j (Z.of_nat i) = cell M j (Z.of_nat i))
  ∧ cell (symmetrise M) i (Z.of_nat i) = cell M i (Z.of_nat i).
Proof.
  intros Hij Hj. rewrite !symmetrise_spec by lia. unfold symmetrised_cell.
  rewrite !(decide_False (P := i = j)), !(decide_False (P := j = i)) by lia.
  rewrite decide_True by done.
  destruct (Nat.ltb_spec i j); [ | lia ]. destruct (Nat.ltb_spec j i); [ lia | ].
  split; [ | split; [ | reflexivity ] ].
  - intros v ->. by split.
  - intros ->. by split.
Qed.

Lemma symmetrise_mirrors_witness :
  (0 < 1)%nat ∧ (1 < length tracks_101_raw)%nat
  ∧ cell (symmetrise tracks_101_raw) 0 (Z.of_nat 0) = cell tracks_101_raw 0 (Z.of_nat 0).
Proof.
  assert (0 < 1)%nat as H0 by apply Nat.lt_0_succ.
  assert (1 < length tracks_101_raw)%nat as H1
    by (cbn; apply -> Nat.succ_lt_mono; apply Nat.lt_0_succ).
  split; [ exact H0 | split; [ exact H1 | ] ].
  exact (proj2 (proj2 (symmetrise_mirrors tracks_101_raw 0 1 H0 H1))).
Defined.

Lemma symmetrised_cell_symmetrise (M : Matrix) (r c : nat) :
  (r < length M)%nat → (c < length M)%nat →
  symmetrised_cell (symmetrise M) r c = symmetrised_cell M r c.
Proof.
  intros Hr Hc. unfold symmetrised_cell at 1.
  rewrite !symmetrise_spec by done.
  destruct (decide (r = c)) as [ -> | Hne ].
  - reflexivity.
  - rewrite (symmetrised_cell_sym M c r) by done.
    destruct (r <? c)%nat; by destruct (symmetrised_cell M r c).
Qed.

(** X10: symmetrising a second time changes nothing. *)
Theorem symmetrise_idempotent (M : Matrix) : symmetrise (symmetrise M) = symmetrise M.
Proof.
  apply list_eq. intros r.
  destruct (decide (r < length M)%nat) as [ Hr | Hr ].
  - assert (r < length (symmetrise M))%nat as Hr' by (by rewrite symmetrise_length).
    destruct (lookup_lt_is_Some_2 (symmetrise M) r Hr') as [row Hrow].
    destruct (lookup_lt_is_Some_2 (symmetrise (symmetrise M)) r) as [row' Hrow'].
    { by rewrite symmetrise_length. }
    rewrite Hrow, Hrow'. f_equal. apply map_eq. intros c.
    pose proof (symmetrise_cell_any (symmetrise M) r c Hr') as Hcell.
    unfold cell at 1 in Hcell. rewrite Hrow' in Hcell. cbn in Hcell. rewrite Hcell.
    rewrite symmetrise_length.
    pose proof (symmetrise_cell_any M r c Hr) as Hcell0.
    unfold cell at 1 in Hcell0. rewrite Hrow in Hcell0. cbn in Hcell0.
    destruct (decide (0 ≤ c < Z.of_nat (length M))%Z) as [ Hc | Hc ].
    + rewrite symmetrised_cell_symmetrise by lia. by rewrite Hcell0.
    + unfold cell. by rewrite Hrow.
  - rewrite !(proj2 (lookup_ge_None _ _)); [ reflexivity | | ];
      rewrite ?symmetrise_length; lia.
Qed.

(* ------------------------------------------------------------------ *)
(** ** The finalised neighbourhood *)

(** X11: after finalisation every fixel is its own neighbour: the diagonal
    entry is present in every row, and it is 1 whenever the raw matrix had
    no diagonal entry there. *)
Theorem finalised_diagonal_present (lib : Libm) (c : Config) (fixel_TDI : list Z)
    (raw : Matrix) (i : nat) :
  (i < length raw)%nat →
  ∃ w, weight (finalised_matrix lib c fixel_TDI raw) i (Z.of_nat i) = Some w
       ∧ (cell raw i (Z.of_nat i) = None → w = Finite 1.0).
Proof.
  intros Hi. unfold finalised_matrix.
  rewrite finalise_connectivity_cell, decide_True by done.
  assert (i < length (symmetrise raw))%nat as Hi' by (by rewrite symmetrise_length).
  destruct (lookup_lt_is_Some_2 _ _ Hi') as [row ->]. cbn [fmap option_fmap option_map].
  eexists. split; [ reflexivity | ].
  intros Hnone. rewrite symmetrise_spec by done.
  unfold symmetrised_cell. rewrite decide_True by done. rewrite Hnone. reflexivity.
Qed.

Lemma finalised_diagonal_present_witness :
  (0 < length tracks_101_raw)%nat
  ∧ ∃ w, weight (finalised_matrix qlibm (read_options threshold_005) tracks_101_TDI
                   tracks_101_raw) 0 (Z.of_nat 0) = Some w
         ∧ (cell tracks_101_raw 0 (Z.of_nat 0) = None → w = Finite 1.0).
Proof.
  assert (0 < length tracks_101_raw)%nat as H by (cbn; apply Nat.lt_0_succ).
  split; [ exact H | ].
  exact (finalised_diagonal_present qlibm (read_options threshold_005) tracks_101_TDI
           tracks_101_raw 0 H).
Defined.

(** X12: thresholding removes the weak edges and adds none.  Off the
    diagonal, a cell that is absent after symmetrisation is absent after
    finalisation.  For a row whose track density is not zero, [j] is a
    neighbour of [i] after finalisation exactly when the symmetrised matrix
    holds a count for [(i, j)] whose ratio to [TDI[i]] is not below the
    threshold, and the stored weight is that ratio raised to [cfe_c].  For a
    row whose track density is zero the float quotient of a positive count is
    [+inf]: the edge is kept whatever the threshold, with the power of
    [+inf]. *)
Theorem finalised_edges_pass_threshold (lib : Libm) (c : Config) (fixel_TDI : list Z)
    (raw : Matrix) (i j : nat) :
  (i < length raw)%nat → (j < length raw)%nat → i ≠ j →
  (cell (symmetrise raw) i (Z.of_nat j) = None →
   weight (finalised_matrix lib c fixel_TDI raw) i (Z.of_nat j) = None)
  ∧ (nth i fixel_TDI 0%Z ≠ 0%Z →
     ∀ w, weight (finalised_matrix lib c fixel_TDI raw) i (Z.of_nat j) = Some w
          ↔ ∃ v, cell (symmetrise raw) i (Z.of_nat j) = Some v
                 ∧ connectivity_threshold c <= value v / inject_Z (nth i fixel_TDI 0%Z)
                 ∧ w = Finite (fpow lib (value v / inject_Z (nth i fixel_TDI 0%Z))
                                    (cfe_c c)))
  ∧ (nth i fixel_TDI 0%Z = 0%Z →
     ∀ v, cell (symmetrise raw) i (Z.of_nat j) = Some v → 0 < value v →
          weight (finalised_matrix lib c fixel_TDI raw) i (Z.of_nat j)
          = Some (fp_pow lib PlusInfinity (cfe_c c))).
Proof.
  intros Hi Hj Hne. rewrite finalised_matrix_cell, symmetrise_spec by done.
  split; [ | split ].
  - intros ->. reflexivity.
  - intros HTDI w. destruct (symmetrised_cell raw i j) as [ v | ]; cbn.
    + rewrite threshold_entry_finite by exact HTDI.
      destruct (Qltb _ (connectivity_threshold c)) eqn:Hlt.
      * split; [ discriminate | ]. intros (v' & [= <-] & Hge & _).
        apply Qltb_lt in Hlt. exfalso. apply (Qlt_irrefl (connectivity_threshold c)).
        by eapply Qle_lt_trans.
      * apply Qltb_ge in Hlt. split.
        -- intros [= <-]. by exists v.
        -- intros (v' & [= <-] & _ & ->). reflexivity.
    + split; [ discriminate | ]. intros (v & Hv & _). discriminate.
  - intros HTDI v -> Hpos. cbn. by apply threshold_entry_infinite.
Qed.

(** In the three-fixel example fixel 1 stays a neighbour of fixel 0, with
    the weight [(100 / 101) ^ cfe_c]. *)
Lemma finalised_edges_pass_threshold_witness :
  (0 < length tracks_101_raw)%nat ∧ (1 < length tracks_101_raw)%nat ∧ 0%nat ≠ 1%nat
  ∧ nth 0 tracks_101_TDI 0%Z ≠ 0%Z
  ∧ weight (finalised_matrix qlibm (read_options threshold_005) tracks_101_TDI
              tracks_101_raw) 0 (Z.of_nat 1)
    = Some (Finite (fpow qlibm (100 / inject_Z 101) (cfe_c (read_options threshold_005)))).
Proof.
  assert (0 < length tracks_101_raw)%nat as H0 by (cbn; apply Nat.lt_0_succ).
  assert (1 < length tracks_101_raw)%nat as H1
    by (cbn; apply -> Nat.succ_lt_mono; apply Nat.lt_0_succ).
  assert (0%nat ≠ 1%nat) as Hne by discriminate.
  assert (nth 0 tracks_101_TDI 0%Z ≠ 0%Z) as HTDI by discriminate.
  split; [ exact H0 | split; [ exact H1 | split; [ exact Hne | split; [ exact HTDI | ] ] ] ].
  apply (proj1 (proj2 (finalised_edges_pass_threshold qlibm (read_options threshold_005)
                         tracks_101_TDI tracks_101_raw 0 1 H0 H1 Hne)) HTDI).
  exists {| value := 100 |}.
  split; [ vm_compute; reflexivity | split; [ vm_compute; discriminate | reflexivity ] ].
Defined.

(** X13: every fixel that smooths into [i] is a neighbour of [i]: a key of
    row [i] of the normalised smoothing weights is a key of row [i] of the
    finalised connectivity matrix. *)
Theorem smoothing_support_in_neighbourhood (lib : Libm) (c : Config) (fixel_TDI : list Z)
    (positions : list Point) (raw : Matrix) (i : nat) (row : gmap Z fp) (k : Z) :
  smoothing_weights lib c fixel_TDI positions raw !! i = Some row →
  is_Some (row !! k) →
  is_Some (weight (finalised_matrix lib c fixel_TDI raw) i k).
Proof.
  unfold smoothing_weights, raw_smoothing_weights, finalised_matrix.
  rewrite list_lookup_fmap, list_lookup_imap, finalise_connectivity_cell.
  destruct (symmetrise raw !! i) as [ r | ] eqn:Hr; [ cbn | discriminate ].
  intros [= <-]. unfold normalise_row. rewrite lookup_fmap, insert_new_lookup.
  destruct (decide (k = Z.of_nat i)) as [ -> | Hne ]; [ by eauto | ].
  unfold smoothing_row. destruct (do_smoothing c).
  - rewrite map_lookup_imap. unfold cell. rewrite Hr. cbn [mbind option_bind].
    destruct (r !! k) as [ v | ]; cbn [mbind option_bind fmap option_fmap option_map];
      [ | by intros [? [=]] ].
    unfold threshold_entry. cbn zeta.
    destruct (fp_lt (row_connectivity fixel_TDI i v) (Finite (connectivity_threshold c)));
      [ by intros [? [=]] | by eauto ].
  - rewrite lookup_empty. by intros [? [=]].
Qed.

(** The three-fixel example smoothed with the default kernel: fixel 1
    smooths into fixel 0. *)
Lemma tracks_101_row :
  ∃ row, smoothing_weights qlibm (read_options threshold_005) tracks_101_TDI
           (positions three_fixel_index) tracks_101_raw !! 0%nat = Some row
         ∧ is_Some (row !! 1%Z).
Proof.
  eexists. split; [ vm_compute; reflexivity | ]. eexists. vm_compute. reflexivity.
Defined.

Lemma smoothing_support_in_neighbourhood_witness :
  ∃ row, smoothing_weights qlibm (read_options threshold_005) tracks_101_TDI
           (positions three_fixel_index) tracks_101_raw !! 0%nat = Some row
         ∧ is_Some (row !! 1%Z)
         ∧ is_Some (weight (finalised_matrix qlibm (read_options threshold_005)
                              tracks_101_TDI tracks_101_raw) 0 1%Z).
Proof.
  destruct tracks_101_row as (row & Hrow & Hk).
  exists row. split; [ exact Hrow | split; [ exact Hk | ] ].
  exact (smoothing_support_in_neighbourhood qlibm (read_options threshold_005) tracks_101_TDI
           (positions three_fixel_index) tracks_101_raw 0 row 1%Z Hrow Hk).
Defined.

(* ------------------------------------------------------------------ *)
(** ** Smoothing as a weighted mean *)

Lemma weighted_sum_bounds (t : Z → Q) (lo hi : Q) (l : list (Z * Q)) :
  Forall (λ kw, 0 <= kw.2 ∧ lo <= t kw.1 <= hi) l →
  let total := foldr (λ kw s, s + kw.2) 0.0 l in
  let mean := foldr (λ kw s, s + t kw.1 * kw.2) 0.0 l in
  lo * total <= mean ∧ mean <= hi * total.
Proof.
  induction 1 as [ | [k w] l [Hw [Hlo Hhi]] _ IH ]; cbn zeta.
  - cbn. split; ring_simplify; discriminate.
  - cbn [foldr fst snd] in *. destruct IH as [IHlo IHhi].
    assert (lo * w <= t k * w) by (by apply Qmult_le_compat_r).
    assert (t k * w <= hi * w) by (by apply Qmult_le_compat_r).
    split.
    + rewrite Qmult_plus_distr_r. by apply Qplus_le_compat.
    + rewrite Qmult_plus_distr_r. by apply Qplus_le_compat.
Qed.

(** The smoothing loop over a row of finite weights is a sum of rationals. *)
Lemma smooth_fixel_finite (temp_fixel_data : list value_type) (ws : gmap Z Q) :
  smooth_fixel temp_fixel_data (Finite <$> ws)
  = Finite (foldr (λ (kw : Z * Q) s, s + vec_get temp_fixel_data kw.1 0 * kw.2) 0.0
                  (map_to_list ws)).
Proof.
  unfold smooth_fixel. rewrite map_fold_fmap, map_fold_foldr.
  generalize (map_to_list ws). intros l.
  induction l as [ | [k w] l IH ]; [ reflexivity | ].
  cbn [foldr uncurry compose fst snd] in *. rewrite IH. reflexivity.
Qed.

Lemma smooth_fixel_bounds (temp_fixel_data : list value_type) (ws : gmap Z Q)
    (lo hi : Q) :
  (∀ k w, ws !! k = Some w → 0 <= w) →
  Qsum ((map_to_list ws).*2) == 1 →
  (∀ k, is_Some (ws !! k) → lo <= vec_get temp_fixel_data k 0 <= hi) →
  ∃ x, smooth_fixel temp_fixel_data (Finite <$> ws) = Finite x ∧ lo <= x <= hi.
Proof.
  intros Hpos Hsum Hrange. rewrite smooth_fixel_finite.
  eexists. split; [ reflexivity | ].
  assert (foldr (λ (kw : Z * Q) s, s + kw.2) 0.0 (map_to_list ws)
          == Qsum ((map_to_list ws).*2)) as Htot.
  { unfold Qsum. generalize (map_to_list ws). intros l.
    induction l as [ | [k w] l IH ]; [ reflexivity | ].
    cbn [foldr fmap list_fmap snd]. rewrite IH. ring. }
  pose proof (weighted_sum_bounds (λ k, vec_get temp_fixel_data k 0) lo hi (map_to_list ws))
    as Hb.
  cbn zeta in Hb.
  rewrite Htot, Hsum, !Qmult_1_r in Hb. apply Hb.
  apply Forall_forall. intros [k w] Hkw. apply elem_of_map_to_list in Hkw. cbn.
  split; [ by eapply Hpos | apply Hrange; by eexists ].
Qed.

(** X14: smoothing is a weighted mean.  For a fixel [i] whose track density
    is not zero where a count of its row is divided by it, the smoothed value
    is finite and lies between the smallest and the largest of the subject
    values of the fixels that smooth into [i] (so a constant map is left
    unchanged). *)
Theorem smoothed_value_within_range (lib : Libm) (c : Config) (fixel_TDI : list Z)
    (positions : list Point) (raw : Matrix) (i : nat) (row : gmap Z fp)
    (temp_fixel_data : list value_type) (lo hi : Q) :
  0 <= connectivity_threshold c →
  0 < fsqrt lib (2.0 * M_PI) →
  (∀ k, is_Some (cell (symmetrise raw) i k) → nth i fixel_TDI 0%Z ≠ 0%Z) →
  smoothing_weights lib c fixel_TDI positions raw !! i = Some row →
  (∀ k, is_Some (row !! k) → lo <= vec_get temp_fixel_data k 0 <= hi) →
  ∃ x, smooth_fixel temp_fixel_data row = Finite x ∧ lo <= x <= hi.
Proof.
  intros Hthr Hsqrt HTDI Hrow Hrange.
  assert (i < length raw)%nat as Hi.
  { apply lookup_lt_Some in Hrow. unfold smoothing_weights, raw_smoothing_weights in Hrow.
    by rewrite length_fmap, length_imap, symmetrise_length in Hrow. }
  destruct (normalised_row_stochastic lib c fixel_TDI positions Hthr Hsqrt raw i Hi HTDI)
    as (ws & Hws & _ & Hpos & Hsum).
  rewrite Hrow in Hws. injection Hws as ->.
  apply smooth_fixel_bounds; [ exact Hpos | exact Hsum | ].
  intros k Hk. apply Hrange. rewrite lookup_fmap. by apply fmap_is_Some.
Qed.

(** The three-fixel example smoothed with the default kernel: the subject
    values 1 and 3 of fixels 0 and 1 are averaged into fixel 0. *)
Lemma smoothed_value_within_range_witness :
  0 <= connectivity_threshold (read_options threshold_005)
  ∧ 0 < fsqrt qlibm (2.0 * M_PI)
  ∧ (∀ k, is_Some (cell (symmetrise tracks_101_raw) 0 k) → nth 0 tracks_101_TDI 0%Z ≠ 0%Z)
  ∧ ∃ row, smoothing_weights qlibm (read_options threshold_005) tracks_101_TDI
             (positions three_fixel_index) tracks_101_raw !! 0%nat = Some row
           ∧ is_Some (row !! 1%Z)
           ∧ (∀ k, is_Some (row !! k) → 0 <= vec_get [ 1; 3; 2 ] k 0 <= 3)
           ∧ ∃ x, smooth_fixel [ 1; 3; 2 ] row = Finite x ∧ 0 <= x <= 3.
Proof.
  assert (0 <= connectivity_threshold (read_options threshold_005)) as Hthr
    by (vm_compute; discriminate).
  assert (0 < fsqrt qlibm (2.0 * M_PI)) as Hsqrt by (vm_compute; reflexivity).
  assert (∀ k, is_Some (cell (symmetrise tracks_101_raw) 0 k)
               → nth 0 tracks_101_TDI 0%Z ≠ 0%Z) as HTDI
    by (intros k _; discriminate).
  assert (∀ k, 0 <= vec_get [ 1; 3; 2 ] k 0 <= 3) as Hall.
  { intros k. unfold vec_get. destruct (0 <=? k)%Z; [ | split; discriminate ].
    destruct (Z.to_nat k) as [ | [ | [ | [ | n ] ] ] ]; cbn; split; discriminate. }
  split; [ exact Hthr | split; [ exact Hsqrt | split; [ exact HTDI | ] ] ].
  destruct tracks_101_row as (row & Hrow & Hk).
  exists row. split; [ exact Hrow | split; [ exact Hk | split; [ intros k _; apply Hall | ] ] ].
  exact (smoothed_value_within_range qlibm (read_options threshold_005) tracks_101_TDI
           (positions three_fixel_index) tracks_101_raw 0 row [ 1; 3; 2 ] 0 3
           Hthr Hsqrt HTDI Hrow (λ k _, Hall k)).
Defined.

(* ------------------------------------------------------------------ *)
(** ** The subject loader *)

Section SubjectLoader.
Variable dirs : list Point.
Variable threshold_dp : value_type.



End SubjectLoader.

Section SubjectVoxels.
Variable fi : FixelIndex.
Variable threshold_dp : value_type.


End SubjectVoxels.




Lemma closest_subject_fixel_snoc direction sv fx :
  closest_subject_fixel direction (sv ++ [ fx ])
  = (let '(largest_dp, index_of_closest_fixel) := closest_subject_fixel direction sv in
     if Qltb largest_dp (subject_dp direction fx)
     then (subject_dp direction fx, Z.of_nat (length sv))
     else (largest_dp, index_of_closest_fixel)).
Proof.
  unfold closest_subject_fixel. rewrite imap_app, fold_left_app. cbn [imap fold_left].
  destruct (fold_left _ (imap pair sv) _) as [l idx].
  by rewrite Nat.add_0_r.
Qed.

(** X16: the scan of a subject voxel returns the first of its fixels of
    largest [|direction . dir|], this product being positive; when no fixel
    has a positive product (an empty voxel among others) it returns -1 with
    the product 0. *)
Theorem closest_subject_fixel_is_first_maximum (direction : Point)
    (subject_voxel : list FixelMetric) :
  let '(largest_dp, index_of_closest_fixel) :=
    closest_subject_fixel direction subject_voxel in
  (index_of_closest_fixel = (-1)%Z ∧ largest_dp = 0.0
   ∧ ∀ f fx, subject_voxel !! f = Some fx → subject_dp direction fx == 0)
  ∨ (∃ (f : nat) fx,
       index_of_closest_fixel = Z.of_nat f ∧ subject_voxel !! f = Some fx
       ∧ largest_dp = subject_dp direction fx ∧ 0 < largest_dp
       ∧ (∀ f' fx', subject_voxel !! f' = Some fx' → subject_dp direction fx' <= largest_dp)
       ∧ (∀ f' fx', (f' < f)%nat → subject_voxel !! f' = Some fx' →
                    subject_dp direction fx' < largest_dp)).
Proof.
  induction subject_voxel as [ | x sv IH ] using rev_ind.
  - left. split; [ reflexivity | split; [ reflexivity | ] ]. intros f fx Hf. discriminate.
  - rewrite closest_subject_fixel_snoc.
    destruct (closest_subject_fixel direction sv) as [l idx].
    assert (∀ f' fx', (sv ++ [ x ]) !! f' = Some fx' →
                      sv !! f' = Some fx' ∨ (f' = length sv ∧ fx' = x)) as Hcases.
    { intros f' fx' Hf'. apply lookup_app_Some in Hf' as [ Hf' | [Hge Hf'] ]; [ by left | ].
      right. apply list_lookup_singleton_Some in Hf' as [Heq <-]. split; [ lia | reflexivity ]. }
    destruct (Qltb l (subject_dp direction x)) eqn:Hlt.
    + apply Qltb_lt in Hlt. right. exists (length sv), x.
      split; [ reflexivity | split; [ by rewrite list_lookup_middle | split; [ reflexivity | ] ] ].
      destruct IH as [ (-> & -> & Hzero) | (f & fx & -> & Hf & -> & Hpos & Hmax & Hfirst) ].
      * assert (0.0 == 0) as Hz by reflexivity. rewrite Hz in Hlt.
        split; [ exact Hlt | split ].
        -- intros f' fx' Hf'. destruct (Hcases f' fx' Hf') as [ Hf'' | [_ ->] ].
           ++ rewrite (Hzero f' fx' Hf''). by apply Qlt_le_weak.
           ++ apply Qle_refl.
        -- intros f' fx' Hlt' Hf'. destruct (Hcases f' fx' Hf') as [ Hf'' | [-> _] ]; [ | lia ].
           by rewrite (Hzero f' fx' Hf'').
      * split; [ by eapply Qlt_trans | split ].
        -- intros f' fx' Hf'. destruct (Hcases f' fx' Hf') as [ Hf'' | [_ ->] ].
           ++ apply Qlt_le_weak. eapply Qle_lt_trans; [ by eapply Hmax | exact Hlt ].
           ++ apply Qle_refl.
        -- intros f' fx' Hlt' Hf'. destruct (Hcases f' fx' Hf') as [ Hf'' | [-> _] ]; [ | lia ].
           eapply Qle_lt_trans; [ by eapply Hmax | exact Hlt ].
    + apply Qltb_ge in Hlt.
      destruct IH as [ (-> & -> & Hzero) | (f & fx & -> & Hf & -> & Hpos & Hmax & Hfirst) ].
      * assert (0.0 == 0) as Hz by reflexivity. rewrite Hz in Hlt.
        left. split; [ reflexivity | split; [ reflexivity | ] ].
        intros f' fx' Hf'. destruct (Hcases f' fx' Hf') as [ Hf'' | [_ ->] ].
        -- by eapply Hzero.
        -- apply Qle_antisym; [ exact Hlt | apply Qabs_nonneg ].
      * right. exists f, fx.
        split; [ reflexivity | split; [ by apply lookup_app_l_Some | split; [ reflexivity | ] ] ].
        split; [ exact Hpos | split ].
        -- intros f' fx' Hf'. destruct (Hcases f' fx' Hf') as [ Hf'' | [_ ->] ].
           ++ by eapply Hmax.
           ++ exact Hlt.
        -- intros f' fx' Hlt' Hf'. destruct (Hcases f' fx' Hf') as [ Hf'' | [-> _] ].
           ++ by eapply Hfirst.
           ++ apply lookup_lt_Some in Hf. lia.
Qed.

(* ------------------------------------------------------------------ *)
(** ** The output writer *)

Lemma write_fixels_geometry data fixels : ∀ index,
  geometry <$> write_fixels data index fixels = geometry <$> fixels.
Proof.
  induction fixels as [ | fx fixels IH ]; intros index; [ reflexivity | ].
  cbn [write_fixels fmap list_fmap]. f_equal. apply IH.
Qed.

Lemma write_fixels_length data fixels : ∀ index,
  length (write_fixels data index fixels) = length fixels.
Proof.
  induction fixels as [ | fx fixels IH ]; intros index; [ reflexivity | ].
  cbn [write_fixels length]. by rewrite IH.
Qed.

(** X17: whatever the data and the index image, the image written has the
    voxels of the mask, each with as many fixels as in the mask, and every
    fixel keeps its direction and its size. *)
Theorem written_image_keeps_geometry (data : list value_type)
    (mask : list (list FixelMetric)) (indexer : IndexImage) :
  (λ fixels : list FixelMetric, geometry <$> fixels) <$> write_fixel_output data mask indexer
  = (λ fixels : list FixelMetric, geometry <$> fixels) <$> mask
  ∧ (λ fixels : list FixelMetric, length fixels) <$> write_fixel_output data mask indexer
    = (λ fixels : list FixelMetric, length fixels) <$> mask.
Proof.
  unfold write_fixel_output. split; apply list_eq; intros v;
    rewrite !list_lookup_fmap, list_lookup_imap;
    (destruct (mask !! v) as [ fixels | ]; [ cbn | reflexivity ]); f_equal.
  - apply write_fixels_geometry.
  - apply write_fixels_length.
Qed.

Lemma write_fixels_values data fixels : ∀ off : nat,
  (Z.of_nat off + Z.of_nat (length fixels) < 2147483648)%Z →
  fixel_value <$> write_fixels data (Z.of_nat off) fixels
  = (λ p, nth p data 0) <$> seq off (length fixels).
Proof.
  induction fixels as [ | fx fixels IH ]; intros off Hlt; [ reflexivity | ].
  cbn [write_fixels fmap list_fmap length seq] in *. f_equal.
  - by rewrite vec_get_of_nat.
  - rewrite to_int32_small by lia.
    replace (Z.of_nat off + 1)%Z with (Z.of_nat (S off)) by lia.
    apply IH. lia.
Qed.

Lemma write_voxels_values data (index : nat → Z) mask : ∀ (v0 off : nat),
  (Z.of_nat off + Z.of_nat (length (concat mask)) < 2147483648)%Z →
  (∀ k fixels, mask !! k = Some fixels →
     index (v0 + k)%nat = Z.of_nat (off + length (concat (take k mask)))) →
  fixel_value <$> concat (imap (λ k fixels, write_fixels data (index (v0 + k)%nat) fixels) mask)
  = (λ p, nth p data 0) <$> seq off (length (concat mask)).
Proof.
  induction mask as [ | fixels mask IH ]; intros v0 off Hlt Hindex; [ reflexivity | ].
  cbn [imap concat] in *. rewrite length_app in Hlt.
  rewrite fmap_app, length_app, seq_app, fmap_app. f_equal.
  - rewrite (Hindex 0%nat fixels eq_refl). cbn [take concat length].
    rewrite Nat.add_0_r. apply write_fixels_values. lia.
  - erewrite imap_ext.
    + apply (IH (S v0) (off + length fixels)%nat); [ lia | ].
      intros k fx Hk. replace (S v0 + k)%nat with (v0 + S k)%nat by lia.
      rewrite (Hindex (S k) fx Hk). cbn [take concat]. rewrite length_app. f_equal. lia.
    + intros k fx Hk. cbn. by replace (v0 + S k)%nat with (S v0 + k)%nat by lia.
Qed.

(** X18: written with the index built from the mask, the values of the
    image, read in scan order, are the data vector: fixel [first_fixel (v) +
    k] of the table is written to the [k]-th fixel of voxel [v]. *)
Theorem written_values_are_data (voxel2scanner : nat → Point) (data : list value_type)
    (mask : list (list FixelMetric)) :
  (Z.of_nat (length (concat mask)) < 2147483648)%Z →
  length data = length (concat mask) →
  let fi := build_fixel_index voxel2scanner mask in
  fixel_value <$> concat (write_fixel_output data mask (fixel_indexer fi)) = data.
Proof.
  intros Hlt Hlen. cbn zeta. unfold write_fixel_output.
  pose proof (write_voxels_values data
                (plane0 (fixel_indexer (build_fixel_index voxel2scanner mask))) mask 0 0)
    as Hw.
  cbn [Nat.add] in Hw. rewrite Hw.
  - rewrite <- Hlen. apply list_eq. intros p.
    rewrite list_lookup_fmap.
    destruct (decide (p < length data)%nat) as [ Hp | Hp ].
    + rewrite lookup_seq_lt by done. cbn.
      destruct (lookup_lt_is_Some_2 data p Hp) as [x Hx].
      by rewrite (nth_lookup_Some _ _ _ _ Hx).
    + rewrite lookup_seq_ge by lia. cbn. symmetry. apply lookup_ge_None. lia.
  - lia.
  - intros k fixels Hk.
    by destruct (build_fixel_index_spec voxel2scanner mask k fixels Hlt Hk) as (-> & _).
Qed.

Lemma written_values_are_data_witness :
  (Z.of_nat (length (concat mask_with_empty_voxels)) < 2147483648)%Z
  ∧ length [ 7 ] = length (concat mask_with_empty_voxels)
  ∧ fixel_value <$> concat (write_fixel_output [ 7 ] mask_with_empty_voxels
                              (fixel_indexer (build_fixel_index (λ _, origin)
                                                mask_with_empty_voxels)))
    = [ 7 ].
Proof.
  assert (Z.of_nat (length (concat mask_with_empty_voxels)) < 2147483648)%Z as Hlt
    by reflexivity.
  split; [ exact Hlt | split; [ reflexivity | ] ].
  exact (written_values_are_data (λ _, origin) [ 7 ] mask_with_empty_voxels Hlt eq_refl).
Defined.

(* ------------------------------------------------------------------ *)
(** ** The checks of a run *)

Lemma read_filenames_spec lines : ∀ filenames,
  (Forall (λ l : string * bool, l.2 = true) lines
   → read_filenames lines filenames = inr (filenames ++ lines.*1))
  ∧ (∀ files, read_filenames lines filenames = inr files
              → Forall (λ l : string * bool, l.2 = true) lines).
Proof.
  induction lines as [ | [f e] lines IH ]; intros filenames.
  - split; [ intros _; cbn; by rewrite app_nil_r | intros; constructor ].
  - cbn [read_filenames]. destruct e.
    + destruct (IH (filenames ++ [ f ])) as [IH1 IH2]. split.
      * intros Hall. apply Forall_cons in Hall as [_ Hall].
        rewrite (IH1 Hall). cbn. by rewrite <- app_assoc.
      * intros files Hfiles. constructor; [ reflexivity | by eapply IH2 ].
    + split; [ | discriminate ].
      intros Hall. apply Forall_cons in Hall as [Hf _]. discriminate.
Qed.

Lemma read_filenames_missing pre f post : ∀ filenames,
  Forall (λ l : string * bool, l.2 = true) pre →
  read_filenames (pre ++ (f, false) :: post) filenames
  = inl (Exception_of ("input fixel image not found: " +:+ f)).
Proof.
  induction pre as [ | [g e] pre IH ]; intros filenames Hall; [ reflexivity | ].
  apply Forall_cons in Hall as [He Hall]. cbn in He. subst e.
  cbn [app read_filenames]. by apply IH.
Qed.

(** X19: a run completes, and then writes its files, exactly when every
    listed image exists, the design matrix has one row per listed image, the
    contrast file has no more columns than the design matrix, the track count
    is not zero and every subject image has the dimensions of the mask.  The
    files are then those of [run_outputs] with one beta map per column of the
    design matrix, and the only possible warning is that of a track count
    below one million. *)
Theorem run_completes_iff (o : Options) (output_prefix : string) (i : RunInput)
    (warnings files : list string) :
  run_checked o output_prefix i = inr (warnings, files)
  ↔ (Forall (λ l : string * bool, l.2 = true) (input_lines i)
     ∧ design_rows i = length (input_lines i)
     ∧ (contrast_file_columns i ≤ design_columns i)%nat
     ∧ num_tracks i ≠ 0%Z
     ∧ Forall (λ b : bool, b = true)
              (take (length (input_lines i)) (subject_dimensions_match i))
     ∧ warnings = (if (num_tracks i <? 1000000)%Z then [ few_tracks_warning ] else [])
     ∧ files = run_outputs o output_prefix (design_columns i)).
Proof.
  unfold run_checked.
  destruct (read_filenames_spec (input_lines i) []) as [Hok Hall].
  destruct (read_filenames (input_lines i) []) as [ e | filenames ] eqn:Hread.
  - split; [ discriminate | ]. intros (Hf & _). specialize (Hok Hf). discriminate Hok.
  - specialize (Hall filenames eq_refl). specialize (Hok Hall).
    injection Hok as ->. cbn [app]. rewrite length_fmap.
    destruct (Nat.eqb_spec (design_rows i) (length (input_lines i))) as [ Hrows | Hrows ];
      cbn [negb]; [ | split; [ discriminate | tauto ] ].
    destruct (Nat.ltb_spec (design_columns i) (contrast_file_columns i)) as [ Hcols | Hcols ];
      [ split; [ discriminate | intros; lia ] | ].
    destruct (Z.eqb_spec (num_tracks i) 0) as [ Hzero | Hzero ];
      [ split; [ discriminate | tauto ] | ].
    destruct (forallb id (take (length (input_lines i)) (subject_dimensions_match i)))
      eqn:Hdims; cbn [negb].
    + assert (Forall (λ b : bool, b = true)
                     (take (length (input_lines i)) (subject_dimensions_match i))) as Hd.
      { apply Forall_forall. intros b Hb.
        rewrite forallb_forall in Hdims. apply (Hdims b). by apply list_elem_of_In. }
      unfold few_tracks_warning. split.
      * intros [= <- <-]. tauto.
      * intros (_ & _ & _ & _ & _ & -> & ->). reflexivity.
    + split; [ discriminate | ]. intros (_ & _ & _ & _ & Hd & _).
      rewrite Forall_forall in Hd.
      assert (forallb id (take (length (input_lines i)) (subject_dimensions_match i)) = true)
        as Htrue.
      { apply forallb_forall. intros b Hb. apply list_elem_of_In in Hb. by apply Hd. }
      rewrite Htrue in Hdims. discriminate.
Qed.

(** X20: when a listed image is missing the run stops with the message
    naming the first missing file, whatever else is wrong with the inputs,
    and writes nothing. *)
Theorem first_missing_file_is_reported (o : Options) (output_prefix : string)
    (i : RunInput) (pre post : list (string * bool)) (f : string) :
  input_lines i = pre ++ (f, false) :: post →
  Forall (λ l : string * bool, l.2 = true) pre →
  run_checked o output_prefix i
  = inl (Exception_of ("input fixel image not found: " +:+ f)).
Proof.
  intros Hlines Hpre. unfold run_checked.
  by rewrite Hlines, read_filenames_missing.
Qed.

Lemma first_missing_file_is_reported_witness :
  input_lines faulty_input
  = [ ("a.msf", true); ("b.msf", true) ]%string ++ ("c.msf"%string, false)
    :: [ ("d.msf"%string, false) ]
  ∧ Forall (λ l : string * bool, l.2 = true) [ ("a.msf", true); ("b.msf", true) ]%string
  ∧ run_checked no_options "out" faulty_input
    = inl (Exception_of ("input fixel image not found: " +:+ "c.msf")).
Proof.
  assert (Forall (λ l : string * bool, l.2 = true) [ ("a.msf", true); ("b.msf", true) ]%string)
    as Hpre by (repeat constructor).
  split; [ reflexivity | split; [ exact Hpre | ] ].
  exact (first_missing_file_is_reported no_options "out" faulty_input
           [ ("a.msf", true); ("b.msf", true) ]%string [ ("d.msf"%string, false) ] "c.msf"
           eq_refl Hpre).
Defined.

(* ------------------------------------------------------------------ *)
(** ** Image statistics: the accumulation of samples *)

Lemma Qsum_snoc l x : Qsum (l ++ [ x ]) == Qsum l + x.
Proof.
  unfold Qsum. induction l as [ | y l IH ]; cbn [app foldr].
  - ring.
  - rewrite IH. ring.
Qed.

Lemma stats_add_taken (s : Stats.t) (val : fp * fp) :
  Stats.add s val
  = match Stats.taken (Stats.ignore_zero s) val with
    | Some (re, im) => Stats.accumulate s re im
    | None => s
    end.
Proof.
  unfold Stats.add, Stats.taken. destruct val as [[re | | | ] [im | | | ]]; try reflexivity.
  cbn [fp_is_zero]. by destruct (Stats.ignore_zero s && Qeq_bool re 0 && Qeq_bool im 0).
Qed.

Lemma stats_flags_kept samples : ∀ s,
  Stats.ignore_zero (fold_left Stats.add samples s) = Stats.ignore_zero s
  ∧ Stats.is_complex (fold_left Stats.add samples s) = Stats.is_complex s.
Proof.
  induction samples as [ | val samples IH ]; intros s; [ by split | ].
  cbn [fold_left]. destruct (IH (Stats.add s val)) as [-> ->].
  rewrite stats_add_taken. destruct (Stats.taken _ val) as [ [re im] | ]; by split.
Qed.

Lemma stats_sums (is_complex ignorezero : bool) (samples : list (fp * fp)) :
  let s := fold_left Stats.add samples (Stats.new is_complex ignorezero) in
  let acc := taken_samples ignorezero samples in
  Stats.count s = (Z.of_nat (length acc) mod 18446744073709551616)%Z
  ∧ (Stats.mean s).1 == Qsum (acc.*1)
  ∧ (Stats.mean s).2 == Qsum (acc.*2)
  ∧ (Stats.std s).1 == Qsum ((λ x, x * x) <$> acc.*1)
  ∧ (Stats.std s).2 == Qsum ((λ x, x * x) <$> acc.*2)
  ∧ Stats.values s = (if is_complex then [] else acc.*1).
Proof.
  cbn zeta. induction samples as [ | val samples IH ] using rev_ind.
  - cbn. destruct is_complex; repeat split; reflexivity.
  - rewrite fold_left_app. cbn [fold_left].
    unfold taken_samples in *. rewrite omap_app. cbn [omap list_omap].
    destruct (stats_flags_kept samples (Stats.new is_complex ignorezero)) as [Hz Hc].
    cbn [Stats.new Stats.ignore_zero Stats.is_complex] in Hz, Hc.
    rewrite stats_add_taken, Hz.
    destruct (Stats.taken ignorezero val) as [ [re im] | ].
    + destruct IH as (Hcount & Hm1 & Hm2 & Hs1 & Hs2 & Hvalues).
      cbn [Stats.accumulate Stats.count Stats.mean Stats.std Stats.values fst snd].
      rewrite !fmap_app. cbn [fmap list_fmap fst snd].
      rewrite !Qsum_snoc, <- Hm1, <- Hm2, <- Hs1, <- Hs2, Hc, Hvalues, Hcount.
      rewrite length_app. cbn [length].
      split; [ | repeat split; try reflexivity; by destruct is_complex ].
      rewrite Zplus_mod_idemp_l. f_equal. lia.
    + rewrite !app_nil_r. exact IH.
Qed.

(** X21: a [Stats] fed a sequence of samples holds the sums of the samples
    it takes, that is of those with two finite parts that are not, under
    [ignorezero], equal to zero: [count] is their number (modulo 2^64),
    [mean] and [std] hold the sums of their parts and of the squares of their
    parts, and for real data [values] lists their real parts in order; for
    complex data [values] stays empty. *)
Theorem stats_hold_sums_of_taken (is_complex ignorezero : bool) (samples : list (fp * fp)) :
  let s := fold_left Stats.add samples (Stats.new is_complex ignorezero) in
  let acc := taken_samples ignorezero samples in
  Stats.count s = (Z.of_nat (length acc) mod 18446744073709551616)%Z
  ∧ (Stats.mean s).1 == Qsum (acc.*1)
  ∧ (Stats.mean s).2 == Qsum (acc.*2)
  ∧ (Stats.std s).1 == Qsum ((λ x, x * x) <$> acc.*1)
  ∧ (Stats.std s).2 == Qsum ((λ x, x * x) <$> acc.*2)
  ∧ Stats.values s = (if is_complex then [] else acc.*1).
Proof. exact (stats_sums is_complex ignorezero samples). Qed.

Lemma accumulate_extremes (s : Stats.t) (re im : Q) :
  (Stats.min (Stats.accumulate s re im)).1 = lower (Stats.min s).1 re
  ∧ (Stats.min (Stats.accumulate s re im)).2 = lower (Stats.min s).2 im
  ∧ (Stats.max (Stats.accumulate s re im)).1 = raise (Stats.max s).1 re
  ∧ (Stats.max (Stats.accumulate s re im)).2 = raise (Stats.max s).2 im.
Proof.
  cbn [Stats.accumulate Stats.min Stats.max]. unfold lower, raise.
  destruct (Stats.min s) as [a b], (Stats.max s) as [a' b']. cbn [fst snd].
  destruct (fp_lt (Finite re) a), (fp_lt a' (Finite re)); cbn [fst snd];
    destruct (fp_lt (Finite im) b), (fp_lt b' (Finite im)); cbn [fst snd];
    repeat split; reflexivity.
Qed.

Lemma stats_extremes samples : ∀ s,
  let s' := fold_left Stats.add samples s in
  let acc := taken_samples (Stats.ignore_zero s) samples in
  (Stats.min s').1 = fold_left lower (acc.*1) (Stats.min s).1
  ∧ (Stats.min s').2 = fold_left lower (acc.*2) (Stats.min s).2
  ∧ (Stats.max s').1 = fold_left raise (acc.*1) (Stats.max s).1
  ∧ (Stats.max s').2 = fold_left raise (acc.*2) (Stats.max s).2.
Proof.
  induction samples as [ | val samples IH ]; intros s; cbn zeta; [ by repeat split | ].
  cbn [fold_left]. unfold taken_samples. cbn [omap list_omap].
  specialize (IH (Stats.add s val)). cbn zeta in IH. unfold taken_samples in IH.
  rewrite stats_add_taken in *.
  destruct (Stats.taken (Stats.ignore_zero s) val) as [ [re im] | ]; [ | exact IH ].
  destruct (accumulate_extremes s re im) as (E1 & E2 & E3 & E4).
  rewrite E1, E2, E3, E4 in IH. exact IH.
Qed.

Lemma lower_fold xs : ∀ a,
  (xs = [] → fold_left lower xs a = a)
  ∧ (∀ m0, a = Finite m0 ∨ (a = PlusInfinity ∧ xs ≠ []) →
       ∃ m, fold_left lower xs a = Finite m
            ∧ (m ∈ xs ∨ a = Finite m)
            ∧ (∀ x, x ∈ xs → m <= x)
            ∧ (a = Finite m0 → m <= m0)).
Proof.
  induction xs as [ | x xs IH ]; intros a.
  - split; [ reflexivity | ]. intros m0 [ -> | [_ Hne] ]; [ | done ].
    exists m0. cbn. split; [ reflexivity | split; [ by right | split ] ].
    + intros x Hx. by apply elem_of_nil in Hx.
    + intros _. apply Qle_refl.
  - split; [ discriminate | ]. intros m0 Ha. cbn [fold_left].
    assert (∃ a1, lower a x = Finite a1 ∧ a1 <= x
                  ∧ (a1 = x ∨ a = Finite a1) ∧ (a = Finite m0 → a1 <= m0)) as (a1 & Ha1 & Hle & Hor & Hm0).
    { unfold lower. destruct Ha as [ -> | [-> _] ]; cbn [fp_lt].
      - destruct (Qltb x m0) eqn:Hlt.
        + apply Qltb_lt in Hlt. exists x.
          split; [ reflexivity | split; [ apply Qle_refl | split; [ by left | ] ] ].
          intros _. by apply Qlt_le_weak.
        + apply Qltb_ge in Hlt. exists m0.
          split; [ reflexivity | split; [ exact Hlt | split; [ by right | ] ] ].
          intros _. apply Qle_refl.
      - exists x. split; [ reflexivity | split; [ apply Qle_refl | split; [ by left | ] ] ].
        discriminate. }
    rewrite Ha1. destruct (IH (Finite a1)) as [_ IH'].
    destruct (IH' a1 (or_introl eq_refl)) as (m & -> & Hin & Hall & Hbound).
    specialize (Hbound eq_refl).
    exists m. split; [ reflexivity | split; [ | split ] ].
    + destruct Hin as [ Hin | [= ->] ]; [ left; by right | ].
      destruct Hor as [ -> | Ha' ]; [ left; by left | by right ].
    + intros y Hy. apply elem_of_cons in Hy as [ -> | Hy ]; [ | by apply Hall ].
      by eapply Qle_trans.
    + intros Ha'. eapply Qle_trans; [ exact Hbound | by apply Hm0 ].
Qed.

Lemma raise_fold xs : ∀ a,
  (xs = [] → fold_left raise xs a = a)
  ∧ (∀ m0, a = Finite m0 ∨ (a = MinusInfinity ∧ xs ≠ []) →
       ∃ m, fold_left raise xs a = Finite m
            ∧ (m ∈ xs ∨ a = Finite m)
            ∧ (∀ x, x ∈ xs → x <= m)
            ∧ (a = Finite m0 → m0 <= m)).
Proof.
  induction xs as [ | x xs IH ]; intros a.
  - split; [ reflexivity | ]. intros m0 [ -> | [_ Hne] ]; [ | done ].
    exists m0. cbn. split; [ reflexivity | split; [ by right | split ] ].
    + intros x Hx. by apply elem_of_nil in Hx.
    + intros _. apply Qle_refl.
  - split; [ discriminate | ]. intros m0 Ha. cbn [fold_left].
    assert (∃ a1, raise a x = Finite a1 ∧ x <= a1
                  ∧ (a1 = x ∨ a = Finite a1) ∧ (a = Finite m0 → m0 <= a1)) as (a1 & Ha1 & Hle & Hor & Hm0).
    { unfold raise. destruct Ha as [ -> | [-> _] ]; cbn [fp_lt].
      - destruct (Qltb m0 x) eqn:Hlt.
        + apply Qltb_lt in Hlt. exists x.
          split; [ reflexivity | split; [ apply Qle_refl | split; [ by left | ] ] ].
          intros _. by apply Qlt_le_weak.
        + apply Qltb_ge in Hlt. exists m0.
          split; [ reflexivity | split; [ exact Hlt | split; [ by right | ] ] ].
          intros _. apply Qle_refl.
      - exists x. split; [ reflexivity | split; [ apply Qle_refl | split; [ by left | ] ] ].
        discriminate. }
    rewrite Ha1. destruct (IH (Finite a1)) as [_ IH'].
    destruct (IH' a1 (or_introl eq_refl)) as (m & -> & Hin & Hall & Hbound).
    specialize (Hbound eq_refl).
    exists m. split; [ reflexivity | split; [ | split ] ].
    + destruct Hin as [ Hin | [= ->] ]; [ left; by right | ].
      destruct Hor as [ -> | Ha' ]; [ left; by left | by right ].
    + intros y Hy. apply elem_of_cons in Hy as [ -> | Hy ]; [ | by apply Hall ].
      by eapply Qle_trans.
    + intros Ha'. eapply Qle_trans; [ by apply Hm0 | exact Hbound ].
Qed.

(** X22: [min] and [max] bracket the samples taken.  When no sample was
    taken they are still [(+inf, +inf)] and [(-inf, -inf)]; otherwise the real
    part of [min] is one of the real parts taken and is not above any of
    them, the real part of [max] is one of them and is not below any of them,
    and likewise for the imaginary parts. *)
Theorem stats_extremes_bracket (is_complex ignorezero : bool) (samples : list (fp * fp)) :
  let s := fold_left Stats.add samples (Stats.new is_complex ignorezero) in
  let acc := taken_samples ignorezero samples in
  (acc = [] → Stats.min s = (PlusInfinity, PlusInfinity)
             ∧ Stats.max s = (MinusInfinity, MinusInfinity))
  ∧ (acc ≠ [] →
     ∃ lo_re lo_im hi_re hi_im,
       Stats.min s = (Finite lo_re, Finite lo_im)
       ∧ Stats.max s = (Finite hi_re, Finite hi_im)
       ∧ lo_re ∈ acc.*1 ∧ hi_re ∈ acc.*1 ∧ lo_im ∈ acc.*2 ∧ hi_im ∈ acc.*2
       ∧ (∀ x, x ∈ acc.*1 → lo_re <= x <= hi_re)
       ∧ (∀ y, y ∈ acc.*2 → lo_im <= y <= hi_im)).
Proof.
  cbn zeta.
  destruct (stats_extremes samples (Stats.new is_complex ignorezero)) as (H1 & H2 & H3 & H4).
  cbn [Stats.new Stats.ignore_zero Stats.min Stats.max fst snd] in H1, H2, H3, H4.
  set (s := fold_left Stats.add samples (Stats.new is_complex ignorezero)) in *.
  set (acc := taken_samples ignorezero samples) in *.
  split.
  - intros Hnil. rewrite Hnil in H1, H2, H3, H4. cbn in H1, H2, H3, H4.
    destruct (Stats.min s), (Stats.max s). cbn in *. by subst.
  - intros Hne.
    assert (acc.*1 ≠ []) as Hne1 by (destruct acc; [ done | discriminate ]).
    assert (acc.*2 ≠ []) as Hne2 by (destruct acc; [ done | discriminate ]).
    destruct (proj2 (lower_fold (acc.*1) PlusInfinity) 0 (or_intror (conj eq_refl Hne1)))
      as (lo_re & Hlo_re & [Hin1 | [=]] & Hall1 & _).
    destruct (proj2 (lower_fold (acc.*2) PlusInfinity) 0 (or_intror (conj eq_refl Hne2)))
      as (lo_im & Hlo_im & [Hin2 | [=]] & Hall2 & _).
    destruct (proj2 (raise_fold (acc.*1) MinusInfinity) 0 (or_intror (conj eq_refl Hne1)))
      as (hi_re & Hhi_re & [Hin3 | [=]] & Hall3 & _).
    destruct (proj2 (raise_fold (acc.*2) MinusInfinity) 0 (or_intror (conj eq_refl Hne2)))
      as (hi_im & Hhi_im & [Hin4 | [=]] & Hall4 & _).
    exists lo_re, lo_im, hi_re, hi_im.
    rewrite Hlo_re in H1. rewrite Hlo_im in H2. rewrite Hhi_re in H3. rewrite Hhi_im in H4.
    destruct (Stats.min s) as [a b], (Stats.max s) as [a' b']. cbn [fst snd] in *. subst.
    repeat split; auto.
Qed.

(* ------------------------------------------------------------------ *)
(** ** Image statistics: printing *)

#[local] Instance Qle_transitive : Transitive Qle := Qle_trans.

#[local] Instance Qle_total : Total Qle.
Proof. intros x y. destruct (Qlt_le_dec x y); [ left; by apply Qlt_le_weak | by right ]. Qed.





Lemma field_cell_known median s field :
  is_Some (Stats.field_cell median s field) ↔ field ∈ field_names.
Proof.
  unfold Stats.field_cell, field_names. rewrite !elem_of_cons, elem_of_nil.
  destruct (String.eqb_spec field "mean"); [ split; [ tauto | by eexists ] | ].
  destruct (String.eqb_spec field "median"); [ split; [ tauto | by eexists ] | ].
  destruct (String.eqb_spec field "std"); [ split; [ tauto | by eexists ] | ].
  destruct (String.eqb_spec field "min"); [ split; [ tauto | by eexists ] | ].
  destruct (String.eqb_spec field "max"); [ split; [ tauto | by eexists ] | ].
  destruct (String.eqb_spec field "count"); [ split; [ tauto | by eexists ] | ].
  split; [ intros [? ?]; discriminate | tauto ].
Qed.

Lemma field_cells_known median s (fields : list string) :
  Some <$> omap (Stats.field_cell median s) fields
  = Stats.field_cell median s <$> filter (λ field, field ∈ field_names) fields.
Proof.
  induction fields as [ | field fields IH ]; [ reflexivity | ].
  cbn [omap list_omap]. rewrite filter_cons.
  pose proof (field_cell_known median s field) as Hk.
  destruct (Stats.field_cell median s field) as [ cell | ] eqn:Hcell.
  - rewrite decide_True by (apply Hk; by eexists).
    cbn [fmap list_fmap]. rewrite Hcell. f_equal. exact IH.
  - rewrite decide_False by (intros Hin; apply Hk in Hin; by destruct Hin). exact IH.
Qed.

(** X24: [print] with a list of fields.  When no sample was taken it writes
    nothing; otherwise it writes one line with one cell for each requested
    name that is one of mean, median, std, min, max and count, in the order
    asked; any other name is passed over without an error, so that a list of
    unknown names gives an empty line. *)
Theorem print_fields_skips_unknown_names (lib : Libm) (median : list Q → Q)
    (indices : list Z) (fields : list string) (s : Stats.t) :
  fields ≠ [] →
  let out := (Stats.print lib median indices fields s).2 in
  (Stats.count s = 0%Z → out = None)
  ∧ (Stats.count s ≠ 0%Z →
     ∃ cells, out = Some cells
       ∧ Some <$> cells
         = Stats.field_cell median (Stats.finish lib s)
             <$> filter (λ field, field ∈ field_names) fields
       ∧ (Forall (λ field, field ∉ field_names) fields → cells = [])).
Proof.
  intros Hne. cbn zeta. unfold Stats.print.
  destruct fields as [ | field fields ]; [ done | ].
  change (Stats.count (Stats.finish lib s)) with (Stats.count s).
  split.
  - intros ->. reflexivity.
  - intros Hcount. destruct (Z.eqb_spec (Stats.count s) 0) as [ | _ ]; [ done | ].
    eexists. split; [ reflexivity | ]. split; [ apply field_cells_known | ].
    intros Hall. apply (fmap_nil_inv Some). rewrite field_cells_known.
    replace (filter (λ field, field ∈ field_names) (field :: fields)) with (@nil string);
      [ reflexivity | ].
    clear -Hall. induction Hall as [ | f fs Hf _ IH ]; [ reflexivity | ].
    rewrite filter_cons, decide_False by exact Hf. exact IH.
Qed.

Lemma print_fields_skips_unknown_names_witness :
  [ "mean"; "mode"; "count" ]%string ≠ []
  ∧ (Stats.count (Stats.new false false) = 0%Z →
     (Stats.print qlibm (λ _, 0) [] [ "mean"; "mode"; "count" ]%string
        (Stats.new false false)).2 = None).
Proof.
  assert ([ "mean"; "mode"; "count" ]%string ≠ []) as H by discriminate.
  split; [ exact H | ].
  exact (proj1 (print_fields_skips_unknown_names qlibm (λ _, 0) []
                  [ "mean"; "mode"; "count" ]%string (Stats.new false false) H)).
Defined.

(** X25: the line [print] writes when no field is asked for has one cell
    under each column of [print_header], for real and for complex data
    alike; the cell under the standard deviation column shows it only from
    two samples on and reads N/A otherwise, and when no sample was taken
    every cell between the label and the count reads N/A. *)
Theorem default_line_matches_header (lib : Libm) (median : list Q → Q)
    (indices : list Z) (s : Stats.t) :
  let out := (Stats.print lib median indices [] s).2 in
  ∃ label cells,
    out = Some (Cell_label label :: cells ++ [ Cell_count (Stats.count s) ])
    ∧ length (Cell_label label :: cells ++ [ Cell_count (Stats.count s) ])
      = length (Stats.print_header (Stats.is_complex s))
    ∧ cells !! (if Stats.is_complex s then 1 else 2)%nat
      = Some (if (1 <? Stats.count s)%Z
              then Cell_complex (Stats.std (Stats.finish lib s)) else Cell_NA)
    ∧ (Stats.count s = 0%Z → Forall (λ cell, cell = Cell_NA) cells).
Proof.
  cbn zeta. unfold Stats.print, Stats.default_line, Stats.print_header.
  change (Stats.count (Stats.finish lib s)) with (Stats.count s).
  change (Stats.is_complex (Stats.finish lib s)) with (Stats.is_complex s).
  set (s' := Stats.finish lib s).
  exists (if (3 <? length indices)%nat then drop 3 indices else [ 0%Z ]),
    ((if (Stats.count s =? 0)%Z then Cell_NA else Cell_complex (Stats.mean s'))
     :: (if Stats.is_complex s then []
         else [ if (Stats.count s =? 0)%Z then Cell_NA
                else Cell_real (median (Stats.values s')) ])
     ++ [ (if (1 <? Stats.count s)%Z then Cell_complex (Stats.std s') else Cell_NA);
          (if (Stats.count s =? 0)%Z then Cell_NA else Cell_extreme (Stats.min s'));
          (if (Stats.count s =? 0)%Z then Cell_NA else Cell_extreme (Stats.max s')) ]).
  split; [ | split; [ | split ] ].
  - destruct (Stats.is_complex s); reflexivity.
  - destruct (Stats.is_complex s); reflexivity.
  - destruct (Stats.is_complex s); reflexivity.
  - intros ->. cbn [Z.eqb Z.ltb Z.compare].
    destruct (Stats.is_complex s); repeat constructor.
Qed.

(* ------------------------------------------------------------------ *)
(** ** Image statistics: the dump stream and the histogram *)

(** X26: the stream set by [dump_to] and the histogram set by
    [generate_histogram] receive the samples taken and nothing else: after a
    sequence of samples the stream holds what it held followed by the samples
    taken, in order, and the histogram was fed their real parts, in order;
    without a stream or a histogram none is created. *)
Theorem dump_and_histogram_receive_taken (samples : list (fp * fp)) (s : Stats.t) :
  let s' := fold_left Stats.add samples s in
  let acc := taken_samples (Stats.ignore_zero s) samples in
  Stats.dump s' = (λ d, d ++ acc) <$> Stats.dump s
  ∧ Stats.hist s' = (λ h, h ++ acc.*1) <$> Stats.hist s.
Proof.
  cbn zeta. revert s. induction samples as [ | val samples IH ]; intros s.
  - unfold taken_samples. cbn [fold_left omap list_omap fmap list_fmap].
    destruct (Stats.dump s), (Stats.hist s); cbn; by rewrite ?app_nil_r.
  - cbn [fold_left]. destruct (IH (Stats.add s val)) as [Hd Hh]. rewrite Hd, Hh.
    unfold taken_samples. cbn [omap list_omap].
    rewrite stats_add_taken.
    destruct (Stats.taken (Stats.ignore_zero s) val) as [ [re im] | ]; [ | by split ].
    cbn [Stats.accumulate Stats.ignore_zero Stats.dump Stats.hist].
    destruct (Stats.dump s), (Stats.hist s); cbn [fmap option_fmap option_map list_fmap fst];
      split; try reflexivity; by rewrite <- app_assoc.
Qed.
